(** * The tawazi scheduler ([tawazi/_dag/helpers.py]) as a shallow embedding.

    The scheduler runs on one coordinator thread; the worker threads of the
    [ThreadPoolExecutor] are the environment.  Python objects live in a store
    and are named by references, dictionaries are insertion-ordered
    association lists, and the [while] loop of [execute] is a step function
    over explicit program points.  Time ([monotonic()], launch times, node
    timeouts) is counted in exact clock ticks of type [Z]. *)

From Stdlib Require Import String List ZArith Bool Lia Arith PeanoNat Permutation.
Import ListNotations.

#[local] Open Scope string_scope.
#[local] Open Scope list_scope.
#[local] Open Scope Z_scope.

Set Implicit Arguments.

(** ** Python values, exceptions and the result monad *)

Definition Identifier := string.

(** A reference to a Python object (an [ExecNode]) in the store. *)
Definition Ref := nat.

(** A handle names one [Future] object of the executor. *)
Definition Handle := nat.

(** Modelled from the spec: [NoVal] ([tawazi/consts.py]) is not among the
    sources.  The result slot of a node is "no value" or a Python value, of
    which the scheduler only ever observes the truthiness ([bool(...)]). *)
Inductive PyValue :=
| NoVal
| PyVal (truthy : bool) (payload : Z).

(** [bool(v)].  The truthiness of [NoVal] is taken to be false; no property
    below depends on that choice. *)
Definition py_bool (v : PyValue) : bool :=
  match v with
  | NoVal => false
  | PyVal t _ => t
  end.

(** An exception raised by a user function inside a worker. *)
Definition Exn := nat.

(** Modelled from the spec: [ErrorStrategy] ([tawazi/_errors.py]) is not
    among the sources.  Its members are the three policies that
    [handle_exception] compares [behavior] with; Python being dynamically
    typed, any other object can be passed as [behavior]. *)
Inductive ErrorStrategy :=
| strict
| all_children
| permissive
| unknown_strategy (name : string).

(** The exceptions the coordinator can raise.  [TawaziTimeoutError] carries
    the two values its message is formatted from. *)
Inductive PyError :=
| TawaziTimeoutError (running : list Handle) (next_timeout : option Z)
| NotImplementedError (behavior : ErrorStrategy) (cause : Exn)
| UserNodeError (e : Exn)
| KeyError (k : Identifier)
| ValueError
| IndexError.

(** Outcome of a piece of coordinator code: a value, a raised exception, or a
    call to [wait] without timeout that never returns. *)
Inductive Res (A : Type) :=
| Ok (a : A)
| Raise (e : PyError)
| Hang.

Arguments Ok {A} a.
Arguments Raise {A} e.
Arguments Hang {A}.

Definition bind {A B : Type} (r : Res A) (k : A -> Res B) : Res B :=
  match r with
  | Ok a => k a
  | Raise e => Raise e
  | Hang => Hang
  end.

Notation "x <- c ;; k" := (bind c (fun x => k))
  (at level 61, c at next level, right associativity).
Notation "' p <- c ;; k" := (bind c (fun p => k))
  (at level 61, p pattern, c at next level, right associativity).

(** ** Insertion-ordered dictionaries *)

Section Dicts.
Variable V : Type.

Definition Dict := list (Identifier * V).

Fixpoint dict_get (d : Dict) (k : Identifier) : option V :=
  match d with
  | [] => None
  | (k', v) :: d' => if String.eqb k k' then Some v else dict_get d' k
  end.

(** [d[k] = v]: an existing key keeps its position, a new key goes last. *)
Fixpoint dict_set (d : Dict) (k : Identifier) (v : V) : Dict :=
  match d with
  | [] => [(k, v)]
  | (k', v') :: d' =>
      if String.eqb k k' then (k, v) :: d' else (k', v') :: dict_set d' k v
  end.

Definition dict_keys (d : Dict) : list Identifier := map fst d.
Definition dict_values (d : Dict) : list V := map snd d.

(** [d[k]], raising [KeyError]. *)
Definition dict_item (d : Dict) (k : Identifier) : Res V :=
  match dict_get d k with
  | Some v => Ok v
  | None => Raise (KeyError k)
  end.
End Dicts.

Arguments dict_get {V} d k.
Arguments dict_set {V} d k v.
Arguments dict_keys {V} d.
Arguments dict_values {V} d.
Arguments dict_item {V} d k.

Definition mem_id (k : Identifier) (l : list Identifier) : bool :=
  existsb (String.eqb k) l.

Definition mem_handle (h : Handle) (l : list Handle) : bool :=
  existsb (Nat.eqb h) l.

(** ** Node records and the object store *)

(** [xn.active]: a [bool], or an object whose [id] names another node. *)
Inductive Active :=
| ActiveBool (b : bool)
| ActiveRef (id : Identifier).

(** Modelled from the spec: [ExecNode] ([tawazi/node/node.py]) is not among
    the sources.  These are the attributes of the node record that
    [helpers.py] reads; [result] is the only one written during an
    invocation. *)
Record ExecNode := mkExecNode {
  id : Identifier;
  priority : Z;
  compound_priority : Z;
  is_sequential : bool;
  timeout : option Z;
  setup : bool;
  active : Active;
  executed : bool;
  result : PyValue
}.

Definition Store := list ExecNode.

Definition deref (st : Store) (r : Ref) : option ExecNode := nth_error st r.

Definition alloc (st : Store) (x : ExecNode) : Store * Ref :=
  (st ++ [x], length st).

Fixpoint store_update (st : Store) (r : Ref) (f : ExecNode -> ExecNode) : Store :=
  match st, r with
  | [], _ => []
  | x :: st', O => f x :: st'
  | x :: st', S r' => x :: store_update st' r' f
  end.

Definition set_result (v : PyValue) (x : ExecNode) : ExecNode :=
  mkExecNode (id x) (priority x) (compound_priority x) (is_sequential x)
    (timeout x) (setup x) (active x) (executed x) v.

(** [xns_dict[k]] followed by the attribute access on the object. *)
Definition xn_item (st : Store) (d : Dict Ref) (k : Identifier) : Res ExecNode :=
  r <- dict_item d k ;;
  match deref st r with
  | Some x => Ok x
  | None => Raise (KeyError k)
  end.

(** ** [_xn_active_in_call] *)

Definition _xn_active_in_call (st : Store) (xn : ExecNode) (xns_dict : Dict Ref)
  : Res bool :=
  match active xn with
  | ActiveBool b => Ok b
  | ActiveRef r => x <- xn_item st xns_dict r ;; Ok (py_bool (result x))
  end.

(** ** [copy_non_setup_xns] *)

(** [copy(x_nd)]: a new object with the same attribute values. *)
Fixpoint copy_non_setup_xns_loop (st : Store) (items : Dict Ref) (x_nodes_copy : Dict Ref)
  : Res (Store * Dict Ref) :=
  match items with
  | [] => Ok (st, x_nodes_copy)
  | (id_, r) :: items' =>
      match deref st r with
      | None => Raise (KeyError id_)
      | Some x_nd =>
          if setup x_nd
          then copy_non_setup_xns_loop st items' (dict_set x_nodes_copy id_ r)
          else
            let '(st', r') := alloc st x_nd in
            copy_non_setup_xns_loop st' items' (dict_set x_nodes_copy id_ r')
      end
  end.

Definition copy_non_setup_xns (st : Store) (x_nodes : Dict Ref) : Res (Store * Dict Ref) :=
  copy_non_setup_xns_loop st x_nodes [].

(** ** Futures and the worker pool *)

Inductive Outcome :=
| Returned (v : PyValue)
| Raised (e : Exn).

Inductive FutState :=
| Pending
| Finished (o : Outcome).

(** A [Future] returned by [executor.submit(xn._execute, ...)]; [fut_node] is
    the node object the submitted bound method belongs to. *)
Record FutureObj := mkFuture {
  fut_node : Ref;
  fut_state : FutState
}.

Definition Pool := list FutureObj.

(** [fut.done()] *)
Definition fut_done (pool : Pool) (h : Handle) : bool :=
  match nth_error pool h with
  | Some f => match fut_state f with Finished _ => true | Pending => false end
  | None => false
  end.

(** ** [get_num_running_threads] *)

Definition get_num_running_threads (pool : Pool) (_futures : Dict Handle) : Z :=
  Z.of_nat (length (filter (fun future => negb (fut_done pool future))
                      (dict_values _futures))).

(** ** [get_highest_priority_nodes] *)

Definition py_max (x : Z) (xs : list Z) : Z := fold_left Z.max xs x.

(** A node object as the coordinator holds it: its reference and the
    attribute values read through it. *)
Definition XnRef := (Ref * ExecNode)%type.

Definition xn_prio (x : XnRef) : Z := priority (snd x).
Definition xn_cprio (x : XnRef) : Z := compound_priority (snd x).

(** [max] of an empty sequence raises [ValueError]. *)
Definition get_highest_priority_nodes (nodes : list XnRef) : Res (list XnRef) :=
  match map xn_prio nodes with
  | [] => Raise ValueError
  | p :: ps =>
      let highest_priority := py_max p ps in
      Ok (filter (fun node => xn_prio node =? highest_priority) nodes)
  end.

(** ** [get_next_timeout] *)

(** The accumulator [next_timeout] starts as [float("inf")]. *)
Inductive PyFloat :=
| Finite (z : Z)
| Infinity.

Definition float_min (a b : PyFloat) : PyFloat :=
  match a, b with
  | Infinity, _ => b
  | _, Infinity => a
  | Finite x, Finite y => Finite (Z.min x y)
  end.

Section NextTimeout.
Variable futures_launch_time : Dict Z.
Variable pool : Pool.
Variable st : Store.
Variable xns_dict : Dict Ref.

Fixpoint get_next_timeout_loop (items : Dict Handle) (next_timeout : PyFloat)
  : Res PyFloat :=
  match items with
  | [] => Ok next_timeout
  | (id_, fut) :: items' =>
      if negb (fut_done pool fut) then
        launch_time <- dict_item futures_launch_time id_ ;;
        x <- xn_item st xns_dict id_ ;;
        match timeout x with
        | Some t =>
            get_next_timeout_loop items' (float_min next_timeout (Finite (launch_time + t)))
        | None => get_next_timeout_loop items' next_timeout
        end
      else get_next_timeout_loop items' next_timeout
  end.

(** [monotonic] is the clock reading taken by the final subtraction. *)
Definition get_next_timeout (futures : Dict Handle) (monotonic : Z) : Res (option Z) :=
  next_timeout <- get_next_timeout_loop futures Infinity ;;
  match next_timeout with
  | Infinity => Ok None
  | Finite z => Ok (Some (z - monotonic))
  end.
End NextTimeout.

(** ** [raise_timeout_error_conditionally] *)

Definition raise_timeout_error_conditionally
  (done_ : list Handle) (running : list Handle) (next_timeout : option Z) : Res unit :=
  match done_ with
  | [] => Raise (TawaziTimeoutError running next_timeout)
  | _ :: _ => Ok tt
  end.

(** ** The environment: worker completions and [concurrent.futures.wait] *)

(** Futures that finish, with their outcomes, between two observations of
    the coordinator. *)
Definition Tick := list (Handle * Outcome).

Fixpoint pool_finish (pool : Pool) (h : Handle) (o : Outcome) : Pool :=
  match pool, h with
  | [], _ => []
  | f :: pool', O => mkFuture (fut_node f) (Finished o) :: pool'
  | f :: pool', S h' => f :: pool_finish pool' h' o
  end.

(** Modelled from the spec: [ExecNode._execute] is not among the sources.
    A worker finishing [h]: a pending future becomes finished, and a normal
    return of [run] stores the value in the [result] slot of its node; a
    raised exception is captured by the future. *)
Definition complete (ps : Pool * Store) (c : Handle * Outcome) : Pool * Store :=
  let '(pool, st) := ps in
  let '(h, o) := c in
  match nth_error pool h with
  | Some f =>
      match fut_state f with
      | Finished _ => (pool, st)
      | Pending =>
          (pool_finish pool h o,
           match o with
           | Returned v => store_update st (fut_node f) (set_result v)
           | Raised _ => st
           end)
      end
  | None => (pool, st)
  end.

Definition apply_tick (t : Tick) (ps : Pool * Store) : Pool * Store :=
  fold_left complete t ps.

(** A Python [set] of futures, as a duplicate-free list. *)
Definition set_add (h : Handle) (s : list Handle) : list Handle :=
  if mem_handle h s then s else s ++ [h].

Definition set_union (a b : list Handle) : list Handle :=
  fold_left (fun acc h => set_add h acc) b a.

Definition to_set (l : list Handle) : list Handle := set_union [] l.

Inductive ReturnWhen := FIRST_COMPLETED | ALL_COMPLETED.

(** [wait(fs, return_when, timeout)].  It returns at once when its condition
    already holds; otherwise it blocks, [during] are the completions that
    happen while it is blocked, and with no completion that satisfies it the
    call returns when the timeout elapses, or never without a timeout. *)
Definition wait (pool : Pool) (st : Store) (fs : list Handle) (return_when : ReturnWhen)
  (timeout : option Z) (during : Tick) : Res (list Handle * list Handle * Pool * Store) :=
  let fs := to_set fs in
  let done := filter (fut_done pool) fs in
  let not_done := filter (fun f => negb (fut_done pool f)) fs in
  let immediately :=
    match return_when with
    | FIRST_COMPLETED => negb (Nat.eqb (length done) 0) || Nat.eqb (length done) (length fs)
    | ALL_COMPLETED => Nat.eqb (length done) (length fs)
    end in
  if immediately then Ok (done, not_done, pool, st)
  else
    let '(pool', st') := apply_tick during (pool, st) in
    let done' := filter (fut_done pool') fs in
    let not_done' := filter (fun f => negb (fut_done pool' f)) fs in
    let satisfied :=
      match return_when with
      | FIRST_COMPLETED => negb (Nat.eqb (length done') 0)
      | ALL_COMPLETED => Nat.eqb (length done') (length fs)
      end in
    if satisfied then Ok (done', not_done', pool', st')
    else
      match timeout with
      | None => Hang
      | Some _ => Ok (done', not_done', pool', st')
      end.

(** ** The working graph [DiGraphEx] *)

(** Modelled from the spec: [tawazi/_dag/digraph.py] (class [DiGraphEx]) is
    not among the sources.  The working graph is a mutable DAG over node ids
    with edges from dependency to dependent; [root_nodes] are the ids with no
    remaining predecessor, [remove_node] deletes a node and its incident
    edges, [remove_recursively] deletes a node and all its transitive
    dependents, [successors] are the direct dependents.  Iteration ([for id_
    in graph]) follows [nodes]. *)
Record DiGraphEx := mkGraph {
  nodes : list Identifier;
  edges : list (Identifier * Identifier)
}.

(** [len(graph)] *)
Definition graph_len (g : DiGraphEx) : nat := length (nodes g).

(** [id_ in graph] *)
Definition graph_contains (g : DiGraphEx) (n : Identifier) : bool :=
  mem_id n (nodes g).

Definition has_pred (g : DiGraphEx) (n : Identifier) : bool :=
  existsb (fun e => String.eqb (snd e) n) (edges g).

(** Modelled from the spec: [DiGraphEx.root_nodes], all ids with no remaining
    predecessor. *)
Definition root_nodes (g : DiGraphEx) : list Identifier :=
  filter (fun n => negb (has_pred g n)) (nodes g).

(** Modelled from the spec: [DiGraphEx.successors], the direct dependents. *)
Definition successors (g : DiGraphEx) (n : Identifier) : list Identifier :=
  map snd (filter (fun e => String.eqb (fst e) n) (edges g)).

(** Removal of a set of nodes together with every edge touching it. *)
Definition remove_nodes (g : DiGraphEx) (r : list Identifier) : DiGraphEx :=
  mkGraph (filter (fun n => negb (mem_id n r)) (nodes g))
          (filter (fun e => negb (mem_id (fst e) r) && negb (mem_id (snd e) r)) (edges g)).

(** Modelled from the spec: [DiGraphEx.remove_node] deletes the node and its
    incident edges.  [execute] only calls it on ids that are in the graph. *)
Definition remove_node (g : DiGraphEx) (n : Identifier) : DiGraphEx :=
  remove_nodes g [n].

(** Nodes of the graph outside [s] with a predecessor in [s]. *)
Definition frontier (g : DiGraphEx) (s : list Identifier) : list Identifier :=
  filter (fun v => negb (mem_id v s)
                   && existsb (fun e => mem_id (fst e) s && String.eqb (snd e) v) (edges g))
         (nodes g).

Fixpoint reach (g : DiGraphEx) (fuel : nat) (s : list Identifier) : list Identifier :=
  match fuel with
  | O => s
  | S fuel' =>
      match frontier g s with
      | [] => s
      | new => reach g fuel' (s ++ new)
      end
  end.

(** [n] and its transitive dependents. *)
Definition descendants (g : DiGraphEx) (n : Identifier) : list Identifier :=
  reach g (length (nodes g)) [n].

(** Modelled from the spec: [DiGraphEx.remove_recursively] deletes the node
    and all its transitive dependents. *)
Definition remove_recursively (g : DiGraphEx) (n : Identifier) : DiGraphEx :=
  remove_nodes g (descendants g n).

(** ** [handle_exception] *)

(** [fut.result()]: the value, or the exception of the worker re-raised.  It
    is only called on futures that are done; on a pending one it blocks. *)
Definition fut_result (pool : Pool) (fut : Handle) : Res PyValue :=
  match nth_error pool fut with
  | Some f =>
      match fut_state f with
      | Finished (Returned v) => Ok v
      | Finished (Raised e) => Raise (UserNodeError e)
      | Pending => Hang
      end
  | None => Hang
  end.

(** The graph is mutated in place; the function returns its new value. *)
Definition handle_exception (behavior : ErrorStrategy) (graph : DiGraphEx)
  (pool : Pool) (fut : Handle) (id_ : Identifier) : Res DiGraphEx :=
  match behavior with
  | strict => _res <- fut_result pool fut ;; Ok graph
  | _ =>
      match fut_result pool fut with
      | Ok _res => Ok graph
      | Raise (UserNodeError e) =>
          match behavior with
          | permissive => Ok graph
          | all_children =>
              let successors := successors graph id_ in
              Ok (fold_left remove_recursively successors graph)
          | _ => Raise (NotImplementedError behavior e)
          end
      | Raise e => Raise e
      | Hang => Hang
      end
  end.

(** ** Choosing the node to run (steps 4.1.1 and 4.1.2 of [execute]) *)

(** [list.sort(key=...)] is stable and ascending. *)
Fixpoint insert_by_key (key : XnRef -> Z) (x : XnRef) (l : list XnRef) : list XnRef :=
  match l with
  | [] => [x]
  | y :: l' => if key x <=? key y then x :: l else y :: insert_by_key key x l'
  end.

Fixpoint sort_by_key (key : XnRef -> Z) (l : list XnRef) : list XnRef :=
  match l with
  | [] => []
  | x :: l' => insert_by_key key x (sort_by_key key l')
  end.

(** [l[-1]] *)
Fixpoint last_item (l : list XnRef) : Res XnRef :=
  match l with
  | [] => Raise IndexError
  | [x] => Ok x
  | _ :: l' => last_item l'
  end.

Definition choose_xn (runnable_xns : list XnRef) : Res XnRef :=
  highest_priority_xns <- get_highest_priority_nodes runnable_xns ;;
  last_item (sort_by_key xn_cprio highest_priority_xns).

(** [[xns_dict[node_id] for node_id in runnable_xns_ids]] *)
Fixpoint lookup_xns (st : Store) (xns_dict : Dict Ref) (ids : list Identifier)
  : Res (list XnRef) :=
  match ids with
  | [] => Ok []
  | node_id :: ids' =>
      r <- dict_item xns_dict node_id ;;
      match deref st r with
      | None => Raise (KeyError node_id)
      | Some x => xs <- lookup_xns st xns_dict ids' ;; Ok ((r, x) :: xs)
      end
  end.

(** [set(a) - set(b)], before any iteration order is imposed. *)
Definition ids_difference (a b : list Identifier) : list Identifier :=
  nodup string_dec (filter (fun n => negb (mem_id n b)) a).

(** ** [execute]: the scheduler *)

(** The local variables of [execute] that the loop mutates, with the state
    of the futures ([pool]) and of the node objects ([store]). *)
Record Sched := mkSched {
  graph : DiGraphEx;
  futures : Dict Handle;
  done : list Handle;
  running : list Handle;
  futures_launch_time : Dict Z;
  runnable_xns_ids : list Identifier;
  pool : Pool;
  store : Store
}.

(** What the environment contributes to one step of the coordinator: the
    futures that finished since its previous observation, those that finish
    while it is blocked inside [wait], the reading of [monotonic()], and the
    iteration order of the [set] built in step 2. *)
Record EnvIn := mkEnv {
  arrived : Tick;
  during_wait : Tick;
  monotonic : Z;
  set_order : list Identifier -> list Identifier
}.

(** Program points of the [while] loop. *)
Inductive Pc :=
| AtLoopHead               (* line 153: loop test, then step 6 *)
| AtReap                   (* line 182: steps 1 to 4.1 *)
| AtChosen (xn : XnRef)    (* line 215: steps 4.2 and 5.1 *)
| AtSubmit (xn : XnRef)    (* line 237: step 5.2 *)
| AtPostWait (xn : XnRef). (* line 248: step 5.3 *)

Inductive Next :=
| Continue (pc : Pc) (s : Sched)
| Return (s : Sched).

Definition observe (e : EnvIn) (s : Sched) : Sched :=
  let '(pool', store') := apply_tick (arrived e) (pool s, store s) in
  mkSched (graph s) (futures s) (done s) (running s) (futures_launch_time s)
    (runnable_xns_ids s) pool' store'.

Section Execute.
Variable xns_dict : Dict Ref.
Variable max_concurrency : Z.
Variable behavior : ErrorStrategy.

(** Step 1: the [for id_, fut in futures.items()] loop. *)
Fixpoint reap (pool : Pool) (items : Dict Handle) (graph : DiGraphEx) : Res DiGraphEx :=
  match items with
  | [] => Ok graph
  | (id_, fut) :: items' =>
      if fut_done pool fut && graph_contains graph id_ then
        graph' <- handle_exception behavior graph pool fut id_ ;;
        reap pool items' (remove_node graph' id_)
      else reap pool items' graph
  end.

Definition step_loop_head (e : EnvIn) (s : Sched) : Res Next :=
  if Nat.eqb (graph_len (graph s)) 0 then Ok (Return s)
  else
    let s := observe e s in
    let num_running_threads := get_num_running_threads (pool s) (futures s) in
    let num_runnable_nodes_ids := Z.of_nat (length (runnable_xns_ids s)) in
    if (num_running_threads =? max_concurrency) || (num_runnable_nodes_ids =? 0) then
      next_timeout <- get_next_timeout (futures_launch_time s) (pool s) (store s)
                        xns_dict (futures s) (monotonic e) ;;
      '(done_, running', pool', store') <-
        wait (pool s) (store s) (running s) FIRST_COMPLETED next_timeout (during_wait e) ;;
      _ <- raise_timeout_error_conditionally done_ running' next_timeout ;;
      Ok (Continue AtReap
            (mkSched (graph s) (futures s) (set_union (done s) done_) running'
               (futures_launch_time s) (runnable_xns_ids s) pool' store'))
    else Ok (Continue AtReap s).

Definition step_reap (e : EnvIn) (s : Sched) : Res Next :=
  let s := observe e s in
  graph' <- reap (pool s) (futures s) (graph s) ;;
  let runnable_xns_ids' :=
    set_order e (ids_difference (root_nodes graph') (dict_keys (futures s))) in
  let s' := mkSched graph' (futures s) (done s) (running s) (futures_launch_time s)
              runnable_xns_ids' (pool s) (store s) in
  if Nat.eqb (length runnable_xns_ids') 0 then Ok (Continue AtLoopHead s')
  else
    runnable_xns <- lookup_xns (store s) xns_dict runnable_xns_ids' ;;
    xn <- choose_xn runnable_xns ;;
    Ok (Continue (AtChosen xn) s').

Definition step_chosen (xn : XnRef) (e : EnvIn) (s : Sched) : Res Next :=
  let s := observe e s in
  let num_running_threads := get_num_running_threads (pool s) (futures s) in
  if is_sequential (snd xn) && negb (num_running_threads =? 0) then
    next_timeout <- get_next_timeout (futures_launch_time s) (pool s) (store s)
                      xns_dict (futures s) (monotonic e) ;;
    '(done_, running', pool', store') <-
      wait (pool s) (store s) (running s) FIRST_COMPLETED next_timeout (during_wait e) ;;
    _ <- raise_timeout_error_conditionally done_ running' next_timeout ;;
    Ok (Continue AtLoopHead
          (mkSched (graph s) (futures s) (done s) running'
             (futures_launch_time s) (runnable_xns_ids s) pool' store'))
  else
    is_active <- _xn_active_in_call (store s) (snd xn) xns_dict ;;
    if negb is_active then
      Ok (Continue AtLoopHead
            (mkSched (remove_recursively (graph s) (id (snd xn))) (futures s) (done s)
               (running s) (futures_launch_time s) (runnable_xns_ids s)
               (pool s) (store s)))
    else Ok (Continue (AtSubmit xn) s).

(** [executor.submit(xn._execute, node_dict=xns_dict)] creates a pending
    future for the node object. *)
Definition step_submit (xn : XnRef) (e : EnvIn) (s : Sched) : Res Next :=
  let exec_future := length (pool s) in
  let s' := mkSched (graph s)
              (dict_set (futures s) (id (snd xn)) exec_future)
              (done s)
              (set_add exec_future (running s))
              (dict_set (futures_launch_time s) (id (snd xn)) (monotonic e))
              (runnable_xns_ids s)
              (pool s ++ [mkFuture (fst xn) Pending])
              (store s) in
  if is_sequential (snd xn) then Ok (Continue (AtPostWait xn) s')
  else Ok (Continue AtLoopHead s').

Definition step_post_wait (xn : XnRef) (e : EnvIn) (s : Sched) : Res Next :=
  let s := observe e s in
  next_timeout <- get_next_timeout (futures_launch_time s) (pool s) (store s)
                    xns_dict (futures s) (monotonic e) ;;
  '(done_, running', pool', store') <-
    wait (pool s) (store s) (dict_values (futures s)) ALL_COMPLETED next_timeout
      (during_wait e) ;;
  _ <- raise_timeout_error_conditionally done_ running' next_timeout ;;
  Ok (Continue AtLoopHead
        (mkSched (graph s) (futures s) (done s) running'
           (futures_launch_time s) (runnable_xns_ids s) pool' store')).

Definition step (e : EnvIn) (pc : Pc) (s : Sched) : Res Next :=
  match pc with
  | AtLoopHead => step_loop_head e s
  | AtReap => step_reap e s
  | AtChosen xn => step_chosen xn e s
  | AtSubmit xn => step_submit xn e s
  | AtPostWait xn => step_post_wait xn e s
  end.

(** The loop, driven by the inputs of the environment; when these run out
    before the loop ends, the current program point is returned. *)
Fixpoint run_loop (envs : list EnvIn) (pc : Pc) (s : Sched) : Res Next :=
  match envs with
  | [] => Ok (Continue pc s)
  | e :: envs' =>
      match step e pc s with
      | Ok (Continue pc' s') => run_loop envs' pc' s'
      | r => r
      end
  end.
End Execute.

(** [modified_node_dict or copy_non_setup_xns(node_dict)]: [None] and the
    empty dictionary are both falsy. *)
Definition init_xns_dict (st : Store) (node_dict : Dict Ref)
  (modified_node_dict : option (Dict Ref)) : Res (Store * Dict Ref) :=
  match modified_node_dict with
  | Some (_ :: _ as d) => Ok (st, d)
  | Some [] => copy_non_setup_xns st node_dict
  | None => copy_non_setup_xns st node_dict
  end.

(** [[id_ for id_ in graph if xns_dict[id_].executed]] *)
Fixpoint precomputed_ids (st : Store) (xns_dict : Dict Ref) (ids : list Identifier)
  : Res (list Identifier) :=
  match ids with
  | [] => Ok []
  | id_ :: ids' =>
      x <- xn_item st xns_dict id_ ;;
      rest <- precomputed_ids st xns_dict ids' ;;
      Ok (if executed x then id_ :: rest else rest)
  end.

(** Steps 0.1 to 0.4 and the creation of the executor, which rejects a
    non-positive [max_workers] with [ValueError]. *)
Definition execute_init (st : Store) (node_dict : Dict Ref) (max_concurrency : Z)
  (graph : DiGraphEx) (modified_node_dict : option (Dict Ref))
  : Res (Dict Ref * Sched) :=
  '(st', xns_dict) <- init_xns_dict st node_dict modified_node_dict ;;
  precomputed_xns_ids <- precomputed_ids st' xns_dict (nodes graph) ;;
  let graph' := fold_left remove_node precomputed_xns_ids graph in
  let runnable_xns_ids := root_nodes graph' in
  if max_concurrency <=? 0 then Raise ValueError
  else Ok (xns_dict, mkSched graph' [] [] [] [] runnable_xns_ids [] st').

(** [execute] against the environment inputs [envs].  [Ok (xns_dict, Return
    s)] is the normal return of [xns_dict], whose objects are in [store s]. *)
Definition execute (st : Store) (node_dict : Dict Ref) (max_concurrency : Z)
  (behavior : ErrorStrategy) (graph : DiGraphEx)
  (modified_node_dict : option (Dict Ref)) (envs : list EnvIn)
  : Res (Dict Ref * Next) :=
  '(xns_dict, s0) <- execute_init st node_dict max_concurrency graph modified_node_dict ;;
  r <- run_loop xns_dict max_concurrency behavior envs AtLoopHead s0 ;;
  Ok (xns_dict, r).

(** * Vocabulary of the specification *)


(** ** Deadline aggregation *)




(** ** Blocking waits *)

(** The call of [wait] that the step at [pc] makes, with the timeout it
    passes; [None] when the step does not wait. *)
Definition blocking_wait (xns_dict : Dict Ref) (max_concurrency : Z) (e : EnvIn)
  (pc : Pc) (s : Sched)
  : option (Res (option Z * (list Handle * list Handle * Pool * Store))) :=
  let timed fs return_when s :=
    next_timeout <- get_next_timeout (futures_launch_time s) (pool s) (store s)
                      xns_dict (futures s) (monotonic e) ;;
    w <- wait (pool s) (store s) fs return_when next_timeout (during_wait e) ;;
    Ok (next_timeout, w) in
  match pc with
  | AtLoopHead =>
      if Nat.eqb (graph_len (graph s)) 0 then None
      else
        let s := observe e s in
        if (get_num_running_threads (pool s) (futures s) =? max_concurrency)
           || (Z.of_nat (length (runnable_xns_ids s)) =? 0)
        then Some (timed (running s) FIRST_COMPLETED s)
        else None
  | AtChosen xn =>
      let s := observe e s in
      if is_sequential (snd xn)
         && negb (get_num_running_threads (pool s) (futures s) =? 0)
      then Some (timed (running s) FIRST_COMPLETED s)
      else None
  | AtPostWait xn =>
      let s := observe e s in
      Some (timed (dict_values (futures s)) ALL_COMPLETED s)
  | AtReap => None
  | AtSubmit _ => None
  end.

(** ** Environment inputs and the ready set *)

(** The iteration order of a set lists the elements of the set. *)
Definition env_ok (e : EnvIn) : Prop :=
  forall l x, In x (set_order e l) <-> In x l.

(** The ready set: roots of the working graph without a future. *)
Definition ready (s : Sched) : list Identifier :=
  ids_difference (root_nodes (graph s)) (dict_keys (futures s)).

(** [k] names the node object [xn] in the state table. *)
Definition names_xn (xns_dict : Dict Ref) (st : Store) (k : Identifier) (xn : XnRef) : Prop :=
  dict_get xns_dict k = Some (fst xn) /\ deref st (fst xn) = Some (snd xn).

Fixpoint ascending (key : XnRef -> Z) (l : list XnRef) : Prop :=
  match l with
  | [] => True
  | x :: l' => (forall y, In y l' -> key x <= key y) /\ ascending key l'
  end.

(** ** Graphs *)

(** Every edge joins two nodes of the graph. *)
Definition wf_graph (g : DiGraphEx) : Prop :=
  forall p m, In (p, m) (edges g) -> In p (nodes g) /\ In m (nodes g).

(** [s] contains every node of [g] that has a predecessor in [s]. *)
Definition closed (g : DiGraphEx) (s : list Identifier) : Prop :=
  forall p m, In (p, m) (edges g) -> In p s -> In m (nodes g) -> In m s.

(** [d] is [x] or a transitive dependent of [x] in [g]. *)
Inductive path (g : DiGraphEx) (x : Identifier) : Identifier -> Prop :=
| path_refl : path g x x
| path_step w d : path g x w -> In (w, d) (edges g) -> path g x d.

(** [g'] is [g] restricted to some of its nodes. *)
Definition subgraph (g' g : DiGraphEx) : Prop :=
  incl (nodes g') (nodes g) /\
  forall p m, In (p, m) (edges g') <->
              In (p, m) (edges g) /\ In p (nodes g') /\ In m (nodes g').

(** ** Evolution of the pool and of the store *)

(** Futures that are done stay done. *)
Definition pool_le (p p' : Pool) : Prop :=
  forall h, fut_done p h = true -> fut_done p' h = true.

(** Two node records that differ at most in their [result]. *)
Definition same_attrs (x x' : ExecNode) : Prop :=
  set_result NoVal x = set_result NoVal x'.

(** The objects of [st'] are those of [st], up to their [result]. *)
Definition store_sim (st st' : Store) : Prop :=
  length st' = length st /\
  forall r x', deref st' r = Some x' ->
    exists x, deref st r = Some x /\ same_attrs x x'.

(** The key of every entry of the state table is the [id] of its node. *)
Definition ids_consistent (xns_dict : Dict Ref) (st : Store) : Prop :=
  forall k r x, dict_get xns_dict k = Some r -> deref st r = Some x -> id x = k.

(** ** The invariant of the scheduler *)

(** [p] has a future, and it is done. *)
Definition finished_key (futs : Dict Handle) (pool : Pool) (p : Identifier) : Prop :=
  exists h, In (p, h) futs /\ fut_done pool h = true.

(** [g0] is the working graph when the loop starts, [g] the current one:
    a predecessor that has left the graph while its dependent is still there
    has a finished future, and the predecessors of every submitted node have
    left the graph with finished futures. *)
Record GInv (g0 : DiGraphEx) (futs : Dict Handle) (pool : Pool) (g : DiGraphEx)
  : Prop := mkGInv {
  ginv_sub : subgraph g g0;
  ginv_preds : forall m p, In m (nodes g) -> In (p, m) (edges g0) ->
                 In p (nodes g) \/ finished_key futs pool p;
  ginv_subm : forall k h, In (k, h) futs -> forall p, In (p, k) (edges g0) ->
                ~ In p (nodes g) /\ finished_key futs pool p
}.

(** A node that has been chosen and not yet submitted is ready. *)
Definition pending_choice (pc : Pc) (s : Sched) : Prop :=
  match pc with
  | AtChosen xn => In (id (snd xn)) (ready s)
  | AtSubmit xn => In (id (snd xn)) (ready s)
  | _ => True
  end.

Record Inv (xns_dict : Dict Ref) (g0 : DiGraphEx) (pc : Pc) (s : Sched) : Prop := mkInv {
  inv_graph : GInv g0 (futures s) (pool s) (graph s);
  inv_ids : ids_consistent xns_dict (store s);
  inv_choice : pending_choice pc s
}.

(** One step of the loop, for some input of the environment. *)
Definition step_to (xns_dict : Dict Ref) (max_concurrency : Z) (behavior : ErrorStrategy)
  (c c' : Pc * Sched) : Prop :=
  exists e, env_ok e /\
    step xns_dict max_concurrency behavior e (fst c) (snd c)
      = Ok (Continue (fst c') (snd c')).

Inductive reaches (xns_dict : Dict Ref) (max_concurrency : Z) (behavior : ErrorStrategy)
  (c : Pc * Sched) : Pc * Sched -> Prop :=
| reaches_refl : reaches xns_dict max_concurrency behavior c c
| reaches_step c' c'' :
    reaches xns_dict max_concurrency behavior c c' ->
    step_to xns_dict max_concurrency behavior c' c'' ->
    reaches xns_dict max_concurrency behavior c c''.

(** A step that touches neither the graph nor the table of futures. *)
Definition quiet (s s' : Sched) : Prop :=
  graph s' = graph s /\ futures s' = futures s /\
  pool_le (pool s) (pool s') /\ store_sim (store s) (store s').

(** ** The state table *)

(** Every entry of [d] refers to an object of [st]. *)
Definition valid_dict (st : Store) (d : Dict Ref) : Prop :=
  forall k r, In (k, r) d -> exists x, deref st r = Some x.

(** ** Concrete invocations *)

Module Scenarios.

Definition node (i : Identifier) (p cp : Z) (seq : bool) (to : option Z) (act : Active)
  : ExecNode :=
  mkExecNode i p cp seq to false act false NoVal.

(** An input node, already executed. *)
Definition input_node (i : Identifier) (v : PyValue) : ExecNode :=
  mkExecNode i 0 0 false None false (ActiveBool true) true v.

Definition same_order (l : list Identifier) : list Identifier := l.

(** Nothing happens in the pool. *)
Definition idle (t : Z) : EnvIn := mkEnv [] [] t same_order.

(** Future [h] finishes before the coordinator looks again. *)
Definition finishes (h : Handle) (o : Outcome) (t : Z) : EnvIn :=
  mkEnv [(h, o)] [] t same_order.

(** Future [h] finishes while the coordinator is blocked in [wait]. *)
Definition wakes (h : Handle) (o : Outcome) (t : Z) : EnvIn :=
  mkEnv [] [(h, o)] t same_order.

Definition empty_sched : Sched := mkSched (mkGraph [] []) [] [] [] [] [] [] [].

Definition init_of (r : Res (Dict Ref * Sched)) : Dict Ref * Sched :=
  match r with
  | Ok p => p
  | _ => ([], empty_sched)
  end.

Definition state_of (r : Res Next) : Pc * Sched :=
  match r with
  | Ok (Continue pc s) => (pc, s)
  | Ok (Return s) => (AtLoopHead, s)
  | _ => (AtLoopHead, empty_sched)
  end.

(** Input short-circuit: [n] depends on the pre-executed input [d]. *)
Definition input_store : Store :=
  [input_node "d" (PyVal true 1); node "n" 0 0 false None (ActiveBool true)].
Definition input_dict : Dict Ref := [("d", 0%nat); ("n", 1%nat)].
Definition input_graph : DiGraphEx := mkGraph ["d"; "n"] [("d", "n")].
Definition input_init : Dict Ref * Sched :=
  Eval vm_compute in init_of (execute_init input_store input_dict 1 input_graph None).
Definition input_envs : list EnvIn := [idle 0; idle 0; idle 0].
Definition input_at_submit : Pc * Sched :=
  Eval vm_compute in state_of (run_loop (fst input_init) 1 strict input_envs AtLoopHead (snd input_init)).
Definition input_xn : XnRef := (3%nat, node "n" 0 0 false None (ActiveBool true)).

Definition plain (i : Identifier) (p : Z) : ExecNode :=
  node i p p false None (ActiveBool true).

(** Chain: [b] depends on [a]. *)
Definition chain_store : Store := [plain "a" 0; plain "b" 0].
Definition chain_dict : Dict Ref := [("a", 0%nat); ("b", 1%nat)].
Definition chain_graph : DiGraphEx := mkGraph ["a"; "b"] [("a", "b")].
Definition chain_init : Dict Ref * Sched :=
  Eval vm_compute in init_of (execute_init chain_store chain_dict 1 chain_graph None).
Definition chain_envs : list EnvIn :=
  [idle 0; idle 0; idle 0; idle 0; wakes 0%nat (Returned (PyVal true 5)) 1;
   idle 2; idle 2].
Definition chain_at_submit : Pc * Sched :=
  Eval vm_compute in state_of (run_loop (fst chain_init) 1 strict chain_envs AtLoopHead (snd chain_init)).
Definition chain_xn : XnRef := (3%nat, plain "b" 0).



(** Conditional gate: [x] is active when [g] returns a truthy value, [y]
    depends on [x]; [g] returns a falsy value. *)
Definition gate_store : Store :=
  [plain "g" 0; node "x" 0 0 false None (ActiveRef "g"); plain "y" 0].
Definition gate_dict : Dict Ref := [("g", 0%nat); ("x", 1%nat); ("y", 2%nat)].
Definition gate_graph : DiGraphEx := mkGraph ["g"; "x"; "y"] [("g", "x"); ("x", "y")].
Definition gate_init : Dict Ref * Sched :=
  Eval vm_compute in init_of (execute_init gate_store gate_dict 1 gate_graph None).
Definition gate_envs : list EnvIn :=
  [idle 0; idle 0; idle 0; idle 0; wakes 0%nat (Returned (PyVal false 0)) 1; idle 2].
Definition gate_at_chosen : Pc * Sched :=
  Eval vm_compute in state_of (run_loop (fst gate_init) 1 strict gate_envs AtLoopHead (snd gate_init)).
Definition gate_xn : XnRef := (4%nat, node "x" 0 0 false None (ActiveRef "g")).
Definition gate_pruned : Pc * Sched :=
  Eval vm_compute in state_of (step (fst gate_init) 1 strict (idle 2) (fst gate_at_chosen)
              (snd gate_at_chosen)).

(** A table with one setup node and one ordinary node. *)
Definition setup_store : Store :=
  [mkExecNode "cfg" 0 0 false None true (ActiveBool true) false NoVal; plain "work" 0].
Definition setup_dict : Dict Ref := [("cfg", 0%nat); ("work", 1%nat)].

(** Sequential node with a timeout: [a] runs first, then the sequential
    [s] (timeout 5), while [b] is ready; two workers. *)
Definition seq_store : Store :=
  [plain "a" 2; node "s" 1 1 true (Some 5) (ActiveBool true); plain "b" 0].
Definition seq_dict : Dict Ref := [("a", 0%nat); ("s", 1%nat); ("b", 2%nat)].
Definition seq_graph : DiGraphEx := mkGraph ["a"; "s"; "b"] [].
Definition seq_init : Dict Ref * Sched :=
  Eval vm_compute in init_of (execute_init seq_store seq_dict 2 seq_graph None).
Definition seq_xn : XnRef := (4%nat, node "s" 1 1 true (Some 5) (ActiveBool true)).
(** [a] is submitted at 0 and finishes; [s] is submitted at 4. *)
Definition seq_envs_submitted : list EnvIn :=
  [idle 0; idle 0; idle 0; idle 0; idle 1; idle 1;
   wakes 0%nat (Returned (PyVal true 1)) 2; idle 3; idle 3; idle 3; idle 4].
Definition seq_at_post_wait : Pc * Sched :=
  Eval vm_compute in state_of (run_loop (fst seq_init) 2 strict seq_envs_submitted AtLoopHead
              (snd seq_init)).
(** The wait of step 5.3 starts at 4 and [s] does not finish within its 5
    ticks. *)
Definition seq_after_post_wait : Pc * Sched :=
  Eval vm_compute in state_of (step (fst seq_init) 2 strict (idle 4) (fst seq_at_post_wait)
              (snd seq_at_post_wait)).
(** The loop goes on and submits [b] at 9. *)
Definition seq_envs_overlap : list EnvIn :=
  seq_envs_submitted ++ [idle 4; idle 9; idle 9; idle 9; idle 9].
Definition seq_overlap : Pc * Sched :=
  Eval vm_compute in state_of (run_loop (fst seq_init) 2 strict seq_envs_overlap AtLoopHead
              (snd seq_init)).

(** Then [s] and [b] finish and the invocation returns. *)
Definition seq_envs_return : list EnvIn :=
  seq_envs_overlap
  ++ [mkEnv [(1%nat, Returned (PyVal true 2)); (2%nat, Returned (PyVal true 3))] [] 10
        same_order;
      idle 10; idle 10].

(** All-children error: the chain [a -> b -> c], where [b] raises. *)
Definition error_store : Store := [plain "a" 0; plain "b" 0; plain "c" 0].
Definition error_dict : Dict Ref := [("a", 0%nat); ("b", 1%nat); ("c", 2%nat)].
Definition error_graph : DiGraphEx :=
  mkGraph ["a"; "b"; "c"] [("a", "b"); ("b", "c")].
Definition error_init : Dict Ref * Sched :=
  Eval vm_compute in init_of (execute_init error_store error_dict 1 error_graph None).
Definition error_envs_failed : list EnvIn :=
  [idle 0; idle 0; idle 0; idle 0; wakes 0%nat (Returned (PyVal true 5)) 1;
   idle 2; idle 2; idle 2; wakes 1%nat (Raised 42%nat) 3].
Definition error_envs : list EnvIn := error_envs_failed ++ [idle 4; idle 4].

(** The chain again, when [a] has returned and the reap step is next. *)
Definition chain_at_reap : Pc * Sched :=
  Eval vm_compute in state_of (run_loop (fst chain_init) 1 strict (firstn 5 chain_envs)
              AtLoopHead (snd chain_init)).

(** The chain when [a] raises instead. *)
Definition chain_envs_failed : list EnvIn :=
  [idle 0; idle 0; idle 0; idle 0; wakes 0%nat (Raised 7%nat) 1].
Definition chain_failed_at_reap : Pc * Sched :=
  Eval vm_compute in state_of (run_loop (fst chain_init) 1 strict chain_envs_failed
              AtLoopHead (snd chain_init)).

(** The input short-circuit, when [n] has been submitted. *)
Definition input_submitted : Pc * Sched :=
  Eval vm_compute in state_of (run_loop (fst input_init) 1 strict (input_envs ++ [idle 0])
              AtLoopHead (snd input_init)).

(** The sequential scenario when [s] has been picked for the second time,
    [a] having finished. *)
Definition seq_at_chosen : Pc * Sched :=
  Eval vm_compute in state_of (run_loop (fst seq_init) 2 strict (firstn 9 seq_envs_submitted)
              AtLoopHead (snd seq_init)).
Definition seq_at_submit : Pc * Sched :=
  Eval vm_compute in state_of (run_loop (fst seq_init) 2 strict (firstn 10 seq_envs_submitted)
              AtLoopHead (snd seq_init)).

(** A graph in which every node has a predecessor. *)
Definition cycle_graph : DiGraphEx := mkGraph ["a"; "b"] [("a", "b"); ("b", "a")].

(** Saturation: four independent nodes, two workers; [a] finishes between
    two observations, then [b] and [c] are submitted. *)
Definition busy_store : Store := [plain "a" 4; plain "b" 3; plain "c" 2; plain "d" 1].
Definition busy_dict : Dict Ref := [("a", 0%nat); ("b", 1%nat); ("c", 2%nat); ("d", 3%nat)].
Definition busy_graph : DiGraphEx := mkGraph ["a"; "b"; "c"; "d"] [].
Definition busy_init : Dict Ref * Sched :=
  Eval vm_compute in init_of (execute_init busy_store busy_dict 2 busy_graph None).
Definition busy_envs : list EnvIn :=
  [idle 0; idle 0; idle 0; idle 0;
   finishes 0%nat (Returned (PyVal true 1)) 1; idle 1; idle 1; idle 1;
   idle 2; idle 2; idle 2; idle 2].
Definition busy_at_head : Pc * Sched :=
  Eval vm_compute in state_of (run_loop (fst busy_init) 2 strict busy_envs AtLoopHead
              (snd busy_init)).
Definition busy_after : Pc * Sched :=
  Eval vm_compute in state_of (run_loop (fst busy_init) 2 strict
              (busy_envs ++ [idle 3; idle 3; idle 3; idle 3]) AtLoopHead (snd busy_init)).

(** The setup table in an invocation that runs both nodes. *)
Definition setup_graph : DiGraphEx := mkGraph ["cfg"; "work"] [].
Definition setup_init : Dict Ref * Sched :=
  Eval vm_compute in init_of (execute_init setup_store setup_dict 1 setup_graph None).
Definition setup_envs : list EnvIn :=
  [idle 0; idle 0; idle 0; idle 0; wakes 0%nat (Returned (PyVal true 7)) 1;
   idle 2; idle 2; idle 2; wakes 1%nat (Returned (PyVal true 8)) 3; idle 4].
Definition setup_done : Pc * Sched :=
  Eval vm_compute in state_of (run_loop (fst setup_init) 1 strict setup_envs AtLoopHead
              (snd setup_init)).

(** The chain when [a] has been submitted and the loop head is next. *)
Definition chain_at_head : Pc * Sched :=
  Eval vm_compute in state_of (run_loop (fst chain_init) 1 strict (firstn 4 chain_envs)
              AtLoopHead (snd chain_init)).

End Scenarios.

(** ** The invariant of the pool and of the state table *)

(** [st0] is the store when the loop starts.  Every future belongs to the
    node of one key of the futures table; a future that returned a value has
    stored it in the [result] of its node; objects that are not the node of
    any future are as they were when the loop started. *)
Record PS (xns_dict : Dict Ref) (st0 : Store) (futs : Dict Handle) (pool : Pool)
  (st : Store) : Prop := mkPS {
  ps_node : forall h f, nth_error pool h = Some f ->
              exists k, In (k, h) futs /\ dict_get xns_dict k = Some (fut_node f);
  ps_nodup : NoDup (dict_keys futs);
  ps_value : forall h f v, nth_error pool h = Some f ->
               fut_state f = Finished (Returned v) ->
               exists x, deref st (fut_node f) = Some x /\ result x = v;
  ps_untouched : forall r, (forall h f, nth_error pool h = Some f -> fut_node f <> r) ->
                   deref st r = deref st0 r;
  ps_valid : forall h f, nth_error pool h = Some f ->
               exists x, deref st (fut_node f) = Some x;
  ps_ids : ids_consistent xns_dict st
}.

(** The node chosen at step 4 is an object of the state table. *)
Definition chosen_named (xns_dict : Dict Ref) (pc : Pc) (s : Sched) : Prop :=
  match pc with
  | AtChosen xn =>
      dict_get xns_dict (id (snd xn)) = Some (fst xn) /\
      exists x, deref (store s) (fst xn) = Some x
  | AtSubmit xn =>
      dict_get xns_dict (id (snd xn)) = Some (fst xn) /\
      exists x, deref (store s) (fst xn) = Some x
  | _ => True
  end.


(** Every node of [g] has an object in the state table. *)
Definition covers (xns_dict : Dict Ref) (st : Store) (g : DiGraphEx) : Prop :=
  forall k, In k (nodes g) ->
    exists r x, dict_get xns_dict k = Some r /\ deref st r = Some x.

(** ** The set of running futures *)

(** [running] holds every pending future of the table, and only futures of
    the table. *)
Record RInv (s : Sched) : Prop := mkRInv {
  rinv_pending : forall k h, In (k, h) (futures s) -> fut_done (pool s) h = false ->
                   In h (running s);
  rinv_table : forall h, In h (running s) -> exists k, In (k, h) (futures s)
}.

(** The step from [s] to [s'] waited on [fs], and the wait came back with a
    completed future. *)
Definition waited (fs : list Handle) (return_when : ReturnWhen) (e : EnvIn)
  (s s' : Sched) : Prop :=
  exists next_timeout done_ not_done,
    wait (pool (observe e s)) (store (observe e s)) fs return_when next_timeout
      (during_wait e) = Ok (done_, not_done, pool s', store s') /\
    done_ <> [] /\ running s' = not_done /\
    futures s' = futures s /\ graph s' = graph s.

(** ** A prompt environment *)

(** The environment in which every submitted node has finished (here with
    the value [NoVal]) whenever the coordinator looks at the pool. *)
Definition finish_all (s : Sched) : EnvIn :=
  mkEnv (map (fun h => (h, Returned NoVal)) (seq 0 (length (pool s)))) [] 0
    (fun l => l).

(** The graph has no cycle: some ranking increases along every edge. *)
Definition acyclic (g : DiGraphEx) : Prop :=
  exists rank : Identifier -> nat,
    forall p m, In (p, m) (edges g) -> (rank p < rank m)%nat.

(** Every reference of an [active] attribute names a node of the table. *)
Definition actives_valid (xns_dict : Dict Ref) (st : Store) : Prop :=
  forall r x i, deref st r = Some x -> active x = ActiveRef i ->
    exists r' x', dict_get xns_dict i = Some r' /\ deref st r' = Some x'.

(** Every future of the table is done. *)
Definition all_done (pool : Pool) (futs : Dict Handle) : Prop :=
  forall k h, In (k, h) futs -> fut_done pool h = true.


(** What the program point promises about the ready list and the chosen
    node: the loop head finds the ready list empty only while a root is
    still running. *)
Definition awaited (pc : Pc) (s : Sched) : Prop :=
  match pc with
  | AtLoopHead =>
      runnable_xns_ids s = [] -> nodes (graph s) <> [] ->
      exists k h, In (k, h) (futures s) /\ fut_done (pool s) h = false
  | AtReap => True
  | AtChosen xn =>
      runnable_xns_ids s <> [] /\ deref (store s) (fst xn) = Some (snd xn)
  | AtSubmit xn => runnable_xns_ids s <> []
  | AtPostWait xn =>
      runnable_xns_ids s <> [] /\ In (id (snd xn)) (dict_keys (futures s))
  end.

Record LInv (xns_dict : Dict Ref) (pc : Pc) (s : Sched) : Prop := mkLInv {
  linv_nodup : NoDup (nodes (graph s));
  linv_handles : forall k h, In (k, h) (futures s) -> (h < length (pool s))%nat;
  linv_actives : actives_valid xns_dict (store s);
  linv_pc : awaited pc s
}.

(** Nodes of the working graph that have not been submitted. *)
Definition unsubmitted (s : Sched) : list Identifier :=
  filter (fun n => negb (mem_id n (dict_keys (futures s)))) (nodes (graph s)).

Definition pc_rank (pc : Pc) : nat :=
  match pc with
  | AtPostWait _ => 4
  | AtLoopHead => 3
  | AtReap => 2
  | AtChosen _ => 1
  | AtSubmit _ => 0
  end.

(** The work that is left: it decreases with every step of a run in which
    no wait has to block. *)
Definition work_left (pc : Pc) (s : Sched) : nat :=
  5 * (length (nodes (graph s)) + length (unsubmitted s)) + pc_rank pc.


(** ** The tables of the submitted nodes *)


(** The node held at step 4.2 is the object of the state table as it was
    read in step 4.1. *)
Definition snapshot (pc : Pc) (s : Sched) : Prop :=
  match pc with
  | AtChosen xn => deref (store s) (fst xn) = Some (snd xn)
  | _ => True
  end.


(** ** Futures that failed *)

(** No future of the pool has raised. *)
Definition no_failure (pool : Pool) : Prop :=
  forall h f x, nth_error pool h = Some f -> fut_state f <> Finished (Raised x).


(** ** Submitted nodes and the working graph *)

(** A submitted node stays in the working graph until its future is done. *)
Definition held (s : Sched) : Prop :=
  forall k h, In (k, h) (futures s) ->
    fut_done (pool s) h = true \/ In k (nodes (graph s)).


(** ** Runs without pruning *)

(** Every node object is unconditionally active. *)
Definition all_active (st : Store) : Prop :=
  forall r x, deref st r = Some x -> active x = ActiveBool true.

(** Every node of [g0] is still in the working graph or has a finished
    future. *)
Definition ran (g0 : DiGraphEx) (s : Sched) : Prop :=
  forall k, In k (nodes g0) ->
    In k (nodes (graph s)) \/ finished_key (futures s) (pool s) k.


(** A tick in which every worker returns a value. *)
Definition values_only (t : Tick) : Prop :=
  forall h o, In (h, o) t -> exists v, o = Returned v.


(** No node object has a timeout. *)
Definition no_timeouts (st : Store) : Prop :=
  forall r x, deref st r = Some x -> timeout x = None.

(** * Properties *)

(** ** Deadline aggregation *)






(** ** The error handler *)


(** ** Timeouts *)

Lemma wait_not_done pool st fs rw nt during done_ not_done pool' st' :
  wait pool st fs rw nt during = Ok (done_, not_done, pool', st') ->
  done_ = filter (fut_done pool') (to_set fs) /\
  not_done = filter (fun f => negb (fut_done pool' f)) (to_set fs).
Proof.
  unfold wait.
  match goal with |- context [if ?c then _ else _] => destruct c end.
  - intros H; inversion H; subst; auto.
  - destruct (apply_tick during (pool, st)) as [p1 s1].
    match goal with |- context [if ?c then _ else _] => destruct c end.
    + intros H; inversion H; subst; auto.
    + destruct nt; [|discriminate]. intros H; inversion H; subst; auto.
Qed.

(** ** The selection rule *)

Lemma py_max_spec xs : forall x,
  (forall y, In y (x :: xs) -> y <= py_max x xs) /\ In (py_max x xs) (x :: xs).
Proof.
  unfold py_max. induction xs as [|a xs IH]; intros x; simpl.
  - split; [intros y [-> | []]; lia | now left].
  - destruct (IH (Z.max x a)) as [Hle Hin]. split.
    + intros y [-> | [-> | Hy]].
      * specialize (Hle (Z.max y a) (or_introl eq_refl)); lia.
      * specialize (Hle (Z.max x y) (or_introl eq_refl)); lia.
      * apply Hle; now right.
    + destruct Hin as [Hin | Hin]; [|now right; right].
      rewrite <- Hin. destruct (Z.max_spec x a) as [[_ ->] | [_ ->]]; auto.
Qed.

Lemma get_highest_priority_nodes_spec l hp :
  get_highest_priority_nodes l = Ok hp ->
  hp <> [] /\
  forall x, In x hp <->
    In x l /\ forall y, In y l -> xn_prio y <= xn_prio x.
Proof.
  unfold get_highest_priority_nodes.
  destruct l as [|a l]; simpl map; [discriminate|].
  destruct (py_max_spec (map xn_prio l) (xn_prio a)) as [Hle Hin].
  change (xn_prio a :: map xn_prio l) with (map xn_prio (a :: l)) in Hle, Hin.
  remember (py_max (xn_prio a) (map xn_prio l)) as top eqn:Htop.
  intros H; injection H as <-.
  set (hp := filter (fun node => xn_prio node =? top) (a :: l)).
  assert (Hiff : forall x, In x hp <->
            In x (a :: l) /\ forall y, In y (a :: l) -> xn_prio y <= xn_prio x).
  { intros x; unfold hp; rewrite filter_In, Z.eqb_eq; split.
    - intros [Hx Heq]; split; [exact Hx|]. intros y Hy; rewrite Heq.
      apply Hle, in_map, Hy.
    - intros [Hx Hmax]; split; [exact Hx|].
      apply in_map_iff in Hin as (m & Hm & Hml).
      specialize (Hmax m Hml). specialize (Hle _ (in_map xn_prio _ _ Hx)). lia. }
  split; [|exact Hiff].
  apply in_map_iff in Hin as (m & Hm & Hml).
  intros Hnil.
  assert (Hmhp : In m hp).
  { apply Hiff; split; [exact Hml|]. intros y Hy; rewrite Hm. apply Hle, in_map, Hy. }
  assert (Hnil' : hp = []) by exact Hnil.
  rewrite Hnil' in Hmhp; exact Hmhp.
Qed.

Lemma insert_by_key_In key x l y :
  In y (insert_by_key key x l) <-> y = x \/ In y l.
Proof.
  induction l as [|a l IH]; simpl.
  - split; [intros [<- | []]; now left | intros [-> | []]; now left].
  - destruct (key x <=? key a); simpl; [split; intuition congruence|].
    rewrite IH; split; intuition congruence.
Qed.

Lemma sort_by_key_In key l y : In y (sort_by_key key l) <-> In y l.
Proof.
  induction l as [|a l IH]; simpl; [tauto|].
  rewrite insert_by_key_In, IH; split; intuition congruence.
Qed.

Lemma insert_by_key_ascending key x l :
  ascending key l -> ascending key (insert_by_key key x l).
Proof.
  induction l as [|a l IH]; simpl; [tauto|].
  intros [Ha Hl]. destruct (key x <=? key a) eqn:Hc; simpl.
  - apply Z.leb_le in Hc. split; [|tauto].
    intros y [<- | Hy]; [exact Hc | specialize (Ha y Hy); lia].
  - apply Z.leb_gt in Hc. split; [|auto].
    intros y Hy; apply insert_by_key_In in Hy as [-> | Hy]; [lia | auto].
Qed.

Lemma sort_by_key_ascending key l : ascending key (sort_by_key key l).
Proof.
  induction l as [|a l IH]; simpl; [exact I | now apply insert_by_key_ascending].
Qed.

Lemma last_item_ascending key l x :
  ascending key l -> last_item l = Ok x ->
  In x l /\ forall y, In y l -> key y <= key x.
Proof.
  induction l as [|a l IH]; [discriminate|].
  intros [Ha Hl] Hlast. destruct l as [|b l].
  - inversion Hlast; subst. split; [now left | intros y [-> | []]; lia].
  - change (last_item (a :: b :: l)) with (last_item (b :: l)) in Hlast.
    destruct (IH Hl Hlast) as [Hin Hmax]. split; [now right|].
    intros y [<- | Hy]; [apply Ha, Hin | apply Hmax, Hy].
Qed.

Lemma last_item_nonempty l : l <> [] -> exists x, last_item l = Ok x.
Proof.
  induction l as [|a l IH]; [congruence|]. intros _.
  destruct l as [|b l]; [now exists a|].
  change (last_item (a :: b :: l)) with (last_item (b :: l)). apply IH; discriminate.
Qed.

Lemma choose_xn_spec l x :
  choose_xn l = Ok x ->
  In x l /\
  (forall y, In y l -> xn_prio y <= xn_prio x) /\
  (forall y, In y l -> xn_prio y = xn_prio x -> xn_cprio y <= xn_cprio x).
Proof.
  unfold choose_xn.
  destruct (get_highest_priority_nodes l) as [hp| |] eqn:Hhp; simpl; try discriminate.
  intros Hlast.
  destruct (get_highest_priority_nodes_spec _ Hhp) as [_ Hiff].
  destruct (last_item_ascending xn_cprio _ (sort_by_key_ascending xn_cprio hp) Hlast)
    as [Hin Hmax].
  apply sort_by_key_In, Hiff in Hin as [Hin Hprio].
  repeat split; auto.
  intros y Hy Heq. apply Hmax, sort_by_key_In, Hiff. split; [exact Hy|].
  intros z Hz; rewrite Heq; auto.
Qed.

Lemma choose_xn_total l : l <> [] -> exists x, choose_xn l = Ok x.
Proof.
  intros Hl. unfold choose_xn.
  destruct l as [|a l]; [congruence|].
  destruct (get_highest_priority_nodes (a :: l)) as [hp| |] eqn:Hhp;
    try (unfold get_highest_priority_nodes in Hhp; simpl in Hhp; discriminate).
  simpl. destruct (get_highest_priority_nodes_spec _ Hhp) as [Hne _].
  apply last_item_nonempty. intros Hs. apply Hne.
  destruct hp as [|b hp]; [reflexivity|].
  assert (Hb : In b (sort_by_key xn_cprio (b :: hp))) by (apply sort_by_key_In; now left).
  rewrite Hs in Hb; destruct Hb.
Qed.

Lemma lookup_xns_spec st xns_dict ids xs :
  lookup_xns st xns_dict ids = Ok xs ->
  (forall xn, In xn xs -> exists k, In k ids /\ names_xn xns_dict st k xn) /\
  (forall k xn, In k ids -> names_xn xns_dict st k xn -> In xn xs).
Proof.
  revert xs; induction ids as [|k ids IH]; simpl; intros xs H.
  - inversion H; subst; split; [intros ? [] | intros ? ? []].
  - unfold dict_item in H. destruct (dict_get xns_dict k) as [r|] eqn:Hr; simpl in H; [|discriminate].
    destruct (deref st r) as [x|] eqn:Hx; [|discriminate].
    destruct (lookup_xns st xns_dict ids) as [xs'| |]; simpl in H; try discriminate.
    inversion H; subst; clear H. destruct (IH xs' eq_refl) as [IH1 IH2]. split.
    + intros xn [<- | Hin].
      * exists k; split; [now left | split; assumption].
      * destruct (IH1 xn Hin) as (k' & Hk' & Hn). exists k'; split; [now right | exact Hn].
    + intros k' [r' x'] [<- | Hin] [Hg Hd]; simpl in *.
      * left; congruence.
      * right; apply (IH2 k'); [exact Hin | split; assumption].
Qed.

(** Case analysis along the control flow of a step. *)
Ltac step_cases :=
  repeat (unfold bind;
          match goal with
          | |- context [match ?x with _ => _ end] => destruct x eqn:?
          end);
  try discriminate.

Lemma observe_fields e s :
  graph (observe e s) = graph s /\ futures (observe e s) = futures s /\
  done (observe e s) = done s /\ running (observe e s) = running s /\
  futures_launch_time (observe e s) = futures_launch_time s /\
  runnable_xns_ids (observe e s) = runnable_xns_ids s /\
  (pool (observe e s), store (observe e s)) = apply_tick (arrived e) (pool s, store s).
Proof.
  unfold observe. destruct (apply_tick (arrived e) (pool s, store s)); simpl; auto 10.
Qed.



(** ** The working graph *)

Lemma mem_id_In k l : mem_id k l = true <-> In k l.
Proof.
  unfold mem_id; rewrite existsb_exists; split.
  - intros (x & Hx & Heq); apply String.eqb_eq in Heq; now subst.
  - intros H; exists k; split; [exact H | apply String.eqb_refl].
Qed.

Lemma mem_id_not_In k l : mem_id k l = false <-> ~ In k l.
Proof.
  rewrite <- mem_id_In. destruct (mem_id k l); split; congruence.
Qed.

Lemma remove_nodes_nodes g r n :
  In n (nodes (remove_nodes g r)) <-> In n (nodes g) /\ ~ In n r.
Proof.
  unfold remove_nodes; simpl. rewrite filter_In, negb_true_iff, mem_id_not_In. tauto.
Qed.

Lemma remove_nodes_edges g r p m :
  In (p, m) (edges (remove_nodes g r)) <->
  In (p, m) (edges g) /\ ~ In p r /\ ~ In m r.
Proof.
  unfold remove_nodes; simpl.
  rewrite filter_In, andb_true_iff, !negb_true_iff, !mem_id_not_In. simpl. tauto.
Qed.

Lemma remove_nodes_wf g r : wf_graph g -> wf_graph (remove_nodes g r).
Proof.
  intros Hwf p m H. apply remove_nodes_edges in H as (He & Hp & Hm).
  destruct (Hwf p m He). rewrite !remove_nodes_nodes. tauto.
Qed.

Lemma subgraph_refl g : wf_graph g -> subgraph g g.
Proof.
  intros Hwf; split; [apply incl_refl|]. intros p m; split; [|tauto].
  intros H; destruct (Hwf p m H); tauto.
Qed.

Lemma remove_nodes_subgraph g r : wf_graph g -> subgraph (remove_nodes g r) g.
Proof.
  intros Hwf; split.
  - intros n Hn; now apply remove_nodes_nodes in Hn.
  - intros p m. rewrite remove_nodes_edges, !remove_nodes_nodes. split; [|tauto].
    intros (He & Hp & Hm). destruct (Hwf p m He). tauto.
Qed.

Lemma subgraph_trans g1 g2 g3 : subgraph g1 g2 -> subgraph g2 g3 -> subgraph g1 g3.
Proof.
  intros [Hn1 He1] [Hn2 He2]; split.
  - intros n Hn; auto.
  - intros p m; rewrite He1, He2. split; [tauto|].
    intros (He & Hp & Hm); repeat split; auto.
Qed.

Lemma subgraph_wf g' g : subgraph g' g -> wf_graph g'.
Proof. intros [_ He] p m H. apply He in H; tauto. Qed.

Lemma root_nodes_spec g n :
  In n (root_nodes g) <-> In n (nodes g) /\ forall p, ~ In (p, n) (edges g).
Proof.
  unfold root_nodes, has_pred. rewrite filter_In, negb_true_iff. split.
  - intros [Hn Hp]; split; [exact Hn|]. intros p Hin.
    assert (Ht : existsb (fun e => String.eqb (snd e) n) (edges g) = true).
    { apply existsb_exists. exists (p, n); split; [exact Hin | apply String.eqb_refl]. }
    congruence.
  - intros [Hn Hp]; split; [exact Hn|].
    destruct (existsb _ _) eqn:Hex; [|reflexivity].
    apply existsb_exists in Hex as ([p m] & Hin & Heq). simpl in Heq.
    apply String.eqb_eq in Heq; subst. now destruct (Hp p).
Qed.

Lemma frontier_spec g s v :
  In v (frontier g s) <->
  In v (nodes g) /\ ~ In v s /\ exists p, In p s /\ In (p, v) (edges g).
Proof.
  unfold frontier. rewrite filter_In, andb_true_iff, negb_true_iff, mem_id_not_In,
    existsb_exists. split.
  - intros (Hv & Hs & [p m] & Hin & Hc). apply andb_true_iff in Hc as [Hp Hm].
    simpl in *. apply mem_id_In in Hp. apply String.eqb_eq in Hm; subst.
    repeat split; auto. exists p; auto.
  - intros (Hv & Hs & p & Hp & Hin). repeat split; auto.
    exists (p, v); split; [exact Hin|]. simpl.
    apply andb_true_iff; split; [now apply mem_id_In | apply String.eqb_refl].
Qed.

Lemma filter_length_lt (A : Type) (f h : A -> bool) (l : list A) :
  (forall x, f x = true -> h x = true) ->
  (exists x, In x l /\ h x = true /\ f x = false) ->
  (length (filter f l) < length (filter h l))%nat.
Proof.
  intros Himp (x & Hin & Hh & Hf).
  induction l as [|a l IH]; [destruct Hin|].
  assert (Hle : forall l0, (length (filter f l0) <= length (filter h l0))%nat).
  { induction l0 as [|b l0 IH0]; simpl; [lia|].
    destruct (f b) eqn:Hfb; [rewrite (Himp b Hfb); simpl; lia|].
    destruct (h b); simpl; lia. }
  simpl. destruct Hin as [-> | Hin].
  - rewrite Hf, Hh; simpl. specialize (Hle l); lia.
  - specialize (IH Hin). destruct (f a) eqn:Hfa; [rewrite (Himp a Hfa); simpl; lia|].
    destruct (h a); simpl; lia.
Qed.

Lemma reach_incl g fuel : forall s, incl s (reach g fuel s).
Proof.
  induction fuel as [|fuel IH]; intros s; simpl; [apply incl_refl|].
  destruct (frontier g s) as [|v new]; [apply incl_refl|].
  intros x Hx. apply IH, in_or_app; now left.
Qed.

Lemma reach_closed g fuel : forall s,
  (length (filter (fun n => negb (mem_id n s)) (nodes g)) <= fuel)%nat ->
  closed g (reach g fuel s).
Proof.
  induction fuel as [|fuel IH]; intros s Hfuel; simpl.
  - intros p m He Hp Hm. destruct (mem_id m s) eqn:Hms; [now apply mem_id_In|].
    assert (Hin : In m (filter (fun n => negb (mem_id n s)) (nodes g))).
    { apply filter_In; split; [exact Hm | now rewrite Hms]. }
    apply Nat.le_0_r, length_zero_iff_nil in Hfuel. rewrite Hfuel in Hin; destruct Hin.
  - destruct (frontier g s) as [|v new] eqn:Hfr.
    + intros p m He Hp Hm. destruct (mem_id m s) eqn:Hms; [now apply mem_id_In|].
      assert (Hin : In m (frontier g s)).
      { apply frontier_spec. repeat split; auto; [now apply mem_id_not_In | eauto]. }
      rewrite Hfr in Hin; destruct Hin.
    + apply IH. rewrite <- Hfr.
      assert (Hv : In v (frontier g s)) by (rewrite Hfr; now left).
      apply frontier_spec in Hv as (Hvn & Hvs & _).
      enough (length (filter (fun n => negb (mem_id n (s ++ frontier g s))) (nodes g))
              < length (filter (fun n => negb (mem_id n s)) (nodes g)))%nat by lia.
      apply filter_length_lt.
      * intros x Hx. apply negb_true_iff, mem_id_not_In in Hx.
        apply negb_true_iff, mem_id_not_In. intros Hs; apply Hx, in_or_app; now left.
      * exists v; repeat split; [exact Hvn | now apply negb_true_iff, mem_id_not_In |].
        apply negb_false_iff, mem_id_In, in_or_app. right. rewrite Hfr; now left.
Qed.

Lemma descendants_closed g n : closed g (descendants g n).
Proof.
  apply reach_closed, filter_length_le.
Qed.

Lemma descendants_self g n : In n (descendants g n).
Proof. apply reach_incl; now left. Qed.

Lemma descendants_path g x d :
  wf_graph g -> path g x d -> In d (descendants g x).
Proof.
  intros Hwf Hp; induction Hp as [|w d _ IH He]; [apply descendants_self|].
  apply (descendants_closed g x w d He IH). now destruct (Hwf w d He).
Qed.

(** ** Worker completions *)

Lemma pool_le_refl p : pool_le p p.
Proof. intros h H; exact H. Qed.

Lemma pool_le_trans p1 p2 p3 : pool_le p1 p2 -> pool_le p2 p3 -> pool_le p1 p3.
Proof. intros H1 H2 h H; auto. Qed.

Lemma store_sim_refl st : store_sim st st.
Proof. split; [reflexivity|]. intros r x H; exists x; split; [exact H | reflexivity]. Qed.

Lemma store_sim_trans s1 s2 s3 : store_sim s1 s2 -> store_sim s2 s3 -> store_sim s1 s3.
Proof.
  intros [L1 H1] [L2 H2]. split; [congruence|].
  intros r x3 H3. destruct (H2 r x3 H3) as (x2 & Hx2 & Ha).
  destruct (H1 r x2 Hx2) as (x1 & Hx1 & Hb). exists x1; split; [exact Hx1|].
  unfold same_attrs in *; congruence.
Qed.

Lemma nth_error_pool_finish pool : forall h o h',
  nth_error (pool_finish pool h o) h' =
  if Nat.eqb h h'
  then option_map (fun f => mkFuture (fut_node f) (Finished o)) (nth_error pool h')
  else nth_error pool h'.
Proof.
  induction pool as [|f pool IH]; intros h o h'; simpl.
  - destruct h'; simpl; destruct (Nat.eqb h _); reflexivity.
  - destruct h as [|h]; destruct h' as [|h']; simpl; try reflexivity. apply IH.
Qed.

Lemma deref_store_update st : forall r f r',
  deref (store_update st r f) r' =
  if Nat.eqb r r' then option_map f (deref st r') else deref st r'.
Proof.
  unfold deref. induction st as [|x st IH]; intros r f r'; simpl.
  - destruct r'; simpl; destruct (Nat.eqb r _); reflexivity.
  - destruct r as [|r]; destruct r' as [|r']; simpl; try reflexivity. apply IH.
Qed.

Lemma store_update_length st : forall r f, length (store_update st r f) = length st.
Proof.
  induction st as [|x st IH]; intros r f; simpl; [reflexivity|].
  destruct r; simpl; [reflexivity | now rewrite IH].
Qed.

Lemma store_sim_deref st st' r x :
  store_sim st st' -> deref st r = Some x -> exists x', deref st' r = Some x'.
Proof.
  intros [Hl _] Hx. unfold deref in *.
  destruct (nth_error st' r) as [x'|] eqn:Hx'; [eauto|].
  apply nth_error_None in Hx'. rewrite Hl in Hx'.
  apply nth_error_None in Hx'. congruence.
Qed.

Lemma complete_evolves pool st c pool' st' :
  complete (pool, st) c = (pool', st') -> pool_le pool pool' /\ store_sim st st'.
Proof.
  destruct c as [h o]; simpl.
  destruct (nth_error pool h) as [f|] eqn:Hf;
    [|intros H; inversion H; subst; split; [apply pool_le_refl | apply store_sim_refl]].
  destruct (fut_state f) eqn:Hs;
    [|intros H; inversion H; subst; split; [apply pool_le_refl | apply store_sim_refl]].
  intros H; inversion H; subst; clear H. split.
  - intros h' Hd. unfold fut_done in *. rewrite nth_error_pool_finish.
    destruct (Nat.eqb h h') eqn:Heq; [|exact Hd].
    destruct (nth_error pool h'); [reflexivity | discriminate].
  - destruct o as [v|e]; [|apply store_sim_refl].
    split; [apply store_update_length|].
    intros r x' Hx'. rewrite deref_store_update in Hx'.
    destruct (Nat.eqb (fut_node f) r); [|exists x'; split; [exact Hx' | reflexivity]].
    destruct (deref st r) as [x|]; [|discriminate]. simpl in Hx'.
    inversion Hx'; subst. exists x; split; [reflexivity|]. destruct x; reflexivity.
Qed.

Lemma apply_tick_evolves t : forall pool st pool' st',
  apply_tick t (pool, st) = (pool', st') -> pool_le pool pool' /\ store_sim st st'.
Proof.
  unfold apply_tick. induction t as [|c t IH]; intros pool st pool' st'.
  - intros H; inversion H; subst; split; [apply pool_le_refl | apply store_sim_refl].
  - change (fold_left complete (c :: t) (pool, st))
      with (fold_left complete t (complete (pool, st) c)).
    destruct (complete (pool, st) c) as [p1 s1] eqn:Hc. intros H.
    destruct (complete_evolves _ _ _ Hc) as [Hp Hs].
    destruct (IH _ _ _ _ H) as [Hp' Hs'].
    split; [eapply pool_le_trans | eapply store_sim_trans]; eassumption.
Qed.

Lemma observe_evolves e s :
  pool_le (pool s) (pool (observe e s)) /\ store_sim (store s) (store (observe e s)).
Proof.
  destruct (observe_fields e s) as (_ & _ & _ & _ & _ & _ & H).
  symmetry in H. exact (apply_tick_evolves _ _ _ H).
Qed.

Lemma wait_evolves pool st fs rw nt during done_ not_done pool' st' :
  wait pool st fs rw nt during = Ok (done_, not_done, pool', st') ->
  pool_le pool pool' /\ store_sim st st'.
Proof.
  unfold wait.
  match goal with |- context [if ?c then _ else _] => destruct c end.
  - intros H; inversion H; subst; split; [apply pool_le_refl | apply store_sim_refl].
  - destruct (apply_tick during (pool, st)) as [p1 s1] eqn:Ht.
    apply apply_tick_evolves in Ht.
    match goal with |- context [if ?c then _ else _] => destruct c end.
    + intros H; inversion H; subst; exact Ht.
    + destruct nt; [|discriminate]. intros H; inversion H; subst; exact Ht.
Qed.

Lemma ids_consistent_sim xns_dict st st' :
  store_sim st st' -> ids_consistent xns_dict st -> ids_consistent xns_dict st'.
Proof.
  intros [_ Hs] Hc k r x' Hk Hx'. destruct (Hs r x' Hx') as (x & Hx & Ha).
  rewrite <- (Hc k r x Hk Hx). unfold same_attrs in Ha.
  change (id x') with (id (set_result NoVal x')). rewrite <- Ha. reflexivity.
Qed.

Lemma pool_le_app p l : pool_le p (p ++ l).
Proof.
  intros h H. unfold fut_done in *.
  destruct (nth_error p h) as [f|] eqn:Hf; [|discriminate].
  rewrite nth_error_app1; [rewrite Hf; exact H|].
  apply nth_error_Some; congruence.
Qed.

(** ** Preservation of the graph invariant *)

Lemma dict_set_fresh (V : Type) (d : Dict V) k (v : V) :
  ~ In k (dict_keys d) -> dict_set d k v = d ++ [(k, v)].
Proof.
  induction d as [|[k' v'] d IH]; simpl; [reflexivity|]. intros Hn.
  destruct (String.eqb k k') eqn:Heq.
  - apply String.eqb_eq in Heq; subst. destruct Hn; now left.
  - rewrite IH; [reflexivity|]. intros H; apply Hn; now right.
Qed.

Lemma in_dict_keys (V : Type) (d : Dict V) k v : In (k, v) d -> In k (dict_keys d).
Proof. intros H. unfold dict_keys. change k with (fst (k, v)). now apply in_map. Qed.

Lemma ginv_remove_set g0 futs pool g r :
  closed g r -> GInv g0 futs pool g -> GInv g0 futs pool (remove_nodes g r).
Proof.
  intros Hcl [Hsub Hpreds Hsubm].
  assert (Hwf : wf_graph g) by (eapply subgraph_wf; eassumption).
  split.
  - eapply subgraph_trans; [apply remove_nodes_subgraph, Hwf | exact Hsub].
  - intros m p Hm He. apply remove_nodes_nodes in Hm as [Hm Hmr].
    destruct (Hpreds m p Hm He) as [Hp | Hp]; [|now right].
    destruct (in_dec string_dec p r) as [Hpr | Hpr].
    + destruct Hmr. apply (Hcl p m); auto. apply Hsub; auto.
    + left; apply remove_nodes_nodes; auto.
  - intros k h Hk p He. destruct (Hsubm k h Hk p He) as [Hn Hf]. split; [|exact Hf].
    intros Hp; apply remove_nodes_nodes in Hp; tauto.
Qed.

Lemma ginv_remove_recursively g0 futs pool g x :
  GInv g0 futs pool g -> GInv g0 futs pool (remove_recursively g x).
Proof. apply ginv_remove_set, descendants_closed. Qed.

Lemma ginv_fold_remove_recursively g0 futs pool xs : forall g,
  GInv g0 futs pool g -> GInv g0 futs pool (fold_left remove_recursively xs g).
Proof.
  induction xs as [|x xs IH]; intros g H; simpl; [exact H|].
  apply IH, ginv_remove_recursively, H.
Qed.

Lemma ginv_remove_node g0 futs pool g k :
  finished_key futs pool k -> GInv g0 futs pool g -> GInv g0 futs pool (remove_node g k).
Proof.
  intros Hfin [Hsub Hpreds Hsubm].
  assert (Hwf : wf_graph g) by (eapply subgraph_wf; eassumption).
  split.
  - eapply subgraph_trans; [apply remove_nodes_subgraph, Hwf | exact Hsub].
  - intros m p Hm He. apply remove_nodes_nodes in Hm as [Hm Hmr].
    destruct (Hpreds m p Hm He) as [Hp | Hp]; [|now right].
    destruct (string_dec p k) as [-> | Hpk]; [now right|].
    left; apply remove_nodes_nodes; split; [exact Hp|]. intros [Heq | []]; congruence.
  - intros i h Hi p He. destruct (Hsubm i h Hi p He) as [Hn Hf]. split; [|exact Hf].
    intros Hp; apply remove_nodes_nodes in Hp; tauto.
Qed.

Lemma ginv_pool_le g0 futs pool pool' g :
  pool_le pool pool' -> GInv g0 futs pool g -> GInv g0 futs pool' g.
Proof.
  intros Hle [Hsub Hpreds Hsubm].
  assert (Hfin : forall p, finished_key futs pool p -> finished_key futs pool' p).
  { intros p (h & Hin & Hd); exists h; auto. }
  split; [exact Hsub| |].
  - intros m p Hm He. destruct (Hpreds m p Hm He); auto.
  - intros k h Hk p He. destruct (Hsubm k h Hk p He); auto.
Qed.

Lemma ginv_root_preds g0 futs pool g n p :
  GInv g0 futs pool g -> In n (root_nodes g) -> In (p, n) (edges g0) ->
  ~ In p (nodes g) /\ finished_key futs pool p.
Proof.
  intros [Hsub Hpreds _] Hroot He. apply root_nodes_spec in Hroot as [Hn Hnp].
  assert (Hnot : ~ In p (nodes g)).
  { intros Hp. apply (Hnp p). apply Hsub. auto. }
  split; [exact Hnot|]. destruct (Hpreds n p Hn He); tauto.
Qed.

Lemma ginv_submit g0 futs pool g n h :
  In n (root_nodes g) -> ~ In n (dict_keys futs) ->
  GInv g0 futs pool g -> GInv g0 (dict_set futs n h) pool g.
Proof.
  intros Hroot Hfresh Hinv. rewrite (@dict_set_fresh _ futs n h Hfresh).
  assert (Hfin : forall p, finished_key futs pool p ->
                           finished_key (futs ++ [(n, h)]) pool p).
  { intros p (h' & Hin & Hd); exists h'; split; [apply in_or_app; now left | exact Hd]. }
  pose proof (fun p => @ginv_root_preds g0 futs pool g n p Hinv Hroot) as Hrp.
  destruct Hinv as [Hsub Hpreds Hsubm]. split; [exact Hsub| |].
  - intros m p Hm He. destruct (Hpreds m p Hm He); auto.
  - intros k h' Hk p He. apply in_app_or in Hk as [Hk | [Hk | []]].
    + destruct (Hsubm k h' Hk p He); auto.
    + inversion Hk; subst. destruct (Hrp p He); auto.
Qed.

Lemma handle_exception_ginv behavior g0 futs pool g fut id_ g' :
  handle_exception behavior g pool fut id_ = Ok g' ->
  GInv g0 futs pool g -> GInv g0 futs pool g'.
Proof.
  unfold handle_exception. intros H Hinv.
  destruct behavior; revert H; step_cases; intros H; inversion H; subst;
    auto using ginv_fold_remove_recursively.
Qed.

Lemma reap_ginv behavior g0 futs pool items : forall g g',
  incl items futs ->
  reap behavior pool items g = Ok g' ->
  GInv g0 futs pool g -> GInv g0 futs pool g'.
Proof.
  induction items as [|[id_ fut] items IH]; intros g g' Hincl; simpl.
  - intros H; inversion H; subst; auto.
  - assert (Hincl' : incl items futs) by (intros x Hx; apply Hincl; now right).
    destruct (fut_done pool fut && graph_contains g id_) eqn:Hc; [|apply IH, Hincl'].
    apply andb_true_iff in Hc as [Hd _].
    destruct (handle_exception behavior g pool fut id_) as [g1| |] eqn:Hh; simpl;
      try discriminate.
    intros H Hinv. apply (IH _ _ Hincl' H).
    apply ginv_remove_node; [exists fut; split; [apply Hincl; now left | exact Hd]|].
    eapply handle_exception_ginv; eassumption.
Qed.

(** ** The steps of the loop *)

Lemma ready_spec s k :
  In k (ready s) <-> In k (root_nodes (graph s)) /\ ~ In k (dict_keys (futures s)).
Proof.
  unfold ready, ids_difference.
  rewrite nodup_In, filter_In, negb_true_iff, mem_id_not_In. tauto.
Qed.

Lemma quiet_intro s s' :
  graph s' = graph s -> futures s' = futures s ->
  pool_le (pool s) (pool s') -> store_sim (store s) (store s') -> quiet s s'.
Proof. intros; unfold quiet; auto. Qed.

Lemma quiet_observe e s : quiet s (observe e s).
Proof.
  destruct (observe_fields e s) as (Hg & Hf & _). destruct (observe_evolves e s).
  apply quiet_intro; assumption.
Qed.

Lemma quiet_trans s1 s2 s3 : quiet s1 s2 -> quiet s2 s3 -> quiet s1 s3.
Proof.
  intros (Hg & Hf & Hp & Hs) (Hg' & Hf' & Hp' & Hs'). apply quiet_intro; try congruence.
  - eapply pool_le_trans; eassumption.
  - eapply store_sim_trans; eassumption.
Qed.

Lemma step_loop_head_effect xns_dict max_concurrency e s pc' s' :
  step_loop_head xns_dict max_concurrency e s = Ok (Continue pc' s') ->
  pc' = AtReap /\ quiet s s'.
Proof.
  unfold step_loop_head. destruct (Nat.eqb _ 0); [discriminate|]. cbv zeta.
  pose proof (quiet_observe e s) as Hq. destruct (_ || _).
  - destruct (get_next_timeout _ _ _ _ _ _); simpl; try discriminate.
    destruct (wait _ _ _ _ _ _) as [[[[d nd] p1] t1]| |] eqn:Hw; simpl; try discriminate.
    destruct (raise_timeout_error_conditionally _ _ _); simpl; try discriminate.
    intros H; inversion H; subst; clear H. split; [reflexivity|].
    apply wait_evolves in Hw as [Hp Hs]. eapply quiet_trans; [exact Hq|].
    apply quiet_intro; simpl; assumption || reflexivity.
  - intros H; inversion H; subst; auto.
Qed.

Lemma step_post_wait_effect xns_dict xn e s pc' s' :
  step_post_wait xns_dict xn e s = Ok (Continue pc' s') ->
  pc' = AtLoopHead /\ quiet s s'.
Proof.
  unfold step_post_wait. cbv zeta. pose proof (quiet_observe e s) as Hq.
  destruct (get_next_timeout _ _ _ _ _ _); simpl; try discriminate.
  destruct (wait _ _ _ _ _ _) as [[[[d nd] p1] t1]| |] eqn:Hw; simpl; try discriminate.
  destruct (raise_timeout_error_conditionally _ _ _); simpl; try discriminate.
  intros H; inversion H; subst; clear H. split; [reflexivity|].
  apply wait_evolves in Hw as [Hp Hs]. eapply quiet_trans; [exact Hq|].
  apply quiet_intro; simpl; assumption || reflexivity.
Qed.

Lemma step_chosen_effect xns_dict xn e s pc' s' :
  step_chosen xns_dict xn e s = Ok (Continue pc' s') ->
  (pc' = AtLoopHead /\ quiet s s') \/
  (pc' = AtLoopHead /\
   _xn_active_in_call (store (observe e s)) (snd xn) xns_dict = Ok false /\
   graph s' = remove_recursively (graph s) (id (snd xn)) /\
   futures s' = futures s /\ pool s' = pool (observe e s) /\
   store s' = store (observe e s)) \/
  (pc' = AtSubmit xn /\ s' = observe e s).
Proof.
  unfold step_chosen. cbv zeta. pose proof (quiet_observe e s) as Hq.
  destruct (observe_fields e s) as (Hg & Hf & _).
  destruct (_ && _).
  - destruct (get_next_timeout _ _ _ _ _ _); simpl; try discriminate.
    destruct (wait _ _ _ _ _ _) as [[[[d nd] p1] t1]| |] eqn:Hw; simpl; try discriminate.
    destruct (raise_timeout_error_conditionally _ _ _); simpl; try discriminate.
    intros H; inversion H; subst; clear H. left. split; [reflexivity|].
    apply wait_evolves in Hw as [Hp Hs]. eapply quiet_trans; [exact Hq|].
    apply quiet_intro; simpl; assumption || reflexivity.
  - destruct (_xn_active_in_call _ _ _) as [[|]| |]; simpl; try discriminate;
      intros H; inversion H; subst; clear H.
    + right; right; auto.
    + right; left; simpl. rewrite Hg, Hf. auto 10.
Qed.

Lemma step_submit_effect xn e s pc' s' :
  step_submit xn e s = Ok (Continue pc' s') ->
  (pc' = AtLoopHead \/ pc' = AtPostWait xn) /\
  graph s' = graph s /\
  futures s' = dict_set (futures s) (id (snd xn)) (length (pool s)) /\
  pool s' = pool s ++ [mkFuture (fst xn) Pending] /\
  store s' = store s.
Proof.
  unfold step_submit. destruct (is_sequential _); intros H; inversion H; subst; simpl; auto 10.
Qed.

Lemma step_reap_effect xns_dict behavior e s pc' s' :
  step_reap xns_dict behavior e s = Ok (Continue pc' s') ->
  reap behavior (pool (observe e s)) (futures s) (graph s) = Ok (graph s') /\
  futures s' = futures s /\ pool s' = pool (observe e s) /\
  store s' = store (observe e s) /\
  (pc' = AtLoopHead \/
   exists xn k, pc' = AtChosen xn /\ In k (set_order e (ready s')) /\
                names_xn xns_dict (store s') k xn).
Proof.
  unfold step_reap. cbv zeta.
  destruct (observe_fields e s) as (Hg & Hf & _). rewrite Hg, Hf.
  destruct (reap _ _ _ _) as [g'| |]; simpl; try discriminate.
  destruct (Nat.eqb _ 0).
  - intros H; inversion H; subst; simpl; auto 10.
  - destruct (lookup_xns _ _ _) as [xs| |] eqn:Hxs; simpl; try discriminate.
    destruct (choose_xn xs) as [xn| |] eqn:Hc; simpl; try discriminate.
    intros H; inversion H; subst; clear H; simpl. repeat split; try reflexivity.
    right. destruct (choose_xn_spec _ Hc) as (Hin & _).
    destruct (lookup_xns_spec _ _ _ Hxs) as [Hx1 _].
    destruct (Hx1 xn Hin) as (k & Hk & Hn). exists xn, k. auto.
Qed.

(** ** The invariant holds along every run *)

Lemma inv_quiet xns_dict g0 pc s pc' s' :
  Inv xns_dict g0 pc s -> quiet s s' -> pending_choice pc' s' -> Inv xns_dict g0 pc' s'.
Proof.
  intros [Hg Hi _] (Hgr & Hfu & Hp & Hs) Hc. split; [| |exact Hc].
  - rewrite Hgr, Hfu. eapply ginv_pool_le; eassumption.
  - eapply ids_consistent_sim; eassumption.
Qed.

Lemma ready_quiet s s' : quiet s s' -> ready s' = ready s.
Proof. intros (Hg & Hf & _). unfold ready. now rewrite Hg, Hf. Qed.

Lemma step_inv xns_dict max_concurrency behavior g0 e pc s pc' s' :
  env_ok e -> Inv xns_dict g0 pc s ->
  step xns_dict max_concurrency behavior e pc s = Ok (Continue pc' s') ->
  Inv xns_dict g0 pc' s'.
Proof.
  intros Henv Hinv Hstep. destruct pc as [| |xn|xn|xn]; simpl in Hstep.
  - apply step_loop_head_effect in Hstep as [-> Hq].
    eapply inv_quiet; [exact Hinv | exact Hq | exact I].
  - apply step_reap_effect in Hstep as (Hreap & Hf & Hp & Hs & Hpc).
    destruct (quiet_observe e s) as (Hg1 & Hf1 & Hp1 & Hs1).
    destruct Hinv as [Hg Hi _].
    assert (Hi' : ids_consistent xns_dict (store s')).
    { rewrite Hs. eapply ids_consistent_sim; eassumption. }
    split; [|exact Hi'|].
    + rewrite Hf, Hp. eapply reap_ginv; [apply incl_refl | exact Hreap|].
      eapply ginv_pool_le; eassumption.
    + destruct Hpc as [-> | (xn & k & -> & Hk & Hn)]; [exact I|]. simpl.
      apply (proj1 (Henv _ _)) in Hk. destruct Hn as [Hn1 Hn2].
      rewrite (Hi' k _ _ Hn1 Hn2). exact Hk.
  - pose proof (quiet_observe e s) as Hq.
    apply step_chosen_effect in Hstep
      as [[-> Hq'] | [(-> & _ & Hg' & Hf' & Hp' & Hs') | [-> ->]]].
    + eapply inv_quiet; [exact Hinv | exact Hq' | exact I].
    + destruct Hq as (Hg1 & Hf1 & Hp1 & Hs1). destruct Hinv as [Hg Hi _].
      split; [| |exact I].
      * rewrite Hg', Hf', Hp'. apply ginv_remove_recursively.
        eapply ginv_pool_le; eassumption.
      * rewrite Hs'. eapply ids_consistent_sim; eassumption.
    + eapply inv_quiet; [exact Hinv | exact Hq|]. simpl.
      rewrite (ready_quiet Hq). exact (inv_choice Hinv).
  - apply step_submit_effect in Hstep as (Hpc & Hg' & Hf' & Hp' & Hs').
    destruct Hinv as [Hg Hi Hc]. simpl in Hc. apply ready_spec in Hc as [Hroot Hfresh].
    split.
    + rewrite Hg', Hf', Hp'. eapply ginv_pool_le; [apply pool_le_app|].
      apply ginv_submit; assumption.
    + rewrite Hs'; exact Hi.
    + destruct Hpc as [-> | ->]; exact I.
  - apply step_post_wait_effect in Hstep as [-> Hq].
    eapply inv_quiet; [exact Hinv | exact Hq | exact I].
Qed.

Lemma reaches_inv xns_dict max_concurrency behavior g0 c c' :
  reaches xns_dict max_concurrency behavior c c' ->
  Inv xns_dict g0 (fst c) (snd c) -> Inv xns_dict g0 (fst c') (snd c').
Proof.
  induction 1 as [|c' c'' _ IH (e & Henv & Hstep)]; intros Hinv; [exact Hinv|].
  eapply step_inv; [exact Henv | exact (IH Hinv) | exact Hstep].
Qed.

Lemma inv_initial xns_dict s0 :
  wf_graph (graph s0) -> futures s0 = [] -> ids_consistent xns_dict (store s0) ->
  Inv xns_dict (graph s0) AtLoopHead s0.
Proof.
  intros Hwf Hf Hi. split; [|exact Hi|exact I]. rewrite Hf. split.
  - apply subgraph_refl, Hwf.
  - intros m p _ He. left. now destruct (Hwf p m He).
  - intros k h [].
Qed.

(** ** Runs of [execute] *)

Lemma run_loop_reaches xns_dict max_concurrency behavior envs : forall pc s pc' s',
  Forall env_ok envs ->
  run_loop xns_dict max_concurrency behavior envs pc s = Ok (Continue pc' s') ->
  reaches xns_dict max_concurrency behavior (pc, s) (pc', s').
Proof.
  induction envs as [|e envs IH]; intros pc s pc' s' Hok; simpl.
  - intros H; inversion H; subst; constructor.
  - inversion Hok as [|? ? He Hes]; subst.
    destruct (step xns_dict max_concurrency behavior e pc s) as [[pc1 s1|s1]| |] eqn:Hstep;
      try discriminate.
    intros H. specialize (IH _ _ _ _ Hes H).
    clear H. induction IH as [|c' c'' _ IH' Hst].
    + eapply reaches_step; [constructor|]. exists e; split; [exact He | exact Hstep].
    + eapply reaches_step; [exact IH' | exact Hst].
Qed.

Lemma fold_remove_node_subgraph l : forall g,
  wf_graph g -> subgraph (fold_left remove_node l g) g.
Proof.
  induction l as [|x l IH]; intros g Hwf; simpl; [now apply subgraph_refl|].
  eapply subgraph_trans; [apply IH, remove_nodes_wf, Hwf|].
  apply remove_nodes_subgraph, Hwf.
Qed.

Lemma execute_init_effect st node_dict max_concurrency g m xns_dict s0 :
  execute_init st node_dict max_concurrency g m = Ok (xns_dict, s0) ->
  exists st' pre,
    init_xns_dict st node_dict m = Ok (st', xns_dict) /\
    precomputed_ids st' xns_dict (nodes g) = Ok pre /\
    graph s0 = fold_left remove_node pre g /\
    futures s0 = [] /\ pool s0 = [] /\ running s0 = [] /\ store s0 = st' /\
    runnable_xns_ids s0 = root_nodes (graph s0) /\ 0 < max_concurrency.
Proof.
  unfold execute_init.
  destruct (init_xns_dict st node_dict m) as [[st' d]| |] eqn:Hi; simpl; try discriminate.
  destruct (precomputed_ids st' d (nodes g)) as [pre| |] eqn:Hpre; simpl; try discriminate.
  destruct (max_concurrency <=? 0) eqn:Hmc; [discriminate|].
  intros H; inversion H; subst; clear H. exists st', pre; simpl.
  apply Z.leb_gt in Hmc. repeat split; auto.
Qed.

(** The futures table changes only at the submit statement. *)
Lemma futures_change_only_at_submit xns_dict max_concurrency behavior e pc s pc' s' :
  step xns_dict max_concurrency behavior e pc s = Ok (Continue pc' s') ->
  futures s' = futures s \/
  exists xn, pc = AtSubmit xn /\
             futures s' = dict_set (futures s) (id (snd xn)) (length (pool s)).
Proof.
  intros Hstep. destruct pc as [| |xn|xn|xn]; simpl in Hstep.
  - apply step_loop_head_effect in Hstep as [_ (_ & Hf & _)]; auto.
  - apply step_reap_effect in Hstep as (_ & Hf & _); auto.
  - apply step_chosen_effect in Hstep
      as [[_ (_ & Hf & _)] | [(_ & _ & _ & Hf & _) | [_ ->]]]; auto.
    left. apply (observe_fields e s).
  - apply step_submit_effect in Hstep as (_ & _ & Hf & _). right; eauto.
  - apply step_post_wait_effect in Hstep as [_ (_ & Hf & _)]; auto.
Qed.

(** ** Topological order *)

(** C1, amended.  In every state that a run of [execute] reaches, each
    dependency of a submitted node that was in the working graph when the
    loop started (that is, not pre-executed) has a finished future and has
    been removed from the working graph; a node at the submit statement is a
    root of the working graph without an entry in the futures table, its
    dependencies are in that condition already, and no other statement adds
    to the futures table. *)
Theorem submit_after_dependencies st node_dict max_concurrency behavior g m
    xns_dict s0 pc s :
  wf_graph g ->
  execute_init st node_dict max_concurrency g m = Ok (xns_dict, s0) ->
  ids_consistent xns_dict (store s0) ->
  reaches xns_dict max_concurrency behavior (AtLoopHead, s0) (pc, s) ->
  (forall n h d, In (n, h) (futures s) ->
     In (d, n) (edges g) -> In d (nodes (graph s0)) ->
     ~ In d (nodes (graph s)) /\ finished_key (futures s) (pool s) d) /\
  (forall xn, pc = AtSubmit xn ->
     In (id (snd xn)) (root_nodes (graph s)) /\
     ~ In (id (snd xn)) (dict_keys (futures s)) /\
     forall d, In (d, id (snd xn)) (edges g) -> In d (nodes (graph s0)) ->
       ~ In d (nodes (graph s)) /\ finished_key (futures s) (pool s) d) /\
  (forall e pc' s',
     step xns_dict max_concurrency behavior e pc s = Ok (Continue pc' s') ->
     futures s' = futures s \/
     exists xn, pc = AtSubmit xn /\
                futures s' = dict_set (futures s) (id (snd xn)) (length (pool s))).
Proof.
  intros Hwf Hinit Hids Hreach.
  destruct (execute_init_effect _ _ _ _ _ Hinit)
    as (st' & pre & _ & _ & Hg0 & Hf0 & _).
  assert (Hsub0 : subgraph (graph s0) g).
  { rewrite Hg0. apply fold_remove_node_subgraph, Hwf. }
  assert (Hinv : Inv xns_dict (graph s0) pc s).
  { apply (reaches_inv (g0 := graph s0) Hreach). simpl.
    apply inv_initial; [eapply subgraph_wf; eassumption | exact Hf0 | exact Hids]. }
  destruct Hinv as [Hg Hi Hc].
  assert (Hedge : forall d n, In (d, n) (edges g) -> In d (nodes (graph s0)) ->
                              In n (nodes (graph s0)) -> In (d, n) (edges (graph s0))).
  { intros d n He Hd Hn. apply Hsub0. auto. }
  assert (Hkeys : forall n h, In (n, h) (futures s) -> In n (nodes (graph s0))).
  { clear Hg Hi Hc. revert Hids. remember (AtLoopHead, s0) as c0 eqn:Hc0.
    remember (pc, s) as c eqn:Hceq. revert pc s Hceq.
    induction Hreach as [|c' c'' Hr IH (e & Henv & Hstep)]; intros pc s Hceq Hids n h Hn.
    - subst. inversion Hceq; subst. rewrite Hf0 in Hn; destruct Hn.
    - subst. destruct c' as [pc1 s1]; simpl in Hstep.
      assert (Hinv1 : Inv xns_dict (graph s0) pc1 s1).
      { apply (reaches_inv (g0 := graph s0) Hr). simpl.
        apply inv_initial; [eapply subgraph_wf; eassumption | exact Hf0 | exact Hids]. }
      destruct (futures_change_only_at_submit _ _ _ _ _ _ Hstep) as [Hf | (xn & -> & Hf)].
      + rewrite Hf in Hn. exact (IH pc1 s1 eq_refl Hids n h Hn).
      + pose proof (inv_choice Hinv1) as Hch. simpl in Hch.
        apply ready_spec in Hch as [Hroot Hfresh].
        rewrite Hf, (@dict_set_fresh _ _ _ _ Hfresh) in Hn.
        apply in_app_or in Hn as [Hn | [Hn | []]];
          [exact (IH _ s1 eq_refl Hids n h Hn)|].
        inversion Hn; subst. apply root_nodes_spec in Hroot as [Hroot _].
        apply (ginv_sub (inv_graph Hinv1)), Hroot. }
  split; [|split].
  - intros n h d Hn He Hd. apply (ginv_subm Hg n h Hn). apply Hedge; eauto.
  - intros xn ->. simpl in Hc. apply ready_spec in Hc as [Hroot Hfresh].
    repeat split; [exact Hroot | exact Hfresh | |];
      assert (Hn0 : In (id (snd xn)) (nodes (graph s0)))
        by (apply root_nodes_spec in Hroot as [Hr _]; apply (ginv_sub Hg), Hr);
      apply (@ginv_root_preds _ _ _ _ _ d Hg Hroot); apply Hedge; auto.
  - intros e pc' s' Hstep. eapply futures_change_only_at_submit; eassumption.
Qed.

(** ** Conditional pruning *)

Lemma in_dict_keys_inv (V : Type) (d : Dict V) k :
  In k (dict_keys d) -> exists v, In (k, v) d.
Proof.
  unfold dict_keys. intros H. apply in_map_iff in H as ([k' v] & Hk & Hin).
  simpl in Hk; subst. eauto.
Qed.

Lemma dict_set_keys (V : Type) (d : Dict V) k (v : V) k' :
  In k' (dict_keys (dict_set d k v)) -> k' = k \/ In k' (dict_keys d).
Proof.
  induction d as [|[k0 v0] d IH]; simpl.
  - intros [<- | []]; now left.
  - destruct (String.eqb k k0) eqn:Heq; simpl.
    + apply String.eqb_eq in Heq; subst. intros [<- | H]; auto.
    + intros [<- | H]; [auto | destruct (IH H); auto].
Qed.

Lemma handle_exception_incl behavior g pool fut id_ g' :
  handle_exception behavior g pool fut id_ = Ok g' -> incl (nodes g') (nodes g).
Proof.
  assert (Hfold : forall xs g1, incl (nodes (fold_left remove_recursively xs g1)) (nodes g1)).
  { induction xs as [|x xs IH]; intros g1; simpl; [apply incl_refl|].
    intros n Hn. apply IH in Hn. now apply remove_nodes_nodes in Hn. }
  unfold handle_exception. destruct behavior; step_cases; intros H; inversion H; subst;
    auto using incl_refl.
Qed.

Lemma reap_incl behavior pool items : forall g g',
  reap behavior pool items g = Ok g' -> incl (nodes g') (nodes g).
Proof.
  induction items as [|[id_ fut] items IH]; intros g g'; simpl.
  - intros H; inversion H; subst; apply incl_refl.
  - destruct (fut_done pool fut && graph_contains g id_); [|apply IH].
    destruct (handle_exception behavior g pool fut id_) as [g1| |] eqn:Hh; simpl;
      try discriminate.
    intros H n Hn. apply (IH _ _ H) in Hn. apply remove_nodes_nodes in Hn as [Hn _].
    eapply handle_exception_incl; eassumption.
Qed.

Lemma step_mono xns_dict max_concurrency behavior g0 e pc s pc' s' :
  Inv xns_dict g0 pc s ->
  step xns_dict max_concurrency behavior e pc s = Ok (Continue pc' s') ->
  incl (nodes (graph s')) (nodes (graph s)) /\
  forall k, In k (dict_keys (futures s')) ->
            In k (dict_keys (futures s)) \/ In k (nodes (graph s)).
Proof.
  intros Hinv Hstep. destruct pc as [| |xn|xn|xn]; simpl in Hstep.
  - apply step_loop_head_effect in Hstep as [_ (Hg & Hf & _)].
    rewrite Hg, Hf; split; [apply incl_refl | auto].
  - apply step_reap_effect in Hstep as (Hreap & Hf & _).
    rewrite Hf; split; [eapply reap_incl; eassumption | auto].
  - apply step_chosen_effect in Hstep
      as [[_ (Hg & Hf & _)] | [(_ & _ & Hg & Hf & _) | [_ ->]]].
    + rewrite Hg, Hf; split; [apply incl_refl | auto].
    + rewrite Hg, Hf; split; [|auto]. intros n Hn. now apply remove_nodes_nodes in Hn.
    + destruct (observe_fields e s) as (Hg & Hf & _).
      rewrite Hg, Hf; split; [apply incl_refl | auto].
  - apply step_submit_effect in Hstep as (_ & Hg & Hf & _).
    rewrite Hg, Hf; split; [apply incl_refl|]. intros k Hk.
    apply dict_set_keys in Hk as [-> | Hk]; [right | now left].
    pose proof (inv_choice Hinv) as Hc. simpl in Hc.
    apply ready_spec in Hc as [Hroot _]. now apply root_nodes_spec in Hroot.
  - apply step_post_wait_effect in Hstep as [_ (Hg & Hf & _)].
    rewrite Hg, Hf; split; [apply incl_refl | auto].
Qed.

Lemma reaches_mono xns_dict max_concurrency behavior g0 c c' :
  reaches xns_dict max_concurrency behavior c c' ->
  Inv xns_dict g0 (fst c) (snd c) ->
  incl (nodes (graph (snd c'))) (nodes (graph (snd c))) /\
  forall k, In k (dict_keys (futures (snd c'))) ->
            In k (dict_keys (futures (snd c))) \/ In k (nodes (graph (snd c))).
Proof.
  induction 1 as [|c' c'' Hr IH (e & Henv & Hstep)]; intros Hinv.
  - split; [apply incl_refl | auto].
  - destruct (IH Hinv) as [Hincl Hkeys].
    pose proof (reaches_inv (g0 := g0) Hr Hinv) as Hinv'.
    destruct (@step_mono _ _ _ _ _ _ _ _ _ Hinv' Hstep) as [Hincl' Hkeys']. split.
    + intros n Hn; auto.
    + intros k Hk. destruct (Hkeys' k Hk) as [H | H]; auto.
Qed.

Lemma _xn_active_in_call_false st xn xns_dict :
  _xn_active_in_call st xn xns_dict = Ok false <->
  active xn = ActiveBool false \/
  exists r x, active xn = ActiveRef r /\ xn_item st xns_dict r = Ok x /\
              py_bool (result x) = false.
Proof.
  unfold _xn_active_in_call. destruct (active xn) as [b | r]; split.
  - intros H; inversion H; subst; now left.
  - intros [H | (r & x & H & _)]; [inversion H; reflexivity | discriminate].
  - destruct (xn_item st xns_dict r) as [x| |] eqn:Hx; simpl; try discriminate.
    intros H; inversion H. right; exists r, x; auto.
  - intros [H | (r' & x & H & Hx & Hb)]; [discriminate|].
    inversion H; subst. rewrite Hx; simpl. now rewrite Hb.
Qed.

(** ** The state cloner *)

Lemma dict_get_app_fresh (V : Type) (d : Dict V) k (v : V) k' :
  ~ In k (dict_keys d) ->
  dict_get (d ++ [(k, v)]) k' = if String.eqb k' k then Some v else dict_get d k'.
Proof.
  induction d as [|[k0 v0] d IH]; simpl; intros Hn; [reflexivity|].
  destruct (String.eqb k' k0) eqn:H0.
  - apply String.eqb_eq in H0; subst k0.
    destruct (String.eqb k' k) eqn:Hk; [|reflexivity].
    apply String.eqb_eq in Hk; subst. destruct Hn; now left.
  - apply IH. intros H; apply Hn; now right.
Qed.

Lemma dict_keys_app (V : Type) (d1 d2 : Dict V) :
  dict_keys (d1 ++ d2) = dict_keys d1 ++ dict_keys d2.
Proof. unfold dict_keys. apply map_app. Qed.

Lemma deref_app_old st ext r x : deref st r = Some x -> deref (st ++ ext) r = Some x.
Proof.
  unfold deref. intros H. rewrite nth_error_app1; [exact H|].
  apply nth_error_Some; congruence.
Qed.

Lemma deref_app_new st x : deref (st ++ [x]) (length st) = Some x.
Proof.
  unfold deref. rewrite nth_error_app2, Nat.sub_diag; [reflexivity | apply Nat.le_refl].
Qed.

Lemma copy_non_setup_xns_loop_cons st k r items acc x :
  deref st r = Some x ->
  copy_non_setup_xns_loop st ((k, r) :: items) acc =
  copy_non_setup_xns_loop (if setup x then st else st ++ [x]) items
    (dict_set acc k (if setup x then r else length st)).
Proof.
  intros H. simpl. rewrite H. unfold alloc. destruct (setup x); reflexivity.
Qed.

Lemma copy_non_setup_xns_loop_spec items : forall st acc,
  valid_dict st items -> NoDup (dict_keys items) ->
  (forall k, In k (dict_keys items) -> ~ In k (dict_keys acc)) ->
  exists st' d',
    copy_non_setup_xns_loop st items acc = Ok (st', d') /\
    (exists ext, st' = st ++ ext) /\
    dict_keys d' = dict_keys acc ++ dict_keys items /\
    (forall k, ~ In k (dict_keys items) -> dict_get d' k = dict_get acc k) /\
    forall k r x, In (k, r) items -> deref st r = Some x ->
      exists r', dict_get d' k = Some r' /\ deref st' r' = Some x /\
                 (setup x = true -> r' = r) /\
                 (setup x = false -> (length st <= r')%nat).
Proof.
  induction items as [|[k r] items IH]; intros st acc Hval Hnd Hdisj.
  - exists st, acc; simpl. split; [reflexivity|]. split; [exists []; now rewrite app_nil_r|].
    split; [now rewrite app_nil_r|]. split; [auto | intros ? ? ? []].
  - simpl in Hnd. inversion Hnd as [|? ? Hk Hnd']; subst.
    destruct (Hval k r (or_introl eq_refl)) as (x & Hx).
    assert (Hfresh : ~ In k (dict_keys acc)) by (apply Hdisj; now left).
    set (st1 := if setup x then st else st ++ [x]).
    set (r1 := if setup x then r else length st).
    rewrite (@copy_non_setup_xns_loop_cons st k r items acc x Hx).
    fold st1 r1. rewrite (@dict_set_fresh _ acc k r1 Hfresh).
    assert (Hext : exists ext, st1 = st ++ ext).
    { unfold st1; destruct (setup x); [exists []; now rewrite app_nil_r | eauto]. }
    destruct Hext as (ext1 & Hext).
    assert (Hr1 : deref st1 r1 = Some x).
    { unfold st1, r1; destruct (setup x); [exact Hx | apply deref_app_new]. }
    destruct (IH st1 (acc ++ [(k, r1)])) as (st' & d' & Hrun & (ext & He) & Hkeys & Hold & Hnew).
    + intros k2 r2 Hin. destruct (Hval k2 r2 (or_intror Hin)) as (x2 & Hx2).
      exists x2. rewrite Hext. now apply deref_app_old.
    + exact Hnd'.
    + intros k2 Hk2 Hin. rewrite dict_keys_app in Hin.
      apply in_app_or in Hin as [Hin | [<- | []]]; [|exact (Hk Hk2)].
      apply (Hdisj k2); [now right | exact Hin].
    + exists st', d'. split; [exact Hrun|]. split.
      { exists (ext1 ++ ext). rewrite He, Hext. now rewrite app_assoc. }
      split. { rewrite Hkeys, dict_keys_app. simpl. now rewrite <- app_assoc. }
      split.
      { intros k2 Hk2. rewrite Hold by (intros H; apply Hk2; now right).
        rewrite (@dict_get_app_fresh _ acc k r1 k2 Hfresh).
        destruct (String.eqb k2 k) eqn:Heq; [|reflexivity].
        apply String.eqb_eq in Heq; subst. destruct Hk2; now left. }
      intros k2 r2 x2 [Hin | Hin] Hx2.
      * inversion Hin; subst k2 r2. assert (x2 = x) by congruence; subst x2.
        exists r1. rewrite (Hold k Hk), (@dict_get_app_fresh _ acc k r1 k Hfresh),
          String.eqb_refl.
        split; [reflexivity|]. split; [rewrite He; now apply deref_app_old|].
        unfold r1. split; intros Hs; rewrite Hs; [reflexivity | apply Nat.le_refl].
      * assert (Hx2' : deref st1 r2 = Some x2) by (rewrite Hext; now apply deref_app_old).
        destruct (Hnew k2 r2 x2 Hin Hx2') as (r' & Hg & Hd & Hs1 & Hs2).
        exists r'. repeat split; auto. intros Hs. specialize (Hs2 Hs).
        rewrite Hext, length_app in Hs2. lia.
Qed.


(** ** Concrete runs *)

Lemma same_order_ok a d t : env_ok (mkEnv a d t Scenarios.same_order).
Proof. intros l x; simpl; unfold Scenarios.same_order; tauto. Qed.

Lemma wf_graph_check g :
  forallb (fun e => mem_id (fst e) (nodes g) && mem_id (snd e) (nodes g)) (edges g) = true ->
  wf_graph g.
Proof.
  intros H p m Hin. apply (proj1 (forallb_forall _ _) H) in Hin. simpl in Hin.
  apply andb_true_iff in Hin as [Hp Hm]. split; now apply mem_id_In.
Qed.

Lemma dict_get_In (V : Type) (d : Dict V) k v : dict_get d k = Some v -> In (k, v) d.
Proof.
  induction d as [|[k0 v0] d IH]; simpl; [discriminate|].
  destruct (String.eqb k k0) eqn:Heq; [|auto].
  apply String.eqb_eq in Heq; subst. intros H; inversion H; now left.
Qed.

Lemma ids_consistent_check xns_dict st :
  forallb (fun kr => match deref st (snd kr) with
                     | Some x => String.eqb (id x) (fst kr)
                     | None => true
                     end) xns_dict = true ->
  ids_consistent xns_dict st.
Proof.
  intros H k r x Hk Hx. apply dict_get_In in Hk.
  apply (proj1 (forallb_forall _ _) H) in Hk. simpl in Hk. rewrite Hx in Hk.
  now apply String.eqb_eq.
Qed.

(** C1 as stated fails on a pre-executed dependency: [n] reaches the submit
    statement although its dependency [d] never had a future. *)
Lemma submit_with_unrun_dependency :
  execute_init Scenarios.input_store Scenarios.input_dict 1 Scenarios.input_graph None
    = Ok Scenarios.input_init /\
  reaches (fst Scenarios.input_init) 1 strict
    (AtLoopHead, snd Scenarios.input_init) Scenarios.input_at_submit /\
  fst Scenarios.input_at_submit = AtSubmit Scenarios.input_xn /\
  In ("d", id (snd Scenarios.input_xn)) (edges Scenarios.input_graph) /\
  (exists x, xn_item (store (snd Scenarios.input_init)) (fst Scenarios.input_init) "d" = Ok x
             /\ executed x = true) /\
  ~ finished_key (futures (snd Scenarios.input_at_submit))
      (pool (snd Scenarios.input_at_submit)) "d".
Proof.
  split; [reflexivity|]. split.
  { apply run_loop_reaches with (envs := Scenarios.input_envs).
    - repeat (apply Forall_cons; [apply same_order_ok|]); apply Forall_nil.
    - reflexivity. }
  split; [reflexivity|]. split; [now left|].
  split; [eexists; split; reflexivity|].
  intros (h & Hin & _). exact Hin.
Qed.

Ltac all_env_ok :=
  repeat (apply Forall_cons; [apply same_order_ok|]); apply Forall_nil.

(** C1 on the chain [a -> b]: when [b] is at the submit statement, [a] has a
    finished future and has left the working graph. *)
Lemma submit_after_dependencies_witness :
  wf_graph Scenarios.chain_graph /\
  reaches (fst Scenarios.chain_init) 1 strict
    (AtLoopHead, snd Scenarios.chain_init) Scenarios.chain_at_submit /\
  fst Scenarios.chain_at_submit = AtSubmit Scenarios.chain_xn /\
  In "b" (root_nodes (graph (snd Scenarios.chain_at_submit))) /\
  ~ In "b" (dict_keys (futures (snd Scenarios.chain_at_submit))) /\
  ~ In "a" (nodes (graph (snd Scenarios.chain_at_submit))) /\
  finished_key (futures (snd Scenarios.chain_at_submit))
    (pool (snd Scenarios.chain_at_submit)) "a".
Proof.
  assert (Hwf : wf_graph Scenarios.chain_graph) by (apply wf_graph_check; reflexivity).
  assert (Hreach : reaches (fst Scenarios.chain_init) 1 strict
            (AtLoopHead, snd Scenarios.chain_init)
            (AtSubmit Scenarios.chain_xn, snd Scenarios.chain_at_submit)).
  { apply run_loop_reaches with (envs := Scenarios.chain_envs);
      [all_env_ok | reflexivity]. }
  destruct (@submit_after_dependencies Scenarios.chain_store Scenarios.chain_dict 1 strict
              Scenarios.chain_graph None (fst Scenarios.chain_init)
              (snd Scenarios.chain_init) (AtSubmit Scenarios.chain_xn)
              (snd Scenarios.chain_at_submit) Hwf eq_refl
              (@ids_consistent_check (fst Scenarios.chain_init)
                 (store (snd Scenarios.chain_init)) eq_refl) Hreach) as (_ & Hsub & _).
  destruct (Hsub Scenarios.chain_xn eq_refl) as (Hroot & Hfresh & Hdeps).
  destruct (Hdeps "a") as [Hgone Hfin]; [now left | now left |].
  split; [exact Hwf|]. split; [exact Hreach|]. split; [reflexivity|].
  split; [exact Hroot|]. split; [exact Hfresh|]. split; [exact Hgone | exact Hfin].
Defined.





(** ** Sequential nodes and the wait of step 5.3 *)

(** C9 on the sequential node [s] submitted after [a] has finished: the wait
    of step 5.3 over [futures.values()] times out with [s] still pending, but
    the finished future of [a] is in its [done_] set, so no timeout error is
    raised and the loop continues; when [s] finishes later, the invocation
    returns normally. *)
Lemma sequential_post_wait_timeout_not_raised :
  fst Scenarios.seq_at_post_wait = AtPostWait Scenarios.seq_xn /\
  is_sequential (snd Scenarios.seq_xn) = true /\
  dict_get (futures (snd Scenarios.seq_at_post_wait)) "s" = Some 1%nat /\
  blocking_wait (fst Scenarios.seq_init) 2 (Scenarios.idle 4)
    (AtPostWait Scenarios.seq_xn) (snd Scenarios.seq_at_post_wait)
  = Some (Ok (Some 5, ([0%nat], [1%nat], pool (snd Scenarios.seq_at_post_wait),
                       store (snd Scenarios.seq_at_post_wait)))) /\
  step (fst Scenarios.seq_init) 2 strict (Scenarios.idle 4)
    (AtPostWait Scenarios.seq_xn) (snd Scenarios.seq_at_post_wait)
  = Ok (Continue AtLoopHead (snd Scenarios.seq_after_post_wait)) /\
  fut_done (pool (snd Scenarios.seq_after_post_wait)) 1%nat = false /\
  exists s_final,
    execute Scenarios.seq_store Scenarios.seq_dict 2 strict Scenarios.seq_graph None
      Scenarios.seq_envs_return
    = Ok (fst Scenarios.seq_init, Return s_final).
Proof.
  repeat (split; [vm_compute; reflexivity|]).
  eexists. vm_compute; reflexivity.
Qed.

(** C2 on the same invocation: after that wait the loop submits [b] while
    the sequential [s] is still running. *)
Lemma sequential_node_overlaps :
  reaches (fst Scenarios.seq_init) 2 strict
    (AtLoopHead, snd Scenarios.seq_init) Scenarios.seq_overlap /\
  (exists x, xn_item (store (snd Scenarios.seq_overlap)) (fst Scenarios.seq_init) "s" = Ok x
             /\ is_sequential x = true) /\
  dict_get (futures (snd Scenarios.seq_overlap)) "s" = Some 1%nat /\
  fut_done (pool (snd Scenarios.seq_overlap)) 1%nat = false /\
  dict_get (futures (snd Scenarios.seq_overlap)) "b" = Some 2%nat /\
  fut_done (pool (snd Scenarios.seq_overlap)) 2%nat = false.
Proof.
  split.
  { apply run_loop_reaches with (envs := Scenarios.seq_envs_overlap);
      [unfold Scenarios.seq_envs_overlap, Scenarios.seq_envs_submitted; simpl app;
       all_env_ok | vm_compute; reflexivity]. }
  split; [eexists; split; vm_compute; reflexivity|].
  repeat (split; [vm_compute; reflexivity|]). vm_compute; reflexivity.
Qed.

(** ** Results in the state table *)

Lemma nodup_keys_unique (V : Type) (d : Dict V) k (v v' : V) :
  NoDup (dict_keys d) -> In (k, v) d -> In (k, v') d -> v = v'.
Proof.
  induction d as [|[k0 v0] d IH]; simpl; [intros _ []|].
  intros Hnd [H1 | H1] [H2 | H2]; inversion Hnd as [|? ? Hk Hnd']; subst.
  - congruence.
  - inversion H1; subst. destruct Hk. eapply in_dict_keys; eassumption.
  - inversion H2; subst. destruct Hk. eapply in_dict_keys; eassumption.
  - auto.
Qed.

Lemma ps_inj xns_dict st0 futs pool st h h' f f' :
  PS xns_dict st0 futs pool st ->
  nth_error pool h = Some f -> nth_error pool h' = Some f' ->
  fut_node f = fut_node f' -> h = h'.
Proof.
  intros Hps Hf Hf' Heq.
  destruct (ps_node Hps h Hf) as (k & Hk & Hd).
  destruct (ps_node Hps h' Hf') as (k' & Hk' & Hd').
  destruct (ps_valid Hps h Hf) as (x & Hx).
  assert (k = k').
  { rewrite <- (ps_ids Hps k Hd Hx). rewrite Heq in Hx. apply (ps_ids Hps k' Hd' Hx). }
  subst k'. symmetry. eapply nodup_keys_unique; [exact (ps_nodup Hps) | exact Hk' | exact Hk].
Qed.

Lemma pool_finish_inv pool h o h' f' :
  nth_error (pool_finish pool h o) h' = Some f' ->
  exists f0, nth_error pool h' = Some f0 /\ fut_node f' = fut_node f0 /\
             (h' <> h -> f' = f0) /\ (h' = h -> fut_state f' = Finished o).
Proof.
  rewrite nth_error_pool_finish. destruct (Nat.eqb h h') eqn:Heq.
  - apply Nat.eqb_eq in Heq; subst h'.
    destruct (nth_error pool h) as [f0|]; [|discriminate]. simpl.
    intros H; inversion H; subst; clear H. exists f0; simpl. repeat split; congruence.
  - apply Nat.eqb_neq in Heq. intros H. exists f'. repeat split; congruence.
Qed.

Lemma ps_complete xns_dict st0 futs pool st c pool' st' :
  PS xns_dict st0 futs pool st ->
  complete (pool, st) c = (pool', st') ->
  PS xns_dict st0 futs pool' st'.
Proof.
  intros Hps Hc. pose proof (complete_evolves _ _ _ Hc) as [_ Hsim].
  destruct c as [h o]; simpl in Hc.
  destruct (nth_error pool h) as [f|] eqn:Hf; [|inversion Hc; subst; exact Hps].
  destruct (fut_state f) eqn:Hs; [|inversion Hc; subst; exact Hps].
  inversion Hc; subst pool' st'; clear Hc.
  assert (Hst : forall r,
            deref (match o with
                   | Returned v => store_update st (fut_node f) (set_result v)
                   | Raised _ => st
                   end) r
            = if Nat.eqb (fut_node f) r
              then match o with
                   | Returned v => option_map (set_result v) (deref st r)
                   | Raised _ => deref st r
                   end
              else deref st r).
  { intros r. destruct o as [v|e]; [apply deref_store_update|].
    destruct (Nat.eqb _ _); reflexivity. }
  split.
  - intros h' f' Hf'. apply pool_finish_inv in Hf' as (f0 & Hf0 & Hn & _).
    rewrite Hn. exact (ps_node Hps h' Hf0).
  - exact (ps_nodup Hps).
  - intros h' f' v Hf' Hv. apply pool_finish_inv in Hf' as (f0 & Hf0 & Hn & Hne & Heq).
    rewrite Hst, Hn. destruct (Nat.eq_dec h' h) as [-> | Hneq].
    + assert (f0 = f) by congruence; subst f0. rewrite Nat.eqb_refl.
      rewrite (Heq eq_refl) in Hv. inversion Hv; subst o.
      destruct (ps_valid Hps h Hf) as (x & Hx). rewrite Hx. simpl.
      exists (set_result v x); split; reflexivity.
    + rewrite (Hne Hneq) in Hv.
      destruct (Nat.eqb (fut_node f) (fut_node f0)) eqn:Hfn.
      * apply Nat.eqb_eq in Hfn. destruct Hneq. symmetry.
        exact (@ps_inj _ _ _ _ _ h h' f f0 Hps Hf Hf0 Hfn).
      * exact (ps_value Hps h' Hf0 Hv).
  - intros r Hr. rewrite Hst.
    destruct (Nat.eqb (fut_node f) r) eqn:Hfn.
    + apply Nat.eqb_eq in Hfn. exfalso.
      assert (Hf' : exists f', nth_error (pool_finish pool h o) h = Some f'
                               /\ fut_node f' = fut_node f).
      { rewrite nth_error_pool_finish, Nat.eqb_refl, Hf. simpl. eauto. }
      destruct Hf' as (f' & Hf' & Hn). apply (Hr h f' Hf'). congruence.
    + apply (ps_untouched Hps). intros h' f' Hf'.
      assert (Hex : exists f2, nth_error (pool_finish pool h o) h' = Some f2
                               /\ fut_node f2 = fut_node f').
      { rewrite nth_error_pool_finish. destruct (Nat.eqb h h'); rewrite Hf'; simpl; eauto. }
      destruct Hex as (f2 & Hf2 & Hn). rewrite <- Hn. exact (Hr h' f2 Hf2).
  - intros h' f' Hf'. apply pool_finish_inv in Hf' as (f0 & Hf0 & Hn & _).
    destruct (ps_valid Hps h' Hf0) as (x & Hx). rewrite Hst, Hn, Hx.
    destruct (Nat.eqb _ _); [destruct o|]; simpl; eauto.
  - eapply ids_consistent_sim; [exact Hsim | exact (ps_ids Hps)].
Qed.

Lemma ps_apply_tick xns_dict st0 futs t : forall pool st pool' st',
  PS xns_dict st0 futs pool st ->
  apply_tick t (pool, st) = (pool', st') ->
  PS xns_dict st0 futs pool' st'.
Proof.
  unfold apply_tick. induction t as [|c t IH]; intros pool st pool' st' Hps.
  - intros H; inversion H; subst; exact Hps.
  - change (fold_left complete (c :: t) (pool, st))
      with (fold_left complete t (complete (pool, st) c)).
    destruct (complete (pool, st) c) as [p1 s1] eqn:Hc. intros H.
    eapply IH; [|exact H]. eapply ps_complete; eassumption.
Qed.

Lemma ps_observe xns_dict st0 e s :
  PS xns_dict st0 (futures s) (pool s) (store s) ->
  PS xns_dict st0 (futures s) (pool (observe e s)) (store (observe e s)).
Proof.
  intros Hps. destruct (observe_fields e s) as (_ & _ & _ & _ & _ & _ & H).
  symmetry in H. eapply ps_apply_tick; eassumption.
Qed.

Lemma ps_wait xns_dict st0 futs pool st fs rw nt during done_ not_done pool' st' :
  PS xns_dict st0 futs pool st ->
  wait pool st fs rw nt during = Ok (done_, not_done, pool', st') ->
  PS xns_dict st0 futs pool' st'.
Proof.
  intros Hps. unfold wait.
  match goal with |- context [if ?c then _ else _] => destruct c end.
  - intros H; inversion H; subst; exact Hps.
  - destruct (apply_tick during (pool, st)) as [p1 s1] eqn:Ht.
    apply (ps_apply_tick _ Hps) in Ht.
    match goal with |- context [if ?c then _ else _] => destruct c end.
    + intros H; inversion H; subst; exact Ht.
    + destruct nt; [|discriminate]. intros H; inversion H; subst; exact Ht.
Qed.

Lemma nth_error_snoc (A : Type) (l : list A) (a : A) h x :
  nth_error (l ++ [a]) h = Some x ->
  nth_error l h = Some x \/ (h = length l /\ x = a).
Proof.
  intros H. destruct (Nat.lt_ge_cases h (length l)) as [Hlt | Hge].
  - left. now rewrite nth_error_app1 in H.
  - right. rewrite nth_error_app2 in H by exact Hge.
    destruct (h - length l)%nat as [|n] eqn:Hd; simpl in H.
    + inversion H; subst. split; [lia | reflexivity].
    + destruct n; discriminate.
Qed.

Lemma ps_submit xns_dict st0 futs pool st n r :
  PS xns_dict st0 futs pool st ->
  ~ In n (dict_keys futs) -> dict_get xns_dict n = Some r ->
  (exists x, deref st r = Some x) ->
  PS xns_dict st0 (dict_set futs n (length pool)) (pool ++ [mkFuture r Pending]) st.
Proof.
  intros Hps Hfresh Hd Hx. rewrite (@dict_set_fresh _ futs n (length pool) Hfresh).
  split.
  - intros h f Hf. apply nth_error_snoc in Hf as [Hf | [-> ->]].
    + destruct (ps_node Hps h Hf) as (k & Hk & Hkd).
      exists k; split; [apply in_or_app; now left | exact Hkd].
    + exists n; split; [apply in_or_app; right; now left | exact Hd].
  - rewrite dict_keys_app. simpl. apply NoDup_app; [eapply ps_nodup; eassumption | | ].
    + repeat constructor. intros [].
    + intros k Hk [<- | []]. exact (Hfresh Hk).
  - intros h f v Hf Hv. apply nth_error_snoc in Hf as [Hf | [-> ->]];
      [exact (ps_value Hps h Hf Hv) | discriminate].
  - intros r0 Hr. apply (ps_untouched Hps). intros h f Hf. apply (Hr h).
    rewrite nth_error_app1; [exact Hf | apply nth_error_Some; congruence].
  - intros h f Hf. apply nth_error_snoc in Hf as [Hf | [-> ->]];
      [exact (ps_valid Hps h Hf) | exact Hx].
  - exact (ps_ids Hps).
Qed.

Lemma step_ps xns_dict max_concurrency behavior g0 st0 e pc s pc' s' :
  env_ok e -> Inv xns_dict g0 pc s ->
  PS xns_dict st0 (futures s) (pool s) (store s) -> chosen_named xns_dict pc s ->
  step xns_dict max_concurrency behavior e pc s = Ok (Continue pc' s') ->
  PS xns_dict st0 (futures s') (pool s') (store s') /\ chosen_named xns_dict pc' s'.
Proof.
  intros Henv Hinv Hps Hnamed Hstep.
  pose proof (@ps_observe xns_dict st0 e s Hps) as Hobs.
  destruct (observe_fields e s) as (Hg & Hf & _).
  destruct pc as [| |xn|xn|xn]; simpl in Hstep.
  - unfold step_loop_head in Hstep. cbv zeta in Hstep.
    destruct (Nat.eqb _ 0); [discriminate|]. destruct (_ || _).
    + destruct (get_next_timeout _ _ _ _ _ _); simpl in Hstep; try discriminate.
      destruct (wait _ _ _ _ _ _) as [[[[d nd] p1] t1]| |] eqn:Hw; simpl in Hstep;
        try discriminate.
      destruct (raise_timeout_error_conditionally _ _ _); simpl in Hstep; try discriminate.
      inversion Hstep; subst; clear Hstep; simpl. split; [|exact I].
      rewrite <- Hf in Hobs. rewrite Hf. rewrite <- Hf. eapply ps_wait; eassumption.
    + inversion Hstep; subst; clear Hstep. split; [|exact I]. rewrite Hf. exact Hobs.
  - apply step_reap_effect in Hstep as (_ & Hf' & Hp' & Hs' & Hpc).
    assert (Hps' : PS xns_dict st0 (futures s') (pool s') (store s')).
    { rewrite Hf', Hp', Hs'. exact Hobs. }
    split; [exact Hps'|].
    destruct Hpc as [-> | (xn & k & -> & Hk & Hn1 & Hn2)]; [exact I|]. simpl.
    rewrite (ps_ids Hps' k Hn1 Hn2). split; [exact Hn1 | eauto].
  - pose proof (quiet_observe e s) as (_ & _ & _ & Hsim).
    simpl in Hnamed. destruct Hnamed as [Hd (x & Hx)].
    unfold step_chosen in Hstep. cbv zeta in Hstep. destruct (_ && _).
    + destruct (get_next_timeout _ _ _ _ _ _); simpl in Hstep; try discriminate.
      destruct (wait _ _ _ _ _ _) as [[[[d nd] p1] t1]| |] eqn:Hw; simpl in Hstep;
        try discriminate.
      destruct (raise_timeout_error_conditionally _ _ _); simpl in Hstep; try discriminate.
      inversion Hstep; subst; clear Hstep; simpl. split; [|exact I].
      rewrite <- Hf in Hobs. eapply ps_wait; eassumption.
    + destruct (_xn_active_in_call _ _ _) as [[|]| |]; simpl in Hstep; try discriminate;
        inversion Hstep; subst; clear Hstep; simpl.
      * split; [rewrite Hf; exact Hobs|]. split; [exact Hd|].
        eapply store_sim_deref; eassumption.
      * split; [rewrite Hf; exact Hobs | exact I].
  - apply step_submit_effect in Hstep as (Hpc & _ & Hf' & Hp' & Hs').
    simpl in Hnamed. destruct Hnamed as [Hd Hx].
    pose proof (inv_choice Hinv) as Hc. simpl in Hc. apply ready_spec in Hc as [_ Hfresh].
    split; [|destruct Hpc as [-> | ->]; exact I].
    rewrite Hf', Hp', Hs'. apply ps_submit; assumption.
  - unfold step_post_wait in Hstep. cbv zeta in Hstep.
    destruct (get_next_timeout _ _ _ _ _ _); simpl in Hstep; try discriminate.
    destruct (wait _ _ _ _ _ _) as [[[[d nd] p1] t1]| |] eqn:Hw; simpl in Hstep;
      try discriminate.
    destruct (raise_timeout_error_conditionally _ _ _); simpl in Hstep; try discriminate.
    inversion Hstep; subst; clear Hstep; simpl. split; [|exact I].
    rewrite <- Hf in Hobs. eapply ps_wait; eassumption.
Qed.

(** ** The [all_children] policy *)








Lemma successors_spec g k m : In m (successors g k) <-> In (k, m) (edges g).
Proof.
  unfold successors. rewrite in_map_iff. split.
  - intros ([p m'] & Hm & Hin). apply filter_In in Hin as [Hin Heq].
    simpl in *. apply String.eqb_eq in Heq. now subst.
  - intros Hin. exists (k, m); split; [reflexivity|].
    apply filter_In; split; [exact Hin | apply String.eqb_refl].
Qed.

(** Under [all_children] the handler returns, and with an exception in the
    future it has removed the successors with [remove_recursively]. *)
Lemma handle_exception_all_children g pool fut id_ f :
  nth_error pool fut = Some f ->
  handle_exception all_children g pool fut id_ =
  match fut_state f with
  | Finished (Returned _) => Ok g
  | Finished (Raised _) => Ok (fold_left remove_recursively (successors g id_) g)
  | Pending => Hang
  end.
Proof.
  intros Hf. unfold handle_exception, fut_result. rewrite Hf.
  destruct (fut_state f) as [|[v|e]]; reflexivity.
Qed.

Lemma reap_all_children_total pool items : forall g,
  exists g', reap all_children pool items g = Ok g'.
Proof.
  induction items as [|[id_ fut] items IH]; intros g; cbn [reap]; [eauto|].
  destruct (fut_done pool fut && graph_contains g id_) eqn:Hc; [|apply IH].
  apply andb_true_iff in Hc as [Hd _]. unfold fut_done in Hd.
  destruct (nth_error pool fut) as [f|] eqn:Hf; [|discriminate].
  rewrite (@handle_exception_all_children g pool fut id_ f Hf).
  destruct (fut_state f) as [|[v|e]]; [discriminate| |]; simpl; apply IH.
Qed.


Lemma reaches_ps xns_dict max_concurrency behavior g0 st0 c c' :
  reaches xns_dict max_concurrency behavior c c' ->
  Inv xns_dict g0 (fst c) (snd c) ->
  PS xns_dict st0 (futures (snd c)) (pool (snd c)) (store (snd c)) ->
  chosen_named xns_dict (fst c) (snd c) ->
  PS xns_dict st0 (futures (snd c')) (pool (snd c')) (store (snd c')) /\
  chosen_named xns_dict (fst c') (snd c').
Proof.
  induction 1 as [|c' c'' Hr IH (e & Henv & Hstep)]; intros Hinv Hps Hn; [auto|].
  destruct (IH Hinv Hps Hn) as [Hps' Hn'].
  pose proof (reaches_inv (g0 := g0) Hr Hinv) as Hinv'.
  eapply step_ps; eassumption.
Qed.

Lemma ps_initial xns_dict s0 :
  futures s0 = [] -> pool s0 = [] -> ids_consistent xns_dict (store s0) ->
  PS xns_dict (store s0) (futures s0) (pool s0) (store s0).
Proof.
  intros Hf Hp Hi. rewrite Hf, Hp. split; auto.
  - intros h f H. destruct h; discriminate.
  - constructor.
  - intros h f v H. destruct h; discriminate.
  - intros h f H. destruct h; discriminate.
Qed.

Lemma has_pred_not_submitted g0 futs pool g w d :
  GInv g0 futs pool g -> In (w, d) (edges g) -> ~ In d (dict_keys futs).
Proof.
  intros Hg He Hk. apply in_dict_keys_inv in Hk as (h & Hk).
  pose proof (ginv_sub Hg) as Hsub.
  assert (He' : In (w, d) (edges g) /\ In w (nodes g) /\ In d (nodes g)).
  { destruct (subgraph_wf Hsub w d He). auto. }
  destruct He' as (_ & Hw & _).
  assert (He0 : In (w, d) (edges g0)) by (apply Hsub; exact He).
  destruct (ginv_subm Hg d h Hk w He0) as [Hn _]. exact (Hn Hw).
Qed.

Lemma path_inv g x d : path g x d -> d = x \/ exists w, In (w, d) (edges g).
Proof. intros [|w d' _ He]; [now left | right; eauto]. Qed.



(** ** The state table covers the working graph *)

Lemma step_store_sim xns_dict max_concurrency behavior e pc s pc' s' :
  step xns_dict max_concurrency behavior e pc s = Ok (Continue pc' s') ->
  store_sim (store s) (store s').
Proof.
  intros Hstep. pose proof (quiet_observe e s) as (_ & _ & _ & Hobs).
  destruct pc as [| |xn|xn|xn]; simpl in Hstep.
  - now apply step_loop_head_effect in Hstep as [_ (_ & _ & _ & H)].
  - apply step_reap_effect in Hstep as (_ & _ & _ & Hs & _). now rewrite Hs.
  - apply step_chosen_effect in Hstep
      as [[_ (_ & _ & _ & H)] | [(_ & _ & _ & _ & _ & Hs) | [_ ->]]];
      [exact H | now rewrite Hs | exact Hobs].
  - apply step_submit_effect in Hstep as (_ & _ & _ & _ & Hs). rewrite Hs.
    apply store_sim_refl.
  - now apply step_post_wait_effect in Hstep as [_ (_ & _ & _ & H)].
Qed.

Lemma reaches_store_sim xns_dict max_concurrency behavior c c' :
  reaches xns_dict max_concurrency behavior c c' ->
  store_sim (store (snd c)) (store (snd c')).
Proof.
  induction 1 as [|c' c'' _ IH (e & _ & Hstep)]; [apply store_sim_refl|].
  eapply store_sim_trans; [exact IH | eapply step_store_sim; exact Hstep].
Qed.

Lemma covers_evolves xns_dict st st' g g' :
  store_sim st st' -> incl (nodes g') (nodes g) ->
  covers xns_dict st g -> covers xns_dict st' g'.
Proof.
  intros Hsim Hincl Hc k Hk. destruct (Hc k (Hincl k Hk)) as (r & x & Hd & Hx).
  destruct (store_sim_deref _ Hsim Hx) as (x' & Hx'). eauto.
Qed.

Lemma precomputed_ids_covers st xns_dict ids : forall pre,
  precomputed_ids st xns_dict ids = Ok pre ->
  forall k, In k ids -> exists r x, dict_get xns_dict k = Some r /\ deref st r = Some x.
Proof.
  induction ids as [|i ids IH]; intros pre; simpl; [intros _ k []|].
  unfold xn_item, dict_item.
  destruct (dict_get xns_dict i) as [r|] eqn:Hr; simpl; [|discriminate].
  destruct (deref st r) as [x|] eqn:Hx; simpl; [|discriminate].
  destruct (precomputed_ids st xns_dict ids) as [rest| |] eqn:Hrest; simpl;
    try discriminate.
  intros _ k [<- | Hk]; [eauto | exact (IH rest eq_refl k Hk)].
Qed.

Lemma execute_init_covers st node_dict max_concurrency g m xns_dict s0 :
  wf_graph g ->
  execute_init st node_dict max_concurrency g m = Ok (xns_dict, s0) ->
  covers xns_dict (store s0) (graph s0).
Proof.
  intros Hwf Hinit.
  destruct (execute_init_effect _ _ _ _ _ Hinit)
    as (st' & pre & _ & Hpre & Hg0 & _ & _ & _ & Hst & _).
  intros k Hk. rewrite Hst. apply (precomputed_ids_covers _ _ _ Hpre).
  rewrite Hg0 in Hk. now apply (fold_remove_node_subgraph pre Hwf) in Hk.
Qed.


Lemma lookup_xns_total st xns_dict ids :
  (forall k, In k ids -> exists r x, dict_get xns_dict k = Some r /\ deref st r = Some x) ->
  exists xs, lookup_xns st xns_dict ids = Ok xs /\ length xs = length ids.
Proof.
  induction ids as [|i ids IH]; intros Hc; simpl; [exists []; auto|].
  destruct (Hc i (or_introl eq_refl)) as (r & x & Hr & Hx).
  unfold dict_item. rewrite Hr. simpl. rewrite Hx.
  destruct IH as (xs & Hxs & Hlen); [intros k Hk; apply Hc; now right|].
  rewrite Hxs. simpl. exists ((r, x) :: xs). simpl. auto.
Qed.

(** Under [all_children], with a state table that covers the graph, the reap
    step always completes. *)
Lemma step_reap_all_children_total xns_dict e s :
  env_ok e -> covers xns_dict (store s) (graph s) ->
  exists pc' s', step_reap xns_dict all_children e s = Ok (Continue pc' s').
Proof.
  intros Henv Hc. unfold step_reap. cbv zeta.
  destruct (observe_fields e s) as (Hg & Hf & _).
  pose proof (quiet_observe e s) as (_ & _ & _ & Hsim).
  destruct (reap_all_children_total (pool (observe e s)) (futures (observe e s))
              (graph (observe e s))) as (g' & Hreap).
  rewrite Hreap. simpl.
  set (ids := set_order e (ids_difference (root_nodes g') (dict_keys (futures (observe e s))))).
  destruct (Nat.eqb (length ids) 0) eqn:Hlen; [eauto|].
  destruct (@lookup_xns_total (store (observe e s)) xns_dict ids) as (xs & Hxs & Hl).
  { intros k Hk. unfold ids in Hk. apply (proj1 (Henv _ _)) in Hk.
    unfold ids_difference in Hk. apply nodup_In, filter_In in Hk as [Hk _].
    apply root_nodes_spec in Hk as [Hk _]. apply reap_incl in Hreap.
    apply Hreap in Hk. rewrite Hg in Hk.
    destruct (Hc k Hk) as (r & x & Hr & Hx).
    destruct (store_sim_deref _ Hsim Hx) as (x' & Hx'). eauto. }
  rewrite Hxs. simpl.
  destruct (@choose_xn_total xs) as (xn & Hxn).
  { intros ->. simpl in Hl. rewrite <- Hl in Hlen. discriminate. }
  rewrite Hxn. simpl. eauto.
Qed.

(** ** Conditional pruning, in the loop *)

(** C8.  When the activation check of a picked node evaluates to false
    (its [active] is the literal [False], or names a node whose [result] in
    the state table is falsy), the step removes the node with
    [remove_recursively] and goes back to the loop head; the node and all its
    transitive dependents in the working graph have no future then and
    never get one: their [run] is never called.  This holds for every
    dependent, whether or not it has another path to it. *)
Theorem inactive_node_never_runs st node_dict max_concurrency behavior g m
    xns_dict s0 xn s e :
  wf_graph g ->
  execute_init st node_dict max_concurrency g m = Ok (xns_dict, s0) ->
  ids_consistent xns_dict (store s0) ->
  reaches xns_dict max_concurrency behavior (AtLoopHead, s0) (AtChosen xn, s) ->
  env_ok e ->
  is_sequential (snd xn)
    && negb (get_num_running_threads (pool (observe e s)) (futures (observe e s)) =? 0)
    = false ->
  _xn_active_in_call (store (observe e s)) (snd xn) xns_dict = Ok false ->
  (active (snd xn) = ActiveBool false \/
   exists r x, active (snd xn) = ActiveRef r /\
               xn_item (store (observe e s)) xns_dict r = Ok x /\
               py_bool (result x) = false) /\
  exists s',
    step xns_dict max_concurrency behavior e (AtChosen xn) s
      = Ok (Continue AtLoopHead s') /\
    graph s' = remove_recursively (graph s) (id (snd xn)) /\
    forall d, path (graph s) (id (snd xn)) d ->
      ~ In d (dict_keys (futures s)) /\
      ~ In d (nodes (graph s')) /\
      forall pc'' s'',
        reaches xns_dict max_concurrency behavior (AtLoopHead, s') (pc'', s'') ->
        ~ In d (dict_keys (futures s'')).
Proof.
  intros Hwf Hinit Hids Hreach Henv Hseq Hact.
  destruct (execute_init_effect _ _ _ _ _ Hinit) as (st' & pre & _ & _ & Hg0 & Hf0 & _).
  assert (Hwf0 : wf_graph (graph s0)).
  { eapply subgraph_wf. rewrite Hg0. apply fold_remove_node_subgraph, Hwf. }
  pose proof (reaches_inv (g0 := graph s0) Hreach (@inv_initial xns_dict s0 Hwf0 Hf0 Hids))
    as Hinv.
  simpl in Hinv.
  destruct (observe_fields e s) as (Hgo & Hfo & _).
  remember (mkSched (remove_recursively (graph (observe e s)) (id (snd xn)))
              (futures (observe e s)) (done (observe e s)) (running (observe e s))
              (futures_launch_time (observe e s)) (runnable_xns_ids (observe e s))
              (pool (observe e s)) (store (observe e s))) as s' eqn:Hs'.
  assert (Hstep : step xns_dict max_concurrency behavior e (AtChosen xn) s
                  = Ok (Continue AtLoopHead s')).
  { rewrite Hs'. simpl. unfold step_chosen. cbv zeta. rewrite Hseq, Hact. reflexivity. }
  assert (Hg' : graph s' = remove_recursively (graph s) (id (snd xn))).
  { rewrite Hs'; simpl. now rewrite Hgo. }
  assert (Hf' : futures s' = futures s) by (rewrite Hs'; simpl; exact Hfo).
  clear Hs'.
  split; [now apply _xn_active_in_call_false|].
  exists s'. split; [exact Hstep|]. split; [exact Hg'|].
  pose proof (inv_graph Hinv) as Hginv. pose proof (inv_choice Hinv) as Hch.
  simpl in Hch. apply ready_spec in Hch as [Hroot Hfresh].
  assert (Hwfs : wf_graph (graph s)) by (eapply subgraph_wf, ginv_sub; eassumption).
  intros d Hpath.
  assert (Hnokey : ~ In d (dict_keys (futures s))).
  { destruct (path_inv Hpath) as [-> | (w & He)]; [exact Hfresh|].
    exact (@has_pred_not_submitted _ _ _ _ _ _ Hginv He). }
  assert (Hgone : ~ In d (nodes (graph s'))).
  { rewrite Hg'. unfold remove_recursively. rewrite remove_nodes_nodes.
    intros [_ Hn]. apply Hn. apply descendants_path; assumption. }
  split; [exact Hnokey|]. split; [exact Hgone|].
  intros pc'' s'' Hr.
  pose proof (@step_inv _ _ _ _ _ _ _ _ _ Henv Hinv Hstep) as Hinv'.
  destruct (reaches_mono (g0 := graph s0) Hr Hinv') as [_ Hkeys]. simpl in Hkeys.
  intros Hk. destruct (Hkeys d Hk) as [H | H]; [rewrite Hf' in H; auto | auto].
Qed.

(** C8 on the conditional gate: [g] returned a falsy value, so the step at
    the chosen [x] prunes it, and neither [x] nor its dependent [y] ever gets
    a future. *)
Lemma inactive_node_never_runs_witness :
  reaches (fst Scenarios.gate_init) 1 strict
    (AtLoopHead, snd Scenarios.gate_init) Scenarios.gate_at_chosen /\
  _xn_active_in_call (store (observe (Scenarios.idle 2) (snd Scenarios.gate_at_chosen)))
    (snd Scenarios.gate_xn) (fst Scenarios.gate_init) = Ok false /\
  path (graph (snd Scenarios.gate_at_chosen)) "x" "y" /\
  step (fst Scenarios.gate_init) 1 strict (Scenarios.idle 2)
    (AtChosen Scenarios.gate_xn) (snd Scenarios.gate_at_chosen)
  = Ok (Continue AtLoopHead (snd Scenarios.gate_pruned)) /\
  ~ In "y" (nodes (graph (snd Scenarios.gate_pruned))) /\
  forall pc'' s'',
    reaches (fst Scenarios.gate_init) 1 strict
      (AtLoopHead, snd Scenarios.gate_pruned) (pc'', s'') ->
    ~ In "y" (dict_keys (futures s'')).
Proof.
  assert (Hwf : wf_graph Scenarios.gate_graph) by (apply wf_graph_check; reflexivity).
  assert (Hreach : reaches (fst Scenarios.gate_init) 1 strict
            (AtLoopHead, snd Scenarios.gate_init)
            (AtChosen Scenarios.gate_xn, snd Scenarios.gate_at_chosen)).
  { apply run_loop_reaches with (envs := Scenarios.gate_envs);
      [all_env_ok | reflexivity]. }
  assert (Hpath : path (graph (snd Scenarios.gate_at_chosen)) "x" "y").
  { apply path_step with (w := "x"); [apply path_refl | now left]. }
  destruct (@inactive_node_never_runs Scenarios.gate_store Scenarios.gate_dict 1 strict
              Scenarios.gate_graph None (fst Scenarios.gate_init)
              (snd Scenarios.gate_init) Scenarios.gate_xn
              (snd Scenarios.gate_at_chosen) (Scenarios.idle 2)
              Hwf eq_refl
              (@ids_consistent_check (fst Scenarios.gate_init)
                 (store (snd Scenarios.gate_init)) eq_refl)
              Hreach (same_order_ok [] [] 2) eq_refl eq_refl)
    as (_ & s' & Hstep & _ & Hdesc).
  assert (Hs' : s' = snd Scenarios.gate_pruned).
  { assert (H : Ok (Continue AtLoopHead s')
                = Ok (Continue AtLoopHead (snd Scenarios.gate_pruned)))
      by (rewrite <- Hstep; reflexivity).
    now inversion H. }
  subst s'.
  destruct (Hdesc "y" Hpath) as (_ & Hgone & Hnever).
  split; [exact Hreach|]. split; [reflexivity|]. split; [exact Hpath|].
  split; [exact Hstep|]. split; [exact Hgone | exact Hnever].
Defined.

(** ** The set of running futures *)

Lemma set_add_In h s x : In x (set_add h s) <-> x = h \/ In x s.
Proof.
  unfold set_add. destruct (mem_handle h s) eqn:Hm.
  - split; [auto|]. intros [-> | H]; [|exact H].
    unfold mem_handle in Hm. apply existsb_exists in Hm as (y & Hy & Heq).
    apply Nat.eqb_eq in Heq. now subst.
  - rewrite in_app_iff. simpl. intuition congruence.
Qed.

Lemma set_union_In b : forall a x, In x (set_union a b) <-> In x a \/ In x b.
Proof.
  unfold set_union. induction b as [|h b IH]; intros a x; simpl; [tauto|].
  rewrite IH, set_add_In. intuition congruence.
Qed.

Lemma to_set_In l x : In x (to_set l) <-> In x l.
Proof. unfold to_set. rewrite set_union_In. simpl. tauto. Qed.

Lemma step_loop_head_waited xns_dict max_concurrency e s pc' s' :
  step_loop_head xns_dict max_concurrency e s = Ok (Continue pc' s') ->
  s' = observe e s \/ waited (running s) FIRST_COMPLETED e s s'.
Proof.
  unfold step_loop_head. destruct (Nat.eqb _ 0); [discriminate|]. cbv zeta.
  destruct (observe_fields e s) as (Hg & Hf & _ & Hr & _).
  destruct (_ || _); [|intros H; inversion H; auto].
  destruct (get_next_timeout _ _ _ _ _ _) as [nt| |]; simpl; try discriminate.
  destruct (wait _ _ _ _ _ _) as [[[[d nd] p1] t1]| |] eqn:Hw; simpl; try discriminate.
  destruct d as [|h0 d]; simpl; [discriminate|].
  intros H; inversion H; subst; clear H. right.
  exists nt, (h0 :: d), nd. simpl. rewrite <- Hr. repeat split; auto. discriminate.
Qed.

Lemma step_post_wait_waited xns_dict xn e s pc' s' :
  step_post_wait xns_dict xn e s = Ok (Continue pc' s') ->
  waited (dict_values (futures s)) ALL_COMPLETED e s s'.
Proof.
  unfold step_post_wait. cbv zeta.
  destruct (observe_fields e s) as (Hg & Hf & _).
  destruct (get_next_timeout _ _ _ _ _ _) as [nt| |]; simpl; try discriminate.
  destruct (wait _ _ _ _ _ _) as [[[[d nd] p1] t1]| |] eqn:Hw; simpl; try discriminate.
  destruct d as [|h0 d]; simpl; [discriminate|].
  intros H; inversion H; subst; clear H.
  exists nt, (h0 :: d), nd. simpl. rewrite <- Hf. repeat split; auto. discriminate.
Qed.

Lemma step_chosen_waited xns_dict xn e s pc' s' :
  step_chosen xns_dict xn e s = Ok (Continue pc' s') ->
  waited (running s) FIRST_COMPLETED e s s' \/
  (running s' = running s /\ futures s' = futures s /\ pool s' = pool (observe e s)).
Proof.
  unfold step_chosen. cbv zeta.
  destruct (observe_fields e s) as (Hg & Hf & _ & Hr & _).
  destruct (_ && _).
  - destruct (get_next_timeout _ _ _ _ _ _) as [nt| |]; simpl; try discriminate.
    destruct (wait _ _ _ _ _ _) as [[[[d nd] p1] t1]| |] eqn:Hw; simpl; try discriminate.
    destruct d as [|h0 d]; simpl; [discriminate|].
    intros H; inversion H; subst; clear H. left.
    exists nt, (h0 :: d), nd. simpl. rewrite <- Hr. repeat split; auto. discriminate.
  - destruct (_xn_active_in_call _ _ _) as [[|]| |]; simpl; try discriminate;
      intros H; inversion H; subst; clear H; right; simpl; auto.
Qed.

Lemma rinv_observe e s : RInv s -> RInv (observe e s).
Proof.
  intros [Hp Ht]. destruct (observe_fields e s) as (_ & Hf & _ & Hr & _).
  destruct (observe_evolves e s) as [Hle _]. split; rewrite ?Hf, ?Hr; [|exact Ht].
  intros k h Hk Hd. apply (Hp k h Hk).
  destruct (fut_done (pool s) h) eqn:Hd0; [|reflexivity].
  apply Hle in Hd0. congruence.
Qed.

Lemma rinv_waited fs rw e s s' :
  RInv s -> fs = running s \/ fs = dict_values (futures s) ->
  waited fs rw e s s' -> RInv s'.
Proof.
  intros Hr Hfs (nt & dn & nd & Hw & _ & Hrun & Hf & _).
  pose proof (rinv_observe e Hr) as [Hp Ht].
  destruct (observe_fields e s) as (_ & Hfo & _ & Hro & _).
  rewrite Hfo in *. rewrite Hro in *.
  destruct (wait_evolves _ _ _ _ _ _ Hw) as [Hle _].
  apply wait_not_done in Hw as [_ Hnd].
  split; rewrite Hrun, Hf, Hnd.
  - intros k h Hk Hd. apply filter_In. split; [|now rewrite Hd].
    apply (proj2 (to_set_In _ _)). destruct Hfs as [-> | ->].
    + apply (Hp k h Hk). destruct (fut_done (pool (observe e s)) h) eqn:Hd0; [|reflexivity].
      apply Hle in Hd0. congruence.
    + unfold dict_values. change h with (snd (k, h)). now apply in_map.
  - intros h Hh. apply filter_In in Hh as [Hh _]. apply (proj1 (to_set_In _ _)) in Hh.
    destruct Hfs as [-> | ->]; [exact (Ht h Hh)|].
    unfold dict_values in Hh. apply in_map_iff in Hh as ([k h'] & Heq & Hin).
    simpl in Heq; subst. eauto.
Qed.

Lemma step_reap_running xns_dict behavior e s pc' s' :
  step_reap xns_dict behavior e s = Ok (Continue pc' s') -> running s' = running s.
Proof.
  unfold step_reap. cbv zeta.
  destruct (observe_fields e s) as (_ & _ & _ & Hr & _).
  destruct (reap _ _ _ _) as [g'| |]; simpl; try discriminate.
  destruct (Nat.eqb _ 0); [intros H; inversion H; subst; exact Hr|].
  destruct (lookup_xns _ _ _) as [xs| |]; simpl; try discriminate.
  destruct (choose_xn xs) as [xn| |]; simpl; try discriminate.
  intros H; inversion H; subst; exact Hr.
Qed.

Lemma step_rinv xns_dict max_concurrency behavior g0 e pc s pc' s' :
  Inv xns_dict g0 pc s -> RInv s ->
  step xns_dict max_concurrency behavior e pc s = Ok (Continue pc' s') ->
  RInv s'.
Proof.
  intros Hinv Hr Hstep. destruct pc as [| |xn|xn|xn]; simpl in Hstep.
  - apply step_loop_head_waited in Hstep as [-> | Hw]; [now apply rinv_observe|].
    eapply rinv_waited; [exact Hr | now left | exact Hw].
  - pose proof (step_reap_running _ _ _ _ Hstep) as Hrun.
    apply step_reap_effect in Hstep as (_ & Hf & Hp & _).
    pose proof (rinv_observe e Hr) as [Hpo Hto].
    destruct (observe_fields e s) as (_ & Hfo & _ & Hro & _).
    split; rewrite Hrun, Hf, ?Hp.
    + rewrite Hfo, Hro in Hpo. exact Hpo.
    + rewrite Hfo, Hro in Hto. exact Hto.
  - apply step_chosen_waited in Hstep as [Hw | (Hrun & Hf & Hp)].
    + eapply rinv_waited; [exact Hr | now left | exact Hw].
    + pose proof (rinv_observe e Hr) as [Hpo Hto].
      destruct (observe_fields e s) as (_ & Hfo & _ & Hro & _).
      rewrite Hfo, Hro in Hpo, Hto. split; rewrite Hrun, Hf, ?Hp; assumption.
  - pose proof (inv_choice Hinv) as Hc. simpl in Hc. apply ready_spec in Hc as [_ Hfresh].
    destruct Hr as [Hp Ht].
    assert (Hrun : running s' = set_add (length (pool s)) (running s)).
    { unfold step_submit in Hstep.
      destruct (is_sequential _); inversion Hstep; subst; reflexivity. }
    apply step_submit_effect in Hstep as (_ & _ & Hf & Hpool & _).
    rewrite (@dict_set_fresh _ (futures s) (id (snd xn)) (length (pool s)) Hfresh) in Hf.
    split; rewrite Hrun, Hf, ?Hpool.
    + intros k h Hk Hd. apply set_add_In. apply in_app_or in Hk as [Hk | [Hk | []]].
      * right. apply (Hp k h Hk). unfold fut_done in *.
        destruct (nth_error (pool s) h) as [f0|] eqn:Hn; [|reflexivity].
        rewrite nth_error_app1 in Hd by (apply nth_error_Some; congruence).
        now rewrite Hn in Hd.
      * inversion Hk; now left.
    + intros h Hh. apply set_add_In in Hh as [-> | Hh].
      * exists (id (snd xn)). apply in_or_app; right; now left.
      * destruct (Ht h Hh) as (k & Hk). exists k. apply in_or_app; now left.
  - apply step_post_wait_waited in Hstep.
    eapply rinv_waited; [exact Hr | now right | exact Hstep].
Qed.

Lemma reaches_rinv xns_dict max_concurrency behavior g0 c c' :
  reaches xns_dict max_concurrency behavior c c' ->
  Inv xns_dict g0 (fst c) (snd c) -> RInv (snd c) -> RInv (snd c').
Proof.
  induction 1 as [|c' c'' Hr IH (e & Henv & Hstep)]; intros Hinv Hri; [exact Hri|].
  pose proof (reaches_inv (g0 := g0) Hr Hinv) as Hinv'.
  eapply step_rinv; [exact Hinv' | exact (IH Hinv Hri) | exact Hstep].
Qed.

Lemma rinv_initial s0 : futures s0 = [] -> running s0 = [] -> RInv s0.
Proof.
  intros Hf Hr. split; rewrite ?Hf, ?Hr; [intros k h [] | intros h []].
Qed.



(** ** Timeouts, in the loop *)



(** ** Runs in a prompt environment *)

Lemma finish_all_ok s : env_ok (finish_all s).
Proof. intros l x; simpl; tauto. Qed.

Lemma pool_finish_length pool : forall h o, length (pool_finish pool h o) = length pool.
Proof.
  induction pool as [|f pool IH]; intros h o; simpl; [reflexivity|].
  destruct h; simpl; [reflexivity | now rewrite IH].
Qed.

Lemma complete_length pool st c pool' st' :
  complete (pool, st) c = (pool', st') -> length pool' = length pool.
Proof.
  destruct c as [h o]; simpl.
  destruct (nth_error pool h) as [f|]; [|intros H; inversion H; reflexivity].
  destruct (fut_state f); intros H; inversion H; subst; [apply pool_finish_length|reflexivity].
Qed.

Lemma complete_done pool st h o pool' st' :
  complete (pool, st) (h, o) = (pool', st') -> (h < length pool)%nat ->
  fut_done pool' h = true.
Proof.
  simpl. intros H Hlt. unfold fut_done.
  destruct (nth_error pool h) as [f|] eqn:Hf;
    [|apply nth_error_None in Hf; lia].
  destruct (fut_state f) eqn:Hs; inversion H; subst; clear H.
  - rewrite nth_error_pool_finish, Nat.eqb_refl, Hf. reflexivity.
  - now rewrite Hf, Hs.
Qed.

Lemma apply_tick_done t : forall pool st pool' st' h o,
  apply_tick t (pool, st) = (pool', st') -> In (h, o) t -> (h < length pool)%nat ->
  fut_done pool' h = true.
Proof.
  unfold apply_tick. induction t as [|c t IH]; intros pool st pool' st' h o Ht Hin Hlt;
    [destruct Hin|].
  change (fold_left complete (c :: t) (pool, st))
    with (fold_left complete t (complete (pool, st) c)) in Ht.
  destruct (complete (pool, st) c) as [p1 s1] eqn:Hc.
  destruct Hin as [-> | Hin].
  - destruct (apply_tick_evolves _ _ _ Ht) as [Hle _].
    apply Hle. eapply complete_done; eassumption.
  - eapply IH; [exact Ht | exact Hin|]. now rewrite (complete_length _ _ _ Hc).
Qed.

Lemma finish_all_done s h :
  (h < length (pool s))%nat -> fut_done (pool (observe (finish_all s) s)) h = true.
Proof.
  intros Hlt. destruct (observe_fields (finish_all s) s) as (_ & _ & _ & _ & _ & _ & H).
  symmetry in H. eapply apply_tick_done; [exact H| |exact Hlt].
  simpl. apply in_map_iff. exists h. split; [reflexivity|]. apply in_seq. lia.
Qed.

Lemma all_done_count pool futs :
  all_done pool futs -> get_num_running_threads pool futs = 0.
Proof.
  intros Hd. unfold get_num_running_threads.
  assert (H : filter (fun future => negb (fut_done pool future)) (dict_values futs) = []).
  { induction futs as [|[k h] futs IH]; [reflexivity|]. simpl.
    rewrite (Hd k h (or_introl eq_refl)). simpl. apply IH.
    intros k' h' Hin. apply (Hd k' h'). now right. }
  now rewrite H.
Qed.

Lemma all_done_next_timeout flt pool st xns_dict futs now :
  all_done pool futs -> get_next_timeout flt pool st xns_dict futs now = Ok None.
Proof.
  intros Hd. unfold get_next_timeout.
  assert (H : forall acc, get_next_timeout_loop flt pool st xns_dict futs acc = Ok acc).
  { induction futs as [|[k h] futs IH]; intros acc; [reflexivity|]. simpl.
    rewrite (Hd k h (or_introl eq_refl)). simpl. apply IH.
    intros k' h' Hin. apply (Hd k' h'). now right. }
  now rewrite H.
Qed.

Lemma acyclic_root g :
  wf_graph g -> acyclic g -> nodes g <> [] -> exists r, In r (root_nodes g).
Proof.
  intros Hwf (rank & Hrank) Hne.
  assert (Hmin : forall l : list Identifier, l <> [] ->
            exists x, In x l /\ forall y, In y l -> (rank x <= rank y)%nat).
  { induction l as [|a l IH]; [congruence|]. intros _.
    destruct l as [|b l].
    - exists a; split; [now left | intros y [<- | []]; lia].
    - destruct IH as (x & Hx & Hle); [discriminate|].
      destruct (Nat.le_gt_cases (rank a) (rank x)).
      + exists a; split; [now left|]. intros y [<- | Hy]; [lia|].
        specialize (Hle y Hy). lia.
      + exists x; split; [now right|]. intros y [<- | Hy]; [lia | auto]. }
  destruct (Hmin (nodes g) Hne) as (x & Hx & Hle).
  exists x. apply root_nodes_spec. split; [exact Hx|].
  intros p Hp. destruct (Hwf p x Hp) as [Hpn _].
  specialize (Hle p Hpn). specialize (Hrank p x Hp). lia.
Qed.

Lemma acyclic_subgraph g' g : subgraph g' g -> acyclic g -> acyclic g'.
Proof.
  intros [_ He] (rank & Hrank). exists rank. intros p m H. apply Hrank. now apply He.
Qed.


Lemma apply_tick_length t : forall pool st pool' st',
  apply_tick t (pool, st) = (pool', st') -> length pool' = length pool.
Proof.
  unfold apply_tick. induction t as [|c t IH]; intros pool st pool' st' Ht.
  - inversion Ht; reflexivity.
  - change (fold_left complete (c :: t) (pool, st))
      with (fold_left complete t (complete (pool, st) c)) in Ht.
    destruct (complete (pool, st) c) as [p1 s1] eqn:Hc.
    rewrite (IH _ _ _ _ Ht). eapply complete_length; exact Hc.
Qed.

Lemma observe_length e s : length (pool (observe e s)) = length (pool s).
Proof.
  destruct (observe_fields e s) as (_ & _ & _ & _ & _ & _ & H).
  symmetry in H. eapply apply_tick_length; exact H.
Qed.

Lemma wait_length pool st fs rw nt during done_ not_done pool' st' :
  wait pool st fs rw nt during = Ok (done_, not_done, pool', st') ->
  length pool' = length pool.
Proof.
  unfold wait. destruct (match rw with FIRST_COMPLETED => _ | ALL_COMPLETED => _ end).
  - intros H; inversion H; reflexivity.
  - destruct (apply_tick during (pool, st)) as [p1 s1] eqn:Ht.
    apply apply_tick_length in Ht.
    destruct (match rw with FIRST_COMPLETED => _ | ALL_COMPLETED => _ end);
      [intros H; inversion H; subst; exact Ht|].
    destruct nt; [intros H; inversion H; subst; exact Ht | discriminate].
Qed.

Lemma remove_nodes_nodup g r : NoDup (nodes g) -> NoDup (nodes (remove_nodes g r)).
Proof. intros H. simpl. now apply NoDup_filter. Qed.

Lemma fold_remove_recursively_nodup xs : forall g,
  NoDup (nodes g) -> NoDup (nodes (fold_left remove_recursively xs g)).
Proof.
  induction xs as [|x xs IH]; intros g H; simpl; [exact H|].
  apply IH. now apply remove_nodes_nodup.
Qed.

Lemma handle_exception_nodup behavior g pool fut id_ g' :
  handle_exception behavior g pool fut id_ = Ok g' -> NoDup (nodes g) -> NoDup (nodes g').
Proof.
  intros H Hnd. revert H.
  unfold handle_exception. destruct behavior; step_cases; intros H; inversion H; subst;
    auto using fold_remove_recursively_nodup.
Qed.

Lemma reap_nodup behavior pool items : forall g g',
  reap behavior pool items g = Ok g' -> NoDup (nodes g) -> NoDup (nodes g').
Proof.
  induction items as [|[id_ fut] items IH]; intros g g'; simpl.
  - intros H; inversion H; subst; auto.
  - destruct (fut_done pool fut && graph_contains g id_); [|apply IH].
    destruct (handle_exception behavior g pool fut id_) as [g1| |] eqn:Hh; simpl;
      try discriminate.
    intros H Hnd. apply (IH _ _ H). apply remove_nodes_nodup.
    eapply handle_exception_nodup; eassumption.
Qed.

Lemma fold_remove_node_nodup l : forall g,
  NoDup (nodes g) -> NoDup (nodes (fold_left remove_node l g)).
Proof.
  induction l as [|x l IH]; intros g H; simpl; [exact H|].
  apply IH. now apply remove_nodes_nodup.
Qed.

(** The reap loop takes every finished future out of the graph. *)
Lemma reap_removes_done behavior pool items : forall g g' k h,
  reap behavior pool items g = Ok g' -> In (k, h) items -> fut_done pool h = true ->
  ~ In k (nodes g').
Proof.
  induction items as [|[id_ fut] items IH]; intros g g' k h; simpl; [intros _ []|].
  intros Hreap [Heq | Hin] Hd.
  - inversion Heq; subst; clear Heq. rewrite Hd in Hreap. simpl in Hreap.
    unfold graph_contains in Hreap. destruct (mem_id k (nodes g)) eqn:Hm.
    + destruct (handle_exception behavior g pool h k) as [g1| |]; simpl in Hreap;
        try discriminate.
      intros Hk. apply (@reap_incl _ _ _ _ _ Hreap) in Hk.
      apply remove_nodes_nodes in Hk as [_ Hk]. apply Hk. now left.
    + intros Hk. apply (@reap_incl _ _ _ _ _ Hreap) in Hk.
      apply mem_id_not_In in Hm. contradiction.
  - destruct (fut_done pool fut && graph_contains g id_); [|eapply IH; eassumption].
    destruct (handle_exception behavior g pool fut id_) as [g1| |]; simpl in Hreap;
      try discriminate.
    eapply IH; eassumption.
Qed.

Lemma actives_valid_sim xns_dict st st' :
  store_sim st st' -> actives_valid xns_dict st -> actives_valid xns_dict st'.
Proof.
  intros Hsim Hav r x' i Hx' Hact.
  destruct (proj2 Hsim r x' Hx') as (x & Hx & Hsame).
  assert (Ha : active x = ActiveRef i).
  { apply (f_equal active) in Hsame. simpl in Hsame. congruence. }
  destruct (Hav r x i Hx Ha) as (r' & x0 & Hr' & Hx0).
  destruct (store_sim_deref _ Hsim Hx0) as (x0' & Hx0'). eauto.
Qed.

(** Only the reap step rewrites the ready list. *)
Lemma step_runnable xns_dict max_concurrency behavior e pc s pc' s' :
  step xns_dict max_concurrency behavior e pc s = Ok (Continue pc' s') ->
  match pc with
  | AtReap =>
      runnable_xns_ids s' = set_order e (ready s') /\
      (pc' = AtLoopHead -> runnable_xns_ids s' = []) /\
      (forall xn, pc' = AtChosen xn -> runnable_xns_ids s' <> [])
  | _ => runnable_xns_ids s' = runnable_xns_ids s
  end.
Proof.
  destruct (observe_fields e s) as (Hg & Hf & _ & _ & _ & Hr & _).
  destruct pc as [| |xn|xn|xn]; simpl.
  - unfold step_loop_head. destruct (Nat.eqb _ 0); [discriminate|]. cbv zeta.
    destruct (_ || _).
    + destruct (get_next_timeout _ _ _ _ _ _); simpl; try discriminate.
      destruct (wait _ _ _ _ _ _) as [[[[d nd] p1] t1]| |]; simpl; try discriminate.
      destruct (raise_timeout_error_conditionally _ _ _); simpl; try discriminate.
      intros H; inversion H; subst; simpl. exact Hr.
    + intros H; inversion H; subst. exact Hr.
  - unfold step_reap. cbv zeta. rewrite Hf.
    destruct (reap _ _ _ _) as [g'| |]; simpl; try discriminate.
    destruct (Nat.eqb _ 0) eqn:Hlen.
    + intros H; inversion H; subst; simpl. split; [reflexivity|]. split.
      * intros _. apply Nat.eqb_eq in Hlen. now apply length_zero_iff_nil.
      * intros xn Hxn; discriminate.
    + destruct (lookup_xns _ _ _) as [xs| |]; simpl; try discriminate.
      destruct (choose_xn xs) as [xn| |]; simpl; try discriminate.
      intros H; inversion H; subst; simpl. split; [reflexivity|]. split.
      * intros Hx; discriminate.
      * intros xn' _ Hnil. unfold ready in Hnil. simpl in Hnil.
        rewrite Hnil in Hlen. discriminate.
  - unfold step_chosen. cbv zeta. destruct (_ && _).
    + destruct (get_next_timeout _ _ _ _ _ _); simpl; try discriminate.
      destruct (wait _ _ _ _ _ _) as [[[[d nd] p1] t1]| |]; simpl; try discriminate.
      destruct (raise_timeout_error_conditionally _ _ _); simpl; try discriminate.
      intros H; inversion H; subst; simpl. exact Hr.
    + destruct (_xn_active_in_call _ _ _) as [[|]| |]; simpl; try discriminate;
        intros H; inversion H; subst; simpl; exact Hr.
  - unfold step_submit. destruct (is_sequential _); intros H; inversion H; subst; reflexivity.
  - unfold step_post_wait. cbv zeta.
    destruct (get_next_timeout _ _ _ _ _ _); simpl; try discriminate.
    destruct (wait _ _ _ _ _ _) as [[[[d nd] p1] t1]| |]; simpl; try discriminate.
    destruct (raise_timeout_error_conditionally _ _ _); simpl; try discriminate.
    intros H; inversion H; subst; simpl. exact Hr.
Qed.

(** A step keeps the number of futures of the pool, except the submission,
    which adds one. *)
Lemma step_pool_length xns_dict max_concurrency behavior e pc s pc' s' :
  step xns_dict max_concurrency behavior e pc s = Ok (Continue pc' s') ->
  (length (pool s) <= length (pool s'))%nat.
Proof.
  pose proof (observe_length e s) as Hl.
  destruct pc as [| |xn|xn|xn]; simpl.
  - unfold step_loop_head. destruct (Nat.eqb _ 0); [discriminate|]. cbv zeta.
    destruct (_ || _).
    + destruct (get_next_timeout _ _ _ _ _ _); simpl; try discriminate.
      destruct (wait _ _ _ _ _ _) as [[[[d nd] p1] t1]| |] eqn:Hw; simpl; try discriminate.
      destruct (raise_timeout_error_conditionally _ _ _); simpl; try discriminate.
      intros H; inversion H; subst; simpl. apply wait_length in Hw. lia.
    + intros H; inversion H; subst. lia.
  - intros H. apply step_reap_effect in H as (_ & _ & Hp & _). rewrite Hp. lia.
  - unfold step_chosen. cbv zeta. destruct (_ && _).
    + destruct (get_next_timeout _ _ _ _ _ _); simpl; try discriminate.
      destruct (wait _ _ _ _ _ _) as [[[[d nd] p1] t1]| |] eqn:Hw; simpl; try discriminate.
      destruct (raise_timeout_error_conditionally _ _ _); simpl; try discriminate.
      intros H; inversion H; subst; simpl. apply wait_length in Hw. lia.
    + destruct (_xn_active_in_call _ _ _) as [[|]| |]; simpl; try discriminate;
        intros H; inversion H; subst; simpl; lia.
  - intros H. apply step_submit_effect in H as (_ & _ & _ & Hp & _). rewrite Hp.
    rewrite length_app. simpl. lia.
  - unfold step_post_wait. cbv zeta.
    destruct (get_next_timeout _ _ _ _ _ _); simpl; try discriminate.
    destruct (wait _ _ _ _ _ _) as [[[[d nd] p1] t1]| |] eqn:Hw; simpl; try discriminate.
    destruct (raise_timeout_error_conditionally _ _ _); simpl; try discriminate.
    intros H; inversion H; subst; simpl. apply wait_length in Hw. lia.
Qed.


Lemma linv_step xns_dict max_concurrency behavior g0 e pc s pc' s' :
  env_ok e -> acyclic g0 -> Inv xns_dict g0 pc s -> LInv xns_dict pc s ->
  step xns_dict max_concurrency behavior e pc s = Ok (Continue pc' s') ->
  LInv xns_dict pc' s'.
Proof.
  intros Henv Hacyc Hinv [Hnd Hh Hact Hpc] Hstep.
  pose proof (@step_inv _ _ _ _ _ _ _ _ _ Henv Hinv Hstep) as Hinv'.
  pose proof (step_store_sim _ _ _ _ _ _ Hstep) as Hsim.
  pose proof (step_pool_length _ _ _ _ _ _ Hstep) as Hlen.
  pose proof (step_runnable _ _ _ _ _ _ Hstep) as Hrun.
  assert (Hact' : actives_valid xns_dict (store s'))
    by (eapply actives_valid_sim; eassumption).
  assert (Hold : futures s' = futures s ->
            forall k h, In (k, h) (futures s') -> (h < length (pool s'))%nat).
  { intros Hf k h Hin. rewrite Hf in Hin. specialize (Hh k h Hin). lia. }
  destruct pc as [| |xn|xn|xn]; simpl in Hstep, Hrun, Hpc.
  - apply step_loop_head_effect in Hstep as [-> (Hg & Hf & _)].
    split; [now rewrite Hg | exact (Hold Hf) | exact Hact' | exact I].
  - destruct Hrun as (Hrun & Hhead & Hchosen).
    pose proof Hstep as Heff.
    apply step_reap_effect in Heff as (Hreap & Hf & Hp & Hst & Hpc').
    split; [eapply reap_nodup; eassumption | exact (Hold Hf) | exact Hact' |].
    destruct Hpc' as [-> | (xn & k & -> & _ & _ & Hx)]; simpl.
    + intros _ Hne.
      pose proof (ginv_sub (inv_graph Hinv')) as Hsub.
      destruct (@acyclic_root (graph s') (subgraph_wf Hsub)
                  (acyclic_subgraph Hsub Hacyc) Hne) as (r & Hroot).
      assert (Hkey : In r (dict_keys (futures s'))).
      { destruct (in_dec string_dec r (dict_keys (futures s'))) as [Hin | Hnin];
          [exact Hin | exfalso].
        assert (Hr : In r (set_order e (ready s')))
          by (apply (proj2 (Henv _ _)), ready_spec; auto).
        rewrite <- Hrun, (Hhead eq_refl) in Hr. destruct Hr. }
      apply in_dict_keys_inv in Hkey as (h & Hin). exists r, h. split; [exact Hin|].
      destruct (fut_done (pool s') h) eqn:Hd; [exfalso | reflexivity].
      rewrite Hf in Hin. rewrite Hp in Hd.
      apply (@reap_removes_done _ _ _ _ _ _ _ Hreap Hin Hd).
      now apply root_nodes_spec in Hroot as [Hroot _].
    + split; [exact (Hchosen xn eq_refl) | exact Hx].
  - destruct Hpc as [Hne _].
    apply step_chosen_effect in Hstep
      as [[-> (Hg & Hf & _)] | [(-> & _ & Hg & Hf & _) | [-> ->]]].
    + split; [now rewrite Hg | exact (Hold Hf) | exact Hact' |].
      simpl. intros Hnil. rewrite Hrun in Hnil. contradiction.
    + split; [rewrite Hg; now apply remove_nodes_nodup | exact (Hold Hf) | exact Hact' |].
      simpl. intros Hnil. rewrite Hrun in Hnil. contradiction.
    + destruct (observe_fields e s) as (Hg & Hf & _).
      split; [now rewrite Hg | exact (Hold Hf) | exact Hact' |].
      simpl. now rewrite Hrun.
  - pose proof (inv_choice Hinv) as Hc. simpl in Hc.
    apply ready_spec in Hc as [_ Hfresh].
    apply step_submit_effect in Hstep as (Hpc' & Hg & Hf & Hp & _).
    rewrite (@dict_set_fresh Handle _ _ (length (pool s)) Hfresh) in Hf.
    split; [now rewrite Hg | | exact Hact' |].
    + intros k h Hin. rewrite Hf in Hin. rewrite Hp, length_app. simpl.
      apply in_app_or in Hin as [Hin | [Heq | []]].
      * specialize (Hh k h Hin). lia.
      * inversion Heq; subst. lia.
    + destruct Hpc' as [-> | ->]; simpl.
      * intros Hnil. rewrite Hrun in Hnil. contradiction.
      * split; [now rewrite Hrun|]. rewrite Hf.
        apply in_dict_keys with (v := length (pool s)), in_or_app. right. now left.
  - destruct Hpc as [Hne _].
    apply step_post_wait_effect in Hstep as [-> (Hg & Hf & _)].
    split; [now rewrite Hg | exact (Hold Hf) | exact Hact' |].
    simpl. intros Hnil. rewrite Hrun in Hnil. contradiction.
Qed.

Lemma linv_reaches xns_dict max_concurrency behavior g0 c c' :
  reaches xns_dict max_concurrency behavior c c' -> acyclic g0 ->
  Inv xns_dict g0 (fst c) (snd c) -> LInv xns_dict (fst c) (snd c) ->
  LInv xns_dict (fst c') (snd c').
Proof.
  induction 1 as [|c' c'' Hr IH (e & Henv & Hstep)]; intros Hacyc Hinv Hl; [exact Hl|].
  eapply linv_step; [exact Henv | exact Hacyc | | apply IH; assumption | exact Hstep].
  eapply reaches_inv; eassumption.
Qed.

Lemma linv_initial xns_dict s0 :
  wf_graph (graph s0) -> acyclic (graph s0) -> NoDup (nodes (graph s0)) ->
  futures s0 = [] -> runnable_xns_ids s0 = root_nodes (graph s0) ->
  actives_valid xns_dict (store s0) -> LInv xns_dict AtLoopHead s0.
Proof.
  intros Hwf Hacyc Hnd Hf Hr Hact. split; [exact Hnd | | exact Hact |].
  - rewrite Hf. intros k h [].
  - simpl. intros Hnil Hne. destruct (acyclic_root Hwf Hacyc Hne) as (r & Hroot).
    rewrite <- Hr, Hnil in Hroot. destruct Hroot.
Qed.


(** *** Waits that do not block *)

Lemma wait_first_immediate pool st fs nt during h :
  In h fs -> fut_done pool h = true ->
  exists d0 dl not_done,
    wait pool st fs FIRST_COMPLETED nt during = Ok (d0 :: dl, not_done, pool, st).
Proof.
  intros Hin Hd. unfold wait.
  assert (Hh : In h (filter (fut_done pool) (to_set fs)))
    by (apply filter_In; split; [now apply to_set_In | exact Hd]).
  destruct (filter (fut_done pool) (to_set fs)) as [|d0 dl] eqn:Hf; [destruct Hh|].
  simpl. eauto.
Qed.

Lemma filter_all (A : Type) (f : A -> bool) (l : list A) :
  (forall x, In x l -> f x = true) -> filter f l = l.
Proof.
  induction l as [|a l IH]; intros H; simpl; [reflexivity|].
  rewrite (H a (or_introl eq_refl)). f_equal. apply IH. intros x Hx. apply H. now right.
Qed.

Lemma wait_all_immediate pool st fs nt during h :
  In h fs -> (forall x, In x fs -> fut_done pool x = true) ->
  exists d0 dl not_done,
    wait pool st fs ALL_COMPLETED nt during = Ok (d0 :: dl, not_done, pool, st).
Proof.
  intros Hin Hall. unfold wait.
  rewrite (@filter_all _ (fut_done pool) (to_set fs))
    by (intros x Hx; apply Hall; now apply to_set_In).
  rewrite Nat.eqb_refl.
  assert (Hh : In h (to_set fs)) by now apply to_set_In.
  destruct (to_set fs) as [|d0 dl]; [destruct Hh|]. eauto.
Qed.

Lemma in_dict_values (V : Type) (d : Dict V) k (v : V) : In (k, v) d -> In v (dict_values d).
Proof. intros H. unfold dict_values. apply in_map_iff. exists (k, v). auto. Qed.

Lemma in_dict_values_inv (V : Type) (d : Dict V) (v : V) :
  In v (dict_values d) -> exists k, In (k, v) d.
Proof.
  unfold dict_values. intros H. apply in_map_iff in H as ([k v'] & Hv & Hin).
  simpl in Hv; subst. eauto.
Qed.

(** *** The steps when every future is done at the observation *)

Lemma finish_all_all_done xns_dict pc s :
  LInv xns_dict pc s -> all_done (pool (observe (finish_all s) s)) (futures s).
Proof.
  intros Hl k h Hin. apply finish_all_done. exact (linv_handles Hl k h Hin).
Qed.

Lemma prompt_loop_head xns_dict max_concurrency e s :
  0 < max_concurrency -> nodes (graph s) <> [] ->
  all_done (pool (observe e s)) (futures s) -> RInv s -> awaited AtLoopHead s ->
  exists s', step_loop_head xns_dict max_concurrency e s = Ok (Continue AtReap s').
Proof.
  intros Hmc Hne Hd Hrinv Haw. unfold step_loop_head.
  destruct (Nat.eqb (graph_len (graph s)) 0) eqn:Hlen.
  { apply Nat.eqb_eq, length_zero_iff_nil in Hlen. contradiction. }
  cbv zeta. destruct (observe_fields e s) as (_ & Hf & _ & Hrun & _ & Hr & _).
  rewrite Hf, Hr, Hrun. rewrite (all_done_count Hd).
  replace (0 =? max_concurrency) with false by (symmetry; apply Z.eqb_neq; lia).
  simpl. destruct (Z.of_nat (length (runnable_xns_ids s)) =? 0) eqn:Hz; [|eauto].
  assert (Hnil : runnable_xns_ids s = []).
  { apply Z.eqb_eq in Hz. apply length_zero_iff_nil. lia. }
  destruct (Haw Hnil Hne) as (k & h & Hin & Hpend).
  pose proof (rinv_pending Hrinv k h Hin Hpend) as Hh.
  rewrite (all_done_next_timeout _ _ _ _ Hd). simpl.
  destruct (@wait_first_immediate (pool (observe e s)) (store (observe e s))
              (running s) None (during_wait e) h Hh (Hd k h Hin))
    as (d0 & dl & nd & Hw).
  rewrite Hw. simpl. eauto.
Qed.

Lemma prompt_chosen xns_dict xn e s :
  all_done (pool (observe e s)) (futures s) ->
  actives_valid xns_dict (store s) -> deref (store s) (fst xn) = Some (snd xn) ->
  exists pc' s', step_chosen xns_dict xn e s = Ok (Continue pc' s') /\
    ((pc' = AtLoopHead /\ graph s' = remove_recursively (graph s) (id (snd xn)) /\
      futures s' = futures s) \/
     (pc' = AtSubmit xn /\ s' = observe e s)).
Proof.
  intros Hd Hact Hx. unfold step_chosen. cbv zeta.
  destruct (observe_fields e s) as (Hg & Hf & _).
  pose proof (quiet_observe e s) as (_ & _ & _ & Hsim).
  rewrite Hf, Hg. rewrite (all_done_count Hd). simpl. rewrite andb_false_r.
  assert (Hac : exists b, _xn_active_in_call (store (observe e s)) (snd xn) xns_dict = Ok b).
  { unfold _xn_active_in_call. destruct (active (snd xn)) as [b|i] eqn:Ha; [eauto|].
    destruct (Hact _ _ _ Hx Ha) as (r' & x0 & Hr' & Hx0).
    destruct (store_sim_deref _ Hsim Hx0) as (x0' & Hx0').
    unfold xn_item, dict_item. rewrite Hr'. simpl. rewrite Hx0'. simpl. eauto. }
  destruct Hac as (b & Hb). rewrite Hb. simpl.
  destruct b; simpl; eexists _, _; (split; [reflexivity|]); [right | left]; simpl; auto.
Qed.

Lemma prompt_post_wait xns_dict xn e s :
  all_done (pool (observe e s)) (futures s) -> In (id (snd xn)) (dict_keys (futures s)) ->
  exists s', step_post_wait xns_dict xn e s = Ok (Continue AtLoopHead s').
Proof.
  intros Hd Hk. unfold step_post_wait. cbv zeta.
  destruct (observe_fields e s) as (_ & Hf & _).
  rewrite Hf. rewrite (all_done_next_timeout _ _ _ _ Hd). simpl.
  apply in_dict_keys_inv in Hk as (h & Hin).
  destruct (@wait_all_immediate (pool (observe e s)) (store (observe e s))
              (dict_values (futures s)) None (during_wait e) h (in_dict_values _ _ _ Hin))
    as (d0 & dl & nd & Hw).
  { intros x Hx. apply in_dict_values_inv in Hx as (k & Hx). exact (Hd k x Hx). }
  rewrite Hw. simpl. eauto.
Qed.

(** *** The work that is left *)

Lemma nodup_incl_lt (l1 l2 : list Identifier) x :
  NoDup l1 -> incl l1 l2 -> In x l2 -> ~ In x l1 -> (length l1 < length l2)%nat.
Proof.
  intros Hnd Hincl Hx Hnx.
  assert (H : (length (x :: l1) <= length l2)%nat).
  { apply NoDup_incl_length; [now constructor|]. intros y [<- | Hy]; auto. }
  simpl in H. lia.
Qed.

Lemma base_le s s' :
  NoDup (nodes (graph s')) -> incl (nodes (graph s')) (nodes (graph s)) ->
  (forall k, In k (dict_keys (futures s)) -> In k (dict_keys (futures s'))) ->
  (length (nodes (graph s')) <= length (nodes (graph s)))%nat /\
  (length (unsubmitted s') <= length (unsubmitted s))%nat.
Proof.
  intros Hnd Hincl Hk. split; [now apply NoDup_incl_length|].
  unfold unsubmitted. apply NoDup_incl_length; [now apply NoDup_filter|].
  intros n Hn. apply filter_In in Hn as [Hn Hm]. apply filter_In. split; [auto|].
  apply negb_true_iff, mem_id_not_In in Hm. apply negb_true_iff, mem_id_not_In. auto.
Qed.


Lemma work_left_same pc pc' s s' :
  graph s' = graph s -> futures s' = futures s -> (pc_rank pc' < pc_rank pc)%nat ->
  (work_left pc' s' < work_left pc s)%nat.
Proof.
  intros Hg Hf Hr. unfold work_left, unsubmitted. rewrite Hg, Hf. lia.
Qed.

(** With every future done at each observation, a step under
    [all_children] returns, or goes on with less work left, or reaches the
    loop head with an empty graph. *)
Lemma prompt_progress xns_dict max_concurrency g0 pc s :
  0 < max_concurrency -> acyclic g0 ->
  Inv xns_dict g0 pc s -> LInv xns_dict pc s -> RInv s ->
  covers xns_dict (store s) (graph s) ->
  step xns_dict max_concurrency all_children (finish_all s) pc s = Ok (Return s) \/
  exists pc' s',
    step xns_dict max_concurrency all_children (finish_all s) pc s
      = Ok (Continue pc' s') /\
    ((work_left pc' s' < work_left pc s)%nat \/
     (pc' = AtLoopHead /\ nodes (graph s') = [])).
Proof.
  intros Hmc Hacyc Hinv Hl Hrinv Hcov.
  pose proof (finish_all_all_done Hl) as Hd.
  pose proof (finish_all_ok s) as Henv.
  destruct pc as [| |xn|xn|xn].
  - destruct (nodes (graph s)) as [|n0 ns] eqn:Hn.
    + left. simpl. unfold step_loop_head, graph_len. now rewrite Hn.
    + right. destruct (@prompt_loop_head xns_dict max_concurrency (finish_all s) s Hmc)
        as (s' & Hstep); [rewrite Hn; discriminate | exact Hd | exact Hrinv
                         | exact (linv_pc Hl) |].
      exists AtReap, s'. split; [exact Hstep|]. left.
      apply step_loop_head_effect in Hstep as [_ (Hg & Hf & _)].
      apply work_left_same; [exact Hg | exact Hf | simpl; lia].
  - right. destruct (@step_reap_all_children_total xns_dict (finish_all s) s Henv Hcov)
      as (pc' & s' & Hstep).
    change (step_reap xns_dict all_children (finish_all s) s)
      with (step xns_dict max_concurrency all_children (finish_all s) AtReap s) in Hstep.
    exists pc', s'. split; [exact Hstep|].
    pose proof (@linv_step _ _ _ _ _ _ _ _ _ Henv Hacyc Hinv Hl Hstep) as Hl'.
    pose proof (step_runnable _ _ _ _ _ _ Hstep) as (_ & Hhead & _).
    pose proof Hstep as Heff. simpl in Heff.
    apply step_reap_effect in Heff as (Hreap & Hf & Hp & _ & Hpc').
    destruct Hpc' as [-> | (xn & k & -> & _)].
    + right. split; [reflexivity|].
      destruct (nodes (graph s')) as [|n0 ns] eqn:Hn; [reflexivity | exfalso].
      destruct (linv_pc Hl' (Hhead eq_refl)) as (k & h & Hin & Hpend);
        [rewrite Hn; discriminate|].
      rewrite Hf in Hin. rewrite Hp, (Hd k h Hin) in Hpend. discriminate.
    + left. destruct (@base_le s s' (@reap_nodup _ _ _ _ _ Hreap (linv_nodup Hl))
                        (@reap_incl _ _ _ _ _ Hreap)) as [H1 H2];
        [rewrite Hf; auto|].
      unfold work_left. simpl. lia.
  - right. destruct (linv_pc Hl) as [_ Hx].
    destruct (@prompt_chosen xns_dict xn (finish_all s) s Hd (linv_actives Hl) Hx)
      as (pc' & s' & Hstep & Hcase).
    exists pc', s'. split; [exact Hstep|]. left. clear Hstep.
    destruct Hcase as [(-> & Hg & Hf) | (-> & ->)].
    + pose proof (inv_choice Hinv) as Hc. simpl in Hc.
      apply ready_spec in Hc as [Hroot _]. apply root_nodes_spec in Hroot as [Hnode _].
      assert (Hnd' : NoDup (nodes (graph s')))
        by (rewrite Hg; apply remove_nodes_nodup, (linv_nodup Hl)).
      assert (Hincl : incl (nodes (graph s')) (nodes (graph s))).
      { rewrite Hg. intros n Hn. now apply remove_nodes_nodes in Hn. }
      destruct (@base_le s s' Hnd' Hincl) as [_ H2]; [rewrite Hf; auto|].
      assert (H1 : (length (nodes (graph s')) < length (nodes (graph s)))%nat).
      { apply nodup_incl_lt with (x := id (snd xn)); auto.
        rewrite Hg. intros Hn. apply remove_nodes_nodes in Hn as [_ Hn].
        apply Hn, descendants_self. }
      unfold work_left. simpl. lia.
    + destruct (observe_fields (finish_all s) s) as (Hg & Hf & _).
      apply work_left_same; [exact Hg | exact Hf | simpl; lia].
  - right. pose proof (inv_choice Hinv) as Hc. simpl in Hc.
    apply ready_spec in Hc as [Hroot Hfresh]. apply root_nodes_spec in Hroot as [Hnode _].
    assert (Hstep : exists pc' s',
              step xns_dict max_concurrency all_children (finish_all s) (AtSubmit xn) s
              = Ok (Continue pc' s')).
    { simpl. unfold step_submit. destruct (is_sequential (snd xn)); eauto. }
    destruct Hstep as (pc' & s' & Hstep). exists pc', s'. split; [exact Hstep|]. left.
    simpl in Hstep. apply step_submit_effect in Hstep as (Hpc' & Hg & Hf & _).
    rewrite (@dict_set_fresh Handle _ _ (length (pool s)) Hfresh) in Hf.
    assert (H2 : (length (unsubmitted s') < length (unsubmitted s))%nat).
    { unfold unsubmitted. rewrite Hg, Hf. apply filter_length_lt.
      - intros x Hx. apply negb_true_iff, mem_id_not_In in Hx.
        apply negb_true_iff, mem_id_not_In. intros Hk. apply Hx.
        rewrite dict_keys_app. apply in_or_app. now left.
      - exists (id (snd xn)). split; [exact Hnode|]. split.
        + now apply negb_true_iff, mem_id_not_In.
        + apply negb_false_iff, mem_id_In. rewrite dict_keys_app.
          apply in_or_app. right. now left. }
    unfold work_left. rewrite Hg.
    assert (pc_rank pc' <= 4)%nat by (destruct Hpc' as [-> | ->]; simpl; lia).
    simpl pc_rank. lia.
  - right. destruct (linv_pc Hl) as [_ Hk].
    destruct (@prompt_post_wait xns_dict xn (finish_all s) s Hd Hk) as (s' & Hstep).
    exists AtLoopHead, s'. split; [exact Hstep|]. left.
    apply step_post_wait_effect in Hstep as [_ (Hg & Hf & _)].
    apply work_left_same; [exact Hg | exact Hf | simpl; lia].
Qed.


(** A decidable test for [actives_valid]. *)
Lemma actives_valid_check xns_dict st :
  forallb (fun x => match active x with
                    | ActiveBool _ => true
                    | ActiveRef i =>
                        match dict_get xns_dict i with
                        | Some r' => match deref st r' with Some _ => true | None => false end
                        | None => false
                        end
                    end) st = true ->
  actives_valid xns_dict st.
Proof.
  intros H r x i Hx Ha. apply nth_error_In in Hx.
  apply (proj1 (forallb_forall _ _) H) in Hx. rewrite Ha in Hx.
  destruct (dict_get xns_dict i) as [r'|]; [|discriminate].
  destruct (deref st r') as [x'|] eqn:Hx'; [|discriminate]. eauto.
Qed.

(** ** The [all_children] policy, in the loop *)




(** * Further properties of the scheduler *)

(** ** Which errors a step can raise *)

Lemma get_next_timeout_loop_raise flt p st xns_dict items : forall acc err,
  get_next_timeout_loop flt p st xns_dict items acc = Raise err ->
  exists key, err = KeyError key.
Proof.
  induction items as [|[i fut] items IH]; intros acc err; simpl; [discriminate|].
  destruct (negb (fut_done p fut)); [|apply IH].
  unfold dict_item, xn_item, dict_item.
  destruct (dict_get flt i); simpl; [|intros H; inversion H; eauto].
  destruct (dict_get xns_dict i); simpl; [|intros H; inversion H; eauto].
  destruct (deref st _) as [x|]; simpl; [|intros H; inversion H; eauto].
  destruct (timeout x); apply IH.
Qed.

Lemma get_next_timeout_raise flt p st xns_dict items now err :
  get_next_timeout flt p st xns_dict items now = Raise err ->
  exists key, err = KeyError key.
Proof.
  unfold get_next_timeout.
  destruct (get_next_timeout_loop flt p st xns_dict items Infinity) as [[z|]| |] eqn:Hl;
    simpl; try discriminate.
  intros H; inversion H; subst. eapply get_next_timeout_loop_raise; eassumption.
Qed.

Lemma wait_no_raise p st fs rw nt d err : wait p st fs rw nt d <> Raise err.
Proof.
  unfold wait.
  repeat match goal with
         | |- context [if ?c then _ else _] => destruct c
         | |- context [let '(_, _) := ?c in _] => destruct c
         | |- context [match ?c with Some _ => _ | None => _ end] => destruct c
         end; discriminate.
Qed.

Lemma lookup_xns_raise st xns_dict ids : forall err,
  lookup_xns st xns_dict ids = Raise err -> exists key, err = KeyError key.
Proof.
  induction ids as [|i ids IH]; intros err; simpl; [discriminate|].
  unfold dict_item. destruct (dict_get xns_dict i); simpl; [|intros H; inversion H; eauto].
  destruct (deref st _); [|intros H; inversion H; eauto].
  destruct (lookup_xns st xns_dict ids); simpl; try discriminate.
  intros H; inversion H; subst. now apply IH.
Qed.

Lemma lookup_xns_length st xns_dict ids : forall xs,
  lookup_xns st xns_dict ids = Ok xs -> length xs = length ids.
Proof.
  induction ids as [|i ids IH]; intros xs; simpl.
  - intros H; inversion H; reflexivity.
  - unfold dict_item. destruct (dict_get xns_dict i); simpl; [|discriminate].
    destruct (deref st _); [|discriminate].
    destruct (lookup_xns st xns_dict ids) as [xs'| |]; simpl; try discriminate.
    intros H; inversion H; subst. simpl. now rewrite (IH xs' eq_refl).
Qed.

Lemma _xn_active_in_call_raise st x xns_dict err :
  _xn_active_in_call st x xns_dict = Raise err -> exists key, err = KeyError key.
Proof.
  unfold _xn_active_in_call, xn_item, dict_item.
  destruct (active x) as [b|r0]; [discriminate|].
  destruct (dict_get xns_dict r0); simpl; [|intros H; inversion H; eauto].
  destruct (deref st _); simpl; [discriminate | intros H; inversion H; eauto].
Qed.

Lemma handle_exception_raise behavior g pool fut id_ err :
  handle_exception behavior g pool fut id_ = Raise err ->
  exists x, fut_result pool fut = Raise (UserNodeError x) /\
    ((behavior = strict /\ err = UserNodeError x) \/
     (exists name, behavior = unknown_strategy name /\
                   err = NotImplementedError behavior x)).
Proof.
  unfold handle_exception, fut_result.
  destruct (nth_error pool fut) as [f|]; [|destruct behavior; discriminate].
  destruct (fut_state f) as [|[v|x]]; [destruct behavior; discriminate| |].
  - destruct behavior; discriminate.
  - destruct behavior as [| | |name]; simpl; try discriminate;
      intros H; inversion H; subst; exists x; split; eauto.
Qed.

Lemma reap_raise behavior pool items : forall g err,
  reap behavior pool items g = Raise err ->
  exists x, (behavior = strict /\ err = UserNodeError x) \/
            (exists name, behavior = unknown_strategy name /\
                          err = NotImplementedError behavior x).
Proof.
  induction items as [|[id_ fut] items IH]; intros g err; simpl; [discriminate|].
  destruct (fut_done pool fut && graph_contains g id_); [|apply IH].
  destruct (handle_exception behavior g pool fut id_) as [g1| |] eqn:Hh; simpl;
    try discriminate; [apply IH|].
  intros H; inversion H; subst.
  apply handle_exception_raise in Hh as (x & _ & Hx). eauto.
Qed.

(** What a failing step can have raised, and where. *)
Lemma step_raise_cases xns_dict max_concurrency behavior e pc s err :
  step xns_dict max_concurrency behavior e pc s = Raise err ->
  (exists key, err = KeyError key) \/
  (pc <> AtReap /\ exists running nt, err = TawaziTimeoutError running nt) \/
  (pc = AtReap /\
   reap behavior (pool (observe e s)) (futures s) (graph s) = Raise err).
Proof.
  intros Hstep. destruct (observe_fields e s) as (Hg & Hf & _).
  destruct pc as [| |xn|xn|xn]; simpl in Hstep.
  - unfold step_loop_head in Hstep. cbv zeta in Hstep.
    destruct (Nat.eqb _ 0); [discriminate|]. destruct (_ || _); [|discriminate].
    destruct (get_next_timeout _ _ _ _ _ _) as [nt| |] eqn:Hgt; simpl in Hstep;
      try discriminate;
      [|inversion Hstep; subst; left; eapply get_next_timeout_raise; eassumption].
    destruct (wait _ _ _ _ _ _) as [[[[d nd] p1] t1]| |] eqn:Hw; simpl in Hstep;
      try discriminate; [|inversion Hstep; subst; destruct (wait_no_raise _ _ _ _ _ _ Hw)].
    destruct d; simpl in Hstep; [|discriminate].
    inversion Hstep; subst. right; left. split; [discriminate | eauto].
  - unfold step_reap in Hstep. cbv zeta in Hstep. rewrite Hg, Hf in Hstep.
    destruct (reap _ _ _ _) as [g'| |] eqn:Hrp; simpl in Hstep; try discriminate;
      [|inversion Hstep; subst; right; right; auto].
    destruct (Nat.eqb _ 0) eqn:Hlen; [discriminate|].
    destruct (lookup_xns _ _ _) as [xs| |] eqn:Hl; simpl in Hstep; try discriminate;
      [|inversion Hstep; subst; left; eapply lookup_xns_raise; eassumption].
    exfalso. apply lookup_xns_length in Hl.
    destruct (@choose_xn_total xs) as (xn & Hxn).
    { intros ->. simpl in Hl. rewrite <- Hl in Hlen. discriminate. }
    rewrite Hxn in Hstep. discriminate.
  - unfold step_chosen in Hstep. cbv zeta in Hstep. destruct (_ && _).
    + destruct (get_next_timeout _ _ _ _ _ _) as [nt| |] eqn:Hgt; simpl in Hstep;
        try discriminate;
        [|inversion Hstep; subst; left; eapply get_next_timeout_raise; eassumption].
      destruct (wait _ _ _ _ _ _) as [[[[d nd] p1] t1]| |] eqn:Hw; simpl in Hstep;
        try discriminate;
        [|inversion Hstep; subst; destruct (wait_no_raise _ _ _ _ _ _ Hw)].
      destruct d; simpl in Hstep; [|discriminate].
      inversion Hstep; subst. right; left. split; [discriminate | eauto].
    + destruct (_xn_active_in_call _ _ _) as [[|]| |] eqn:Ha; simpl in Hstep;
        try discriminate.
      inversion Hstep; subst. left. eapply _xn_active_in_call_raise; eassumption.
  - unfold step_submit in Hstep. destruct (is_sequential _); discriminate.
  - unfold step_post_wait in Hstep. cbv zeta in Hstep.
    destruct (get_next_timeout _ _ _ _ _ _) as [nt| |] eqn:Hgt; simpl in Hstep;
      try discriminate;
      [|inversion Hstep; subst; left; eapply get_next_timeout_raise; eassumption].
    destruct (wait _ _ _ _ _ _) as [[[[d nd] p1] t1]| |] eqn:Hw; simpl in Hstep;
      try discriminate; [|inversion Hstep; subst; destruct (wait_no_raise _ _ _ _ _ _ Hw)].
    destruct d; simpl in Hstep; [|discriminate].
    inversion Hstep; subst. right; left. split; [discriminate | eauto].
Qed.




(** ** No [KeyError] inside the loop *)


Lemma dict_get_set_other (V : Type) (d : Dict V) k (v : V) k' :
  k' <> k -> dict_get (dict_set d k v) k' = dict_get d k'.
Proof.
  intros Hne. induction d as [|[k0 v0] d IH]; simpl.
  - now apply String.eqb_neq in Hne as ->.
  - destruct (String.eqb k k0) eqn:Heq; simpl.
    + apply String.eqb_eq in Heq; subst.
      now apply String.eqb_neq in Hne as ->.
    + destruct (String.eqb k' k0); [reflexivity | exact IH].
Qed.

(** Only the submission writes a launch time. *)
Lemma step_launch_time xns_dict max_concurrency behavior e pc s pc' s' :
  step xns_dict max_concurrency behavior e pc s = Ok (Continue pc' s') ->
  match pc with
  | AtSubmit xn =>
      futures_launch_time s'
      = dict_set (futures_launch_time s) (id (snd xn)) (monotonic e)
  | _ => futures_launch_time s' = futures_launch_time s
  end.
Proof.
  destruct (observe_fields e s) as (Hg & Hf & _ & _ & Hl & _).
  destruct pc as [| |xn|xn|xn]; simpl.
  - unfold step_loop_head. destruct (Nat.eqb _ 0); [discriminate|]. cbv zeta.
    destruct (_ || _).
    + destruct (get_next_timeout _ _ _ _ _ _); simpl; try discriminate.
      destruct (wait _ _ _ _ _ _) as [[[[d nd] p1] t1]| |]; simpl; try discriminate.
      destruct (raise_timeout_error_conditionally _ _ _); simpl; try discriminate.
      intros H; inversion H; subst; simpl. exact Hl.
    + intros H; inversion H; subst. exact Hl.
  - unfold step_reap. cbv zeta.
    destruct (reap _ _ _ _) as [g'| |]; simpl; try discriminate.
    destruct (Nat.eqb _ 0).
    + intros H; inversion H; subst; simpl. exact Hl.
    + destruct (lookup_xns _ _ _) as [xs| |]; simpl; try discriminate.
      destruct (choose_xn xs) as [xn| |]; simpl; try discriminate.
      intros H; inversion H; subst; simpl. exact Hl.
  - unfold step_chosen. cbv zeta. destruct (_ && _).
    + destruct (get_next_timeout _ _ _ _ _ _); simpl; try discriminate.
      destruct (wait _ _ _ _ _ _) as [[[[d nd] p1] t1]| |]; simpl; try discriminate.
      destruct (raise_timeout_error_conditionally _ _ _); simpl; try discriminate.
      intros H; inversion H; subst; simpl. exact Hl.
    + destruct (_xn_active_in_call _ _ _) as [[|]| |]; simpl; try discriminate;
        intros H; inversion H; subst; simpl; exact Hl.
  - unfold step_submit. destruct (is_sequential _); intros H; inversion H; subst; reflexivity.
  - unfold step_post_wait. cbv zeta.
    destruct (get_next_timeout _ _ _ _ _ _); simpl; try discriminate.
    destruct (wait _ _ _ _ _ _) as [[[[d nd] p1] t1]| |]; simpl; try discriminate.
    destruct (raise_timeout_error_conditionally _ _ _); simpl; try discriminate.
    intros H; inversion H; subst; simpl. exact Hl.
Qed.



Lemma snapshot_reaches xns_dict max_concurrency behavior s0 c :
  reaches xns_dict max_concurrency behavior (AtLoopHead, s0) c -> snapshot (fst c) (snd c).
Proof.
  intros Hr. inversion Hr as [|c' c'' _ (e & _ & Hstep)]; subst; [exact I|].
  destruct c' as [pc s], c as [pc' s']. simpl in *.
  destruct pc' as [| |xn| |]; try exact I. simpl.
  destruct pc as [| |xn0|xn0|xn0]; simpl in Hstep.
  - apply step_loop_head_effect in Hstep as [Hpc _]. discriminate.
  - apply step_reap_effect in Hstep as (_ & _ & _ & _ & [Hpc | (xn' & k & Hpc & _ & _ & Hx)]);
      [discriminate|]. inversion Hpc; subst. exact Hx.
  - apply step_chosen_effect in Hstep as [[Hpc _] | [(Hpc & _) | [Hpc _]]]; discriminate.
  - apply step_submit_effect in Hstep as ([Hpc | Hpc] & _); discriminate.
  - apply step_post_wait_effect in Hstep as [Hpc _]. discriminate.
Qed.






(** ** The error strategies in the reap step *)

Lemma handle_exception_returned behavior g pool fut id_ f v :
  nth_error pool fut = Some f -> fut_state f = Finished (Returned v) ->
  handle_exception behavior g pool fut id_ = Ok g.
Proof.
  intros Hf Hs. unfold handle_exception, fut_result. rewrite Hf, Hs.
  destruct behavior; reflexivity.
Qed.

Lemma handle_exception_no_failure behavior g pool fut id_ :
  no_failure pool -> fut_done pool fut = true ->
  handle_exception behavior g pool fut id_ = Ok g.
Proof.
  intros Hno Hd. unfold fut_done in Hd.
  destruct (nth_error pool fut) as [f|] eqn:Hf; [|discriminate].
  destruct (fut_state f) as [|[v|x]] eqn:Hs; [discriminate| |].
  - eapply handle_exception_returned; eassumption.
  - destruct (Hno fut f x Hf Hs).
Qed.

Lemma reap_no_failure behavior behavior' pool items : forall g,
  no_failure pool -> reap behavior pool items g = reap behavior' pool items g.
Proof.
  induction items as [|[id_ fut] items IH]; intros g Hno; simpl; [reflexivity|].
  destruct (fut_done pool fut) eqn:Hd; simpl; [|now apply IH].
  destruct (graph_contains g id_); [|now apply IH].
  rewrite (@handle_exception_no_failure behavior g pool fut id_ Hno Hd),
    (@handle_exception_no_failure behavior' g pool fut id_ Hno Hd). simpl. now apply IH.
Qed.

(** X3.  The error strategy only matters once a node has failed.  When no
    future of the pool has raised at the observation of a step, the step is
    the same under every behavior, also under one that [handle_exception]
    does not know: the unknown behavior is only detected, with
    [NotImplementedError], in the [except] branch. *)
Theorem behavior_irrelevant_without_failure xns_dict max_concurrency behavior behavior'
    e pc s :
  no_failure (pool (observe e s)) ->
  step xns_dict max_concurrency behavior e pc s
  = step xns_dict max_concurrency behavior' e pc s.
Proof.
  intros Hno. destruct pc as [| |xn|xn|xn]; try reflexivity.
  simpl. unfold step_reap. cbv zeta.
  now rewrite (@reap_no_failure behavior behavior'
                 (pool (observe e s)) (futures (observe e s)) (graph (observe e s)) Hno).
Qed.

(** X3 on the chain, when [a] has returned: the reap step under an unknown
    behavior is the one under [strict], and it goes on to pick [b]. *)
Lemma behavior_irrelevant_without_failure_witness :
  no_failure (pool (observe (Scenarios.idle 2) (snd Scenarios.chain_at_reap))) /\
  step (fst Scenarios.chain_init) 1 (unknown_strategy "retry") (Scenarios.idle 2) AtReap
    (snd Scenarios.chain_at_reap)
  = step (fst Scenarios.chain_init) 1 strict (Scenarios.idle 2) AtReap
      (snd Scenarios.chain_at_reap) /\
  exists s', step (fst Scenarios.chain_init) 1 strict (Scenarios.idle 2) AtReap
               (snd Scenarios.chain_at_reap)
             = Ok (Continue (AtChosen Scenarios.chain_xn) s').
Proof.
  assert (Hno : no_failure
                  (pool (observe (Scenarios.idle 2) (snd Scenarios.chain_at_reap)))).
  { intros h f x Hf Hs.
    destruct h as [|[|h]]; simpl in Hf; inversion Hf; subst; discriminate. }
  split; [exact Hno|]. split.
  - exact (@behavior_irrelevant_without_failure (fst Scenarios.chain_init) 1
             (unknown_strategy "retry") strict (Scenarios.idle 2) AtReap
             (snd Scenarios.chain_at_reap) Hno).
  - eexists. vm_compute. reflexivity.
Defined.




Lemma reap_returned_prefix behavior pool pre : forall g,
  (forall k h, In (k, h) pre -> fut_done pool h = true ->
     exists f v, nth_error pool h = Some f /\ fut_state f = Finished (Returned v)) ->
  forall rest, exists g',
    reap behavior pool (pre ++ rest) g = reap behavior pool rest g' /\
    forall n, In n (nodes g) -> ~ In n (dict_keys pre) -> In n (nodes g').
Proof.
  induction pre as [|[id_ fut] pre IH]; intros g Hret rest; simpl.
  - exists g. auto.
  - assert (Hret' : forall k h, In (k, h) pre -> fut_done pool h = true ->
              exists f v, nth_error pool h = Some f /\ fut_state f = Finished (Returned v))
      by (intros k h Hin; apply (Hret k h); now right).
    destruct (fut_done pool fut && graph_contains g id_) eqn:Hc.
    + apply andb_true_iff in Hc as [Hd _].
      destruct (Hret id_ fut (or_introl eq_refl) Hd) as (f & v & Hf & Hs).
      rewrite (@handle_exception_returned behavior g pool fut id_ f v Hf Hs). simpl.
      destruct (IH (remove_node g id_) Hret' rest) as (g' & Heq & Hn).
      exists g'. split; [exact Heq|]. intros n Hng Hnk. apply Hn.
      * apply remove_nodes_nodes. split; [exact Hng|]. intros [<- | []]. apply Hnk. now left.
      * intros Hin. apply Hnk. now right.
    + destruct (IH g Hret' rest) as (g' & Heq & Hn).
      exists g'. split; [exact Heq|]. intros n Hng Hnk. apply Hn; [exact Hng|].
      intros Hin. apply Hnk. now right.
Qed.

(** X5.  Under [strict] the reap loop re-raises the exception of the first
    node, in the order of submission, that has raised and is still in the
    working graph: when the finished futures before it in the table have
    returned values, [execute] fails with that exception in this step. *)
Theorem reap_strict_raises_first xns_dict max_concurrency e s pre k h post f x :
  futures s = pre ++ (k, h) :: post ->
  ~ In k (dict_keys pre) ->
  (forall k' h', In (k', h') pre -> fut_done (pool (observe e s)) h' = true ->
     exists f' v, nth_error (pool (observe e s)) h' = Some f' /\
                  fut_state f' = Finished (Returned v)) ->
  nth_error (pool (observe e s)) h = Some f -> fut_state f = Finished (Raised x) ->
  In k (nodes (graph s)) ->
  step xns_dict max_concurrency strict e AtReap s = Raise (UserNodeError x).
Proof.
  intros Hfut Hfresh Hret Hf Hs Hk. simpl. unfold step_reap. cbv zeta.
  destruct (observe_fields e s) as (Hg & Hfu & _). rewrite Hg, Hfu, Hfut.
  destruct (@reap_returned_prefix strict (pool (observe e s)) pre (graph s) Hret
              ((k, h) :: post)) as (g' & -> & Hn).
  simpl. unfold fut_done. rewrite Hf, Hs. simpl.
  unfold graph_contains.
  rewrite (proj2 (mem_id_In k (nodes g')) (Hn k Hk Hfresh)).
  unfold handle_exception, fut_result. rewrite Hf, Hs. reflexivity.
Qed.

(** X5 on the chain when [a] raises: the reap step fails with the exception
    of [a]. *)
Lemma reap_strict_raises_first_witness :
  step (fst Scenarios.chain_init) 1 strict (Scenarios.idle 2) AtReap
    (snd Scenarios.chain_failed_at_reap) = Raise (UserNodeError 7%nat).
Proof.
  apply (@reap_strict_raises_first (fst Scenarios.chain_init) 1 (Scenarios.idle 2)
           (snd Scenarios.chain_failed_at_reap) [] "a" 0%nat []
           (mkFuture 2%nat (Finished (Raised 7%nat))) 7%nat).
  - reflexivity.
  - intros [].
  - intros k' h' [].
  - reflexivity.
  - reflexivity.
  - now left.
Defined.


(** ** Steps 0.1 and 0.2 *)

Lemma precomputed_ids_missing st xns_dict pre k post :
  (forall k', In k' pre -> exists r x, dict_get xns_dict k' = Some r /\ deref st r = Some x) ->
  dict_get xns_dict k = None ->
  precomputed_ids st xns_dict (pre ++ k :: post) = Raise (KeyError k).
Proof.
  intros Hpre Hk. induction pre as [|k' pre IH]; simpl.
  - unfold xn_item, dict_item. now rewrite Hk.
  - destruct (Hpre k' (or_introl eq_refl)) as (r & x & Hr & Hx).
    unfold xn_item, dict_item. rewrite Hr. simpl. rewrite Hx. simpl.
    rewrite IH; [reflexivity|]. intros k0 H0. apply Hpre. now right.
Qed.

(** X6.  A graph id without an entry in the state table makes [execute]
    fail in step 0.2 with [KeyError] for the first such id, before the
    executor is created (so also for a non-positive [max_concurrency]) and
    before any node is submitted, whatever the behavior. *)
Theorem execute_missing_node_key st node_dict max_concurrency behavior g m envs
    st' xns_dict pre k post :
  init_xns_dict st node_dict m = Ok (st', xns_dict) ->
  nodes g = pre ++ k :: post ->
  (forall k', In k' pre ->
     exists r x, dict_get xns_dict k' = Some r /\ deref st' r = Some x) ->
  dict_get xns_dict k = None ->
  execute st node_dict max_concurrency behavior g m envs = Raise (KeyError k).
Proof.
  intros Hinit Hn Hpre Hk. unfold execute, execute_init. rewrite Hinit. simpl.
  rewrite Hn, (@precomputed_ids_missing st' xns_dict pre k post Hpre Hk). reflexivity.
Qed.

(** X6 on the chain with a table that lacks [b]. *)
Lemma execute_missing_node_key_witness :
  execute [Scenarios.plain "a" 0] [("a", 0%nat)] 0 permissive Scenarios.chain_graph None
    [Scenarios.idle 0] = Raise (KeyError "b").
Proof.
  apply (@execute_missing_node_key [Scenarios.plain "a" 0] [("a", 0%nat)] 0 permissive
           Scenarios.chain_graph None [Scenarios.idle 0]
           [Scenarios.plain "a" 0; Scenarios.plain "a" 0] [("a", 1%nat)] ["a"] "b" []).
  - reflexivity.
  - reflexivity.
  - intros k' [<- | []]. exists 1%nat, (Scenarios.plain "a" 0). split; reflexivity.
  - reflexivity.
Defined.

Lemma precomputed_ids_spec st xns_dict ids : forall pre,
  precomputed_ids st xns_dict ids = Ok pre ->
  forall k, In k pre <->
    In k ids /\ exists x, xn_item st xns_dict k = Ok x /\ executed x = true.
Proof.
  induction ids as [|i ids IH]; intros pre; simpl.
  - intros H; inversion H; subst. intros k. simpl. tauto.
  - destruct (xn_item st xns_dict i) as [x| |] eqn:Hx; simpl; try discriminate.
    destruct (precomputed_ids st xns_dict ids) as [rest| |]; simpl; try discriminate.
    intros H; inversion H; subst; clear H. intros k.
    specialize (IH rest eq_refl k).
    destruct (executed x) eqn:He; simpl; rewrite IH; split.
    + intros [<- | [Hin Hex]]; [split; [now left | eauto] | split; [now right | exact Hex]].
    + intros [[<- | Hin] Hex]; [now left | right; auto].
    + intros [Hin Hex]. split; [now right | exact Hex].
    + intros [[<- | Hin] Hex]; [|auto].
      destruct Hex as (x' & Hx' & He'). rewrite Hx in Hx'. inversion Hx'; subst. congruence.
Qed.

Lemma fold_remove_node_nodes l : forall g n,
  In n (nodes (fold_left remove_node l g)) <-> In n (nodes g) /\ ~ In n l.
Proof.
  induction l as [|x l IH]; intros g n; simpl; [tauto|].
  rewrite IH. unfold remove_node. rewrite remove_nodes_nodes. simpl. tauto.
Qed.

(** X7.  Step 0.2 takes out of the working graph exactly the nodes whose
    [executed] flag is set, and such a node is never submitted: in every
    state that the invocation reaches, the keys of [futures] are nodes of
    the input graph whose [executed] flag was not set. *)
Theorem executed_nodes_never_submitted st node_dict max_concurrency behavior g m
    xns_dict s0 pc s :
  wf_graph g ->
  execute_init st node_dict max_concurrency g m = Ok (xns_dict, s0) ->
  ids_consistent xns_dict (store s0) ->
  reaches xns_dict max_concurrency behavior (AtLoopHead, s0) (pc, s) ->
  (forall k, In k (nodes (graph s0)) <->
     In k (nodes g) /\
     exists x, xn_item (store s0) xns_dict k = Ok x /\ executed x = false) /\
  forall k, In k (dict_keys (futures s)) ->
    In k (nodes g) /\
    exists x, xn_item (store s0) xns_dict k = Ok x /\ executed x = false.
Proof.
  intros Hwf Hinit Hids Hreach.
  destruct (execute_init_effect _ _ _ _ _ Hinit)
    as (st' & pre & _ & Hpre & Hg0 & Hf0 & Hp0 & _ & Hst0 & _).
  assert (Hwf0 : wf_graph (graph s0)).
  { eapply subgraph_wf. rewrite Hg0. apply fold_remove_node_subgraph, Hwf. }
  pose proof (@inv_initial xns_dict s0 Hwf0 Hf0 Hids) as Hinv0.
  assert (Hinit_graph : forall k, In k (nodes (graph s0)) <->
            In k (nodes g) /\
            exists x, xn_item (store s0) xns_dict k = Ok x /\ executed x = false).
  { intros k. rewrite Hg0, fold_remove_node_nodes, Hst0.
    rewrite (@precomputed_ids_spec _ _ _ _ Hpre k). split.
    - intros [Hk Hno]. split; [exact Hk|].
      destruct (@precomputed_ids_covers _ _ _ _ Hpre k Hk) as (r & x & Hr & Hx).
      exists x. unfold xn_item, dict_item. rewrite Hr. simpl. rewrite Hx.
      split; [reflexivity|].
      destruct (executed x) eqn:He; [exfalso | reflexivity].
      apply Hno. split; [exact Hk|]. exists x.
      unfold xn_item, dict_item. rewrite Hr. simpl. rewrite Hx. auto.
    - intros [Hk (x & Hx & He)]. split; [exact Hk|].
      intros [_ (x' & Hx' & He')]. rewrite Hx in Hx'. inversion Hx'; subst. congruence. }
  split; [exact Hinit_graph|].
  intros k Hk. apply Hinit_graph.
  destruct (reaches_mono (g0 := graph s0) Hreach Hinv0) as [_ Hkeys].
  destruct (Hkeys k Hk) as [H | H]; [|exact H].
  simpl in H. rewrite Hf0 in H. destruct H.
Qed.

(** X7 on the input short-circuit: the pre-executed input [d] is taken out
    of the graph at the start. *)
Lemma executed_nodes_never_submitted_witness :
  ~ In "d" (nodes (graph (snd Scenarios.input_init))) /\
  In "n" (nodes (graph (snd Scenarios.input_init))) /\
  dict_keys (futures (snd Scenarios.input_submitted)) = ["n"] /\
  forall k, In k (dict_keys (futures (snd Scenarios.input_submitted))) -> k <> "d".
Proof.
  assert (Hreach : reaches (fst Scenarios.input_init) 1 strict
            (AtLoopHead, snd Scenarios.input_init)
            (fst Scenarios.input_submitted, snd Scenarios.input_submitted)).
  { apply run_loop_reaches with (envs := Scenarios.input_envs ++ [Scenarios.idle 0]);
      [all_env_ok | vm_compute; reflexivity]. }
  destruct (@executed_nodes_never_submitted Scenarios.input_store Scenarios.input_dict 1
              strict Scenarios.input_graph None (fst Scenarios.input_init)
              (snd Scenarios.input_init) (fst Scenarios.input_submitted)
              (snd Scenarios.input_submitted))
    as [Hg Hk].
  - apply wf_graph_check; reflexivity.
  - reflexivity.
  - apply ids_consistent_check; reflexivity.
  - exact Hreach.
  - split; [|split; [|split]].
    + intros Hd. apply Hg in Hd as [_ (x & Hx & He)].
      vm_compute in Hx. inversion Hx; subst. discriminate.
    + now left.
    + reflexivity.
    + intros k Hin ->. apply Hk in Hin as [_ (x & Hx & He)].
      vm_compute in Hx. inversion Hx; subst. discriminate.
Defined.


(** ** Each node is submitted at most once *)

(** X8.  In every state that an invocation reaches, the keys of [futures]
    are distinct, every future that was created is the value of a key of
    [futures] and runs the node object of that key, and two different
    futures run different node objects: no node is submitted twice. *)
Theorem node_submitted_at_most_once st node_dict max_concurrency behavior g m
    xns_dict s0 pc s :
  wf_graph g ->
  execute_init st node_dict max_concurrency g m = Ok (xns_dict, s0) ->
  ids_consistent xns_dict (store s0) ->
  reaches xns_dict max_concurrency behavior (AtLoopHead, s0) (pc, s) ->
  NoDup (dict_keys (futures s)) /\
  (forall h f, nth_error (pool s) h = Some f ->
     exists k, In (k, h) (futures s) /\ dict_get xns_dict k = Some (fut_node f)) /\
  forall h h' f f', nth_error (pool s) h = Some f -> nth_error (pool s) h' = Some f' ->
    fut_node f = fut_node f' -> h = h'.
Proof.
  intros Hwf Hinit Hids Hreach.
  destruct (execute_init_effect _ _ _ _ _ Hinit)
    as (st' & pre & _ & _ & Hg0 & Hf0 & Hp0 & _).
  assert (Hwf0 : wf_graph (graph s0)).
  { eapply subgraph_wf. rewrite Hg0. apply fold_remove_node_subgraph, Hwf. }
  pose proof (@inv_initial xns_dict s0 Hwf0 Hf0 Hids) as Hinv0.
  pose proof (@ps_initial xns_dict s0 Hf0 Hp0 Hids) as Hps0.
  destruct (reaches_ps (g0 := graph s0) (st0 := store s0) Hreach Hinv0 Hps0 I)
    as [Hps _]. simpl in Hps.
  split; [exact (ps_nodup Hps)|]. split.
  - intros h f Hf. exact (ps_node Hps h Hf).
  - intros h h' f f' Hf Hf' Heq. eapply ps_inj; eassumption.
Qed.

(** X8 on the sequential scenario, where [a], [s] and [b] have been
    submitted: three futures for three different node objects. *)
Lemma node_submitted_at_most_once_witness :
  reaches (fst Scenarios.seq_init) 2 strict
    (AtLoopHead, snd Scenarios.seq_init) Scenarios.seq_overlap /\
  dict_keys (futures (snd Scenarios.seq_overlap)) = ["a"; "s"; "b"] /\
  NoDup (dict_keys (futures (snd Scenarios.seq_overlap))) /\
  map fut_node (pool (snd Scenarios.seq_overlap)) = [3%nat; 4%nat; 5%nat].
Proof.
  assert (Hreach : reaches (fst Scenarios.seq_init) 2 strict
            (AtLoopHead, snd Scenarios.seq_init)
            (fst Scenarios.seq_overlap, snd Scenarios.seq_overlap)).
  { apply run_loop_reaches with (envs := Scenarios.seq_envs_overlap);
      [all_env_ok | vm_compute; reflexivity]. }
  destruct (@node_submitted_at_most_once Scenarios.seq_store Scenarios.seq_dict 2 strict
              Scenarios.seq_graph None (fst Scenarios.seq_init) (snd Scenarios.seq_init)
              (fst Scenarios.seq_overlap) (snd Scenarios.seq_overlap))
    as (Hnd & _ & _).
  - apply wf_graph_check; reflexivity.
  - reflexivity.
  - apply ids_consistent_check; reflexivity.
  - exact Hreach.
  - split; [exact Hreach|]. split; [reflexivity|]. split; [exact Hnd | reflexivity].
Defined.

(** ** On return every future is done *)

Lemma reach_has_pred g fuel : forall s d,
  In d (reach g fuel s) -> In d s \/ exists u, In (u, d) (edges g).
Proof.
  induction fuel as [|fuel IH]; intros s d; simpl; [auto|].
  destruct (frontier g s) as [|v new] eqn:Hfr; [auto|].
  intros Hd. destruct (IH _ _ Hd) as [Hin | Hp]; [|auto].
  apply in_app_or in Hin as [Hin | Hin]; [auto|].
  rewrite <- Hfr in Hin. apply frontier_spec in Hin as (_ & _ & p & _ & Hp). eauto.
Qed.

Lemma remove_recursively_keeps g x k :
  In k (nodes g) -> k <> x -> (forall u, ~ In (u, k) (edges g)) ->
  In k (nodes (remove_recursively g x)).
Proof.
  intros Hk Hne Hnp. unfold remove_recursively. apply remove_nodes_nodes.
  split; [exact Hk|]. intros Hd. unfold descendants in Hd.
  apply reach_has_pred in Hd as [[<- | []] | (u & Hu)]; [congruence | exact (Hnp u Hu)].
Qed.

Lemma fold_remove_recursively_keeps xs k : forall g,
  In k (nodes g) -> ~ In k xs -> (forall u, ~ In (u, k) (edges g)) ->
  In k (nodes (fold_left remove_recursively xs g)).
Proof.
  induction xs as [|x xs IH]; intros g Hk Hnx Hnp; simpl; [exact Hk|].
  apply IH.
  - apply remove_recursively_keeps; [exact Hk | | exact Hnp].
    intros ->. apply Hnx. now left.
  - intros Hin. apply Hnx. now right.
  - intros u Hu. apply remove_nodes_edges in Hu as [Hu _]. exact (Hnp u Hu).
Qed.

Lemma handle_exception_keeps behavior g pool fut id_ g' k :
  handle_exception behavior g pool fut id_ = Ok g' ->
  In k (nodes g) -> (forall u, ~ In (u, k) (edges g)) -> In k (nodes g').
Proof.
  intros Hh Hk Hnp.
  assert (Hfold : In k (nodes (fold_left remove_recursively (successors g id_) g))).
  { apply fold_remove_recursively_keeps; [exact Hk | | exact Hnp].
    intros Hs. apply successors_spec in Hs. exact (Hnp id_ Hs). }
  revert Hh. unfold handle_exception.
  destruct behavior; step_cases; intros H; inversion H; subst; assumption.
Qed.

(** The reap loop keeps the submitted nodes whose future is not done. *)
Lemma reap_keeps_pending behavior g0 futs pool items : forall g g' k h,
  incl items futs -> NoDup (dict_keys futs) ->
  reap behavior pool items g = Ok g' -> GInv g0 futs pool g ->
  In (k, h) futs -> fut_done pool h = false -> In k (nodes g) -> In k (nodes g').
Proof.
  induction items as [|[id_ fut] items IH]; intros g g' k h Hincl Hnd Hreap Hginv Hk Hd Hkg;
    simpl in Hreap.
  - inversion Hreap; subst. exact Hkg.
  - assert (Hincl' : incl items futs) by (intros x Hx; apply Hincl; now right).
    destruct (fut_done pool fut && graph_contains g id_) eqn:Hc;
      [|eapply IH; eassumption].
    apply andb_true_iff in Hc as [Hdf Hcg].
    destruct (handle_exception behavior g pool fut id_) as [g1| |] eqn:Hh;
      simpl in Hreap; try discriminate.
    assert (Hin : In (id_, fut) futs) by (apply Hincl; now left).
    assert (Hnp : forall u, ~ In (u, k) (edges g)).
    { intros u Hu. apply (@has_pred_not_submitted _ _ _ _ _ _ Hginv Hu).
      eapply in_dict_keys; exact Hk. }
    pose proof (@handle_exception_ginv _ _ _ _ _ _ _ _ Hh Hginv) as Hginv1.
    eapply IH; [exact Hincl' | exact Hnd | exact Hreap | | exact Hk | exact Hd |].
    + apply ginv_remove_node; [|exact Hginv1]. exists fut. auto.
    + apply remove_nodes_nodes. split.
      * eapply handle_exception_keeps; eassumption.
      * intros [<- | []]. rewrite (@nodup_keys_unique _ _ _ _ _ Hnd Hk Hin) in Hd. congruence.
Qed.

Lemma held_step xns_dict max_concurrency behavior g0 st0 e pc s pc' s' :
  Inv xns_dict g0 pc s -> PS xns_dict st0 (futures s) (pool s) (store s) -> held s ->
  step xns_dict max_concurrency behavior e pc s = Ok (Continue pc' s') ->
  held s'.
Proof.
  intros Hinv Hps Hh Hstep.
  assert (Hq : quiet s s' -> held s').
  { intros (Hg & Hf & Hp & _) k h Hin. rewrite Hf in Hin. rewrite Hg.
    destruct (Hh k h Hin) as [Hd | Hk]; [left; now apply Hp | now right]. }
  destruct pc as [| |xn|xn|xn]; simpl in Hstep.
  - apply step_loop_head_effect in Hstep as [_ Hqu]. exact (Hq Hqu).
  - apply step_reap_effect in Hstep as (Hreap & Hf & Hp & _).
    pose proof (quiet_observe e s) as (_ & _ & Hle & _).
    intros k h Hin. rewrite Hf in Hin. rewrite Hp.
    destruct (fut_done (pool (observe e s)) h) eqn:Hd; [now left | right].
    destruct (Hh k h Hin) as [Hd0 | Hk]; [apply Hle in Hd0; congruence|].
    eapply reap_keeps_pending;
      [apply incl_refl | exact (ps_nodup Hps) | exact Hreap | | exact Hin | exact Hd
      | exact Hk].
    eapply ginv_pool_le; [exact Hle | exact (inv_graph Hinv)].
  - pose proof (inv_choice Hinv) as Hc. simpl in Hc.
    apply ready_spec in Hc as [_ Hfresh].
    apply step_chosen_effect in Hstep
      as [[_ Hqu] | [(_ & _ & Hg & Hf & Hp & _) | [_ ->]]].
    + exact (Hq Hqu).
    + pose proof (quiet_observe e s) as (_ & _ & Hle & _).
      intros k h Hin. rewrite Hf in Hin. rewrite Hp, Hg.
      destruct (Hh k h Hin) as [Hd | Hk]; [left; now apply Hle | right].
      apply remove_recursively_keeps; [exact Hk | |].
      * intros ->. apply Hfresh. eapply in_dict_keys; exact Hin.
      * intros u Hu. apply (@has_pred_not_submitted _ _ _ _ _ _ (inv_graph Hinv) Hu).
        eapply in_dict_keys; exact Hin.
    + exact (Hq (quiet_observe e s)).
  - pose proof (inv_choice Hinv) as Hc. simpl in Hc.
    apply ready_spec in Hc as [Hroot Hfresh]. apply root_nodes_spec in Hroot as [Hnode _].
    apply step_submit_effect in Hstep as (_ & Hg & Hf & Hp & _).
    rewrite (@dict_set_fresh Handle _ _ (length (pool s)) Hfresh) in Hf.
    intros k h Hin. rewrite Hf in Hin. rewrite Hg, Hp.
    apply in_app_or in Hin as [Hin | [Heq | []]].
    + destruct (Hh k h Hin) as [Hd | Hk]; [left; now apply pool_le_app | now right].
    + inversion Heq; subst. now right.
  - apply step_post_wait_effect in Hstep as [_ Hqu]. exact (Hq Hqu).
Qed.

Lemma held_reaches xns_dict max_concurrency behavior g0 st0 c c' :
  reaches xns_dict max_concurrency behavior c c' ->
  Inv xns_dict g0 (fst c) (snd c) ->
  PS xns_dict st0 (futures (snd c)) (pool (snd c)) (store (snd c)) ->
  chosen_named xns_dict (fst c) (snd c) ->
  held (snd c) -> held (snd c').
Proof.
  induction 1 as [|c' c'' Hr IH (e & Henv & Hstep)]; intros Hinv Hps Hn Hh; [exact Hh|].
  pose proof (reaches_inv (g0 := g0) Hr Hinv) as Hinv'.
  destruct (reaches_ps (g0 := g0) (st0 := st0) Hr Hinv Hps Hn) as [Hps' _].
  eapply held_step; [exact Hinv' | exact Hps' | apply IH; assumption | exact Hstep].
Qed.

(** The loop only returns from the loop test, with an empty graph. *)
Lemma step_return xns_dict max_concurrency behavior e pc s s' :
  step xns_dict max_concurrency behavior e pc s = Ok (Return s') ->
  pc = AtLoopHead /\ s' = s /\ nodes (graph s) = [].
Proof.
  destruct pc as [| |xn|xn|xn]; simpl.
  - unfold step_loop_head. destruct (Nat.eqb (graph_len (graph s)) 0) eqn:Hlen.
    + intros H; inversion H; subst. split; [reflexivity|]. split; [reflexivity|].
      apply Nat.eqb_eq in Hlen. now apply length_zero_iff_nil.
    + cbv zeta. destruct (_ || _); [|discriminate].
      destruct (get_next_timeout _ _ _ _ _ _); simpl; try discriminate.
      destruct (wait _ _ _ _ _ _) as [[[[d nd] p1] t1]| |]; simpl; try discriminate.
      destruct (raise_timeout_error_conditionally _ _ _); simpl; discriminate.
  - unfold step_reap. cbv zeta.
    destruct (reap _ _ _ _) as [g'| |]; simpl; try discriminate.
    destruct (Nat.eqb _ 0); [discriminate|].
    destruct (lookup_xns _ _ _) as [xs| |]; simpl; try discriminate.
    destruct (choose_xn xs) as [xn| |]; simpl; discriminate.
  - unfold step_chosen. cbv zeta. destruct (_ && _).
    + destruct (get_next_timeout _ _ _ _ _ _); simpl; try discriminate.
      destruct (wait _ _ _ _ _ _) as [[[[d nd] p1] t1]| |]; simpl; try discriminate.
      destruct (raise_timeout_error_conditionally _ _ _); simpl; discriminate.
    + destruct (_xn_active_in_call _ _ _) as [[|]| |]; simpl; discriminate.
  - unfold step_submit. destruct (is_sequential _); discriminate.
  - unfold step_post_wait. cbv zeta.
    destruct (get_next_timeout _ _ _ _ _ _); simpl; try discriminate.
    destruct (wait _ _ _ _ _ _) as [[[[d nd] p1] t1]| |]; simpl; try discriminate.
    destruct (raise_timeout_error_conditionally _ _ _); simpl; discriminate.
Qed.

Lemma run_loop_return xns_dict max_concurrency behavior envs : forall pc s s',
  Forall env_ok envs ->
  run_loop xns_dict max_concurrency behavior envs pc s = Ok (Return s') ->
  reaches xns_dict max_concurrency behavior (pc, s) (AtLoopHead, s') /\
  nodes (graph s') = [].
Proof.
  induction envs as [|e envs IH]; intros pc s s' Hok; simpl; [discriminate|].
  inversion Hok as [|? ? He Hok']; subst.
  destruct (step xns_dict max_concurrency behavior e pc s) as [[pc1 s1|s1]| |] eqn:Hstep;
    try discriminate.
  - intros Hrun. destruct (IH pc1 s1 s' Hok' Hrun) as [Hr Hn]. split; [|exact Hn].
    clear - He Hstep Hr.
    assert (Hgen : forall c c', reaches xns_dict max_concurrency behavior c c' ->
              forall c0, step_to xns_dict max_concurrency behavior c0 c ->
                         reaches xns_dict max_concurrency behavior c0 c').
    { induction 1 as [|c' c'' Hr' IH' Hs]; intros c0 H0.
      - eapply reaches_step; [apply reaches_refl | exact H0].
      - eapply reaches_step; [apply IH'; exact H0 | exact Hs]. }
    apply (Hgen _ _ Hr). exists e. split; [exact He | exact Hstep].
  - intros H; inversion H; subst.
    apply step_return in Hstep as (-> & -> & Hn). split; [apply reaches_refl | exact Hn].
Qed.

(** X9.  When [execute] returns, the working graph is empty and every
    future that was submitted is done: a node leaves the graph while its
    future is pending under no behavior, not even when a failure or an
    inactive node prunes its neighbourhood. *)
Theorem return_means_all_done st node_dict max_concurrency behavior g m envs
    xns_dict s0 s :
  wf_graph g ->
  execute_init st node_dict max_concurrency g m = Ok (xns_dict, s0) ->
  ids_consistent xns_dict (store s0) ->
  Forall env_ok envs ->
  run_loop xns_dict max_concurrency behavior envs AtLoopHead s0 = Ok (Return s) ->
  execute st node_dict max_concurrency behavior g m envs = Ok (xns_dict, Return s) /\
  nodes (graph s) = [] /\
  forall k h, In (k, h) (futures s) -> fut_done (pool s) h = true.
Proof.
  intros Hwf Hinit Hids Hok Hrun.
  destruct (execute_init_effect _ _ _ _ _ Hinit)
    as (st' & pre & _ & _ & Hg0 & Hf0 & Hp0 & _).
  assert (Hwf0 : wf_graph (graph s0)).
  { eapply subgraph_wf. rewrite Hg0. apply fold_remove_node_subgraph, Hwf. }
  pose proof (@inv_initial xns_dict s0 Hwf0 Hf0 Hids) as Hinv0.
  pose proof (@ps_initial xns_dict s0 Hf0 Hp0 Hids) as Hps0.
  destruct (@run_loop_return _ _ _ _ _ _ _ Hok Hrun) as [Hreach Hn].
  split; [unfold execute; rewrite Hinit; simpl; rewrite Hrun; reflexivity|].
  split; [exact Hn|].
  assert (Hh : held s).
  { apply (held_reaches (g0 := graph s0) (st0 := store s0) Hreach Hinv0 Hps0 I).
    intros k h Hin. simpl in Hin. rewrite Hf0 in Hin. destruct Hin. }
  intros k h Hin. destruct (Hh k h Hin) as [Hd | Hk]; [exact Hd|].
  rewrite Hn in Hk. destruct Hk.
Qed.

(** X9 on the all-children scenario [a -> b -> c] where [b] raises: the
    invocation returns with the futures of [a] and [b] done. *)
Lemma return_means_all_done_witness :
  exists s,
    execute Scenarios.error_store Scenarios.error_dict 1 all_children
      Scenarios.error_graph None Scenarios.error_envs
    = Ok (fst Scenarios.error_init, Return s) /\
    dict_keys (futures s) = ["a"; "b"] /\
    forall k h, In (k, h) (futures s) -> fut_done (pool s) h = true.
Proof.
  assert (Hrun : exists s,
            run_loop (fst Scenarios.error_init) 1 all_children Scenarios.error_envs
              AtLoopHead (snd Scenarios.error_init) = Ok (Return s) /\
            dict_keys (futures s) = ["a"; "b"]).
  { eexists. split; [vm_compute; reflexivity | reflexivity]. }
  destruct Hrun as (s & Hrun & Hkeys).
  destruct (@return_means_all_done Scenarios.error_store Scenarios.error_dict 1
              all_children Scenarios.error_graph None Scenarios.error_envs
              (fst Scenarios.error_init) (snd Scenarios.error_init) s)
    as (Hex & _ & Hdone).
  - apply wf_graph_check; reflexivity.
  - reflexivity.
  - apply ids_consistent_check; reflexivity.
  - unfold Scenarios.error_envs, Scenarios.error_envs_failed. all_env_ok.
  - exact Hrun.
  - exists s. split; [exact Hex|]. split; [exact Hkeys | exact Hdone].
Defined.


(** ** Counting the running futures *)

Lemma count_zero_all_done pool futs :
  get_num_running_threads pool futs = 0 -> all_done pool futs.
Proof.
  unfold get_num_running_threads. intros H k h Hin.
  assert (Hnil : filter (fun future => negb (fut_done pool future)) (dict_values futs) = [])
    by (apply length_zero_iff_nil; lia).
  destruct (fut_done pool h) eqn:Hd; [reflexivity | exfalso].
  assert (Hh : In h (filter (fun future => negb (fut_done pool future)) (dict_values futs))).
  { apply filter_In. split; [eapply in_dict_values; exact Hin | now rewrite Hd]. }
  rewrite Hnil in Hh. destruct Hh.
Qed.

Lemma dict_set_In (V : Type) (d : Dict V) k0 (v : V) k h :
  In (k, h) (dict_set d k0 v) -> (k = k0 /\ h = v) \/ In (k, h) d.
Proof.
  induction d as [|[k1 v1] d IH]; simpl.
  - intros [H | []]. inversion H; auto.
  - destruct (String.eqb k0 k1) eqn:Heq; simpl.
    + intros [H | H]; [inversion H; auto | auto].
    + intros [H | H]; [auto | destruct (IH H); auto].
Qed.

(** X10.  [get_num_running_threads] counts the futures of the table that
    are not done: the count lies between 0 and the size of the table, it is
    0 exactly when every future is done, and a future that finishes never
    raises it. *)
Theorem get_num_running_threads_spec pool pool' futs :
  pool_le pool pool' ->
  0 <= get_num_running_threads pool futs <= Z.of_nat (length futs) /\
  (get_num_running_threads pool futs = 0 <-> all_done pool futs) /\
  get_num_running_threads pool' futs <= get_num_running_threads pool futs.
Proof.
  intros Hle. split; [|split].
  - unfold get_num_running_threads. split; [lia|].
    apply inj_le. etransitivity; [apply filter_length_le|].
    unfold dict_values. now rewrite length_map.
  - split; [apply count_zero_all_done | apply all_done_count].
  - unfold get_num_running_threads. apply inj_le.
    induction (dict_values futs) as [|h l IH]; simpl; [lia|].
    destruct (fut_done pool h) eqn:Hd.
    + rewrite (Hle h Hd). simpl. exact IH.
    + simpl. destruct (fut_done pool' h); simpl; lia.
Qed.

(** X10 on the sequential scenario, before and after [s] finishes. *)
Lemma get_num_running_threads_spec_witness :
  get_num_running_threads (pool (snd Scenarios.seq_at_post_wait))
    (futures (snd Scenarios.seq_at_post_wait)) = 1 /\
  get_num_running_threads
    (pool (observe (Scenarios.finishes 1%nat (Returned NoVal) 5)
             (snd Scenarios.seq_at_post_wait)))
    (futures (snd Scenarios.seq_at_post_wait)) = 0.
Proof.
  destruct (@get_num_running_threads_spec (pool (snd Scenarios.seq_at_post_wait))
              (pool (observe (Scenarios.finishes 1%nat (Returned NoVal) 5)
                       (snd Scenarios.seq_at_post_wait)))
              (futures (snd Scenarios.seq_at_post_wait)))
    as (_ & _ & Hle).
  - apply (quiet_observe (Scenarios.finishes 1%nat (Returned NoVal) 5)
             (snd Scenarios.seq_at_post_wait)).
  - split; reflexivity.
Defined.

(** ** A sequential node is submitted alone *)

(** X11.  The guard of step 4.2: a sequential node goes from the pick to the
    submission only when every future of the table is done, and right after
    its submission its future is the only one that is not done. *)
Theorem sequential_node_submitted_alone xns_dict max_concurrency behavior e e' xn s s'
    pc'' s'' :
  step xns_dict max_concurrency behavior e (AtChosen xn) s = Ok (Continue (AtSubmit xn) s') ->
  is_sequential (snd xn) = true ->
  step xns_dict max_concurrency behavior e' (AtSubmit xn) s' = Ok (Continue pc'' s'') ->
  all_done (pool s') (futures s') /\
  pc'' = AtPostWait xn /\
  forall k h, In (k, h) (futures s'') -> fut_done (pool s'') h = false ->
    k = id (snd xn) /\ h = length (pool s').
Proof.
  intros Hchosen Hseq Hsubmit.
  assert (Hdone : all_done (pool s') (futures s')).
  { simpl in Hchosen. unfold step_chosen in Hchosen. cbv zeta in Hchosen.
    rewrite Hseq in Hchosen. simpl andb in Hchosen.
    destruct (get_num_running_threads (pool (observe e s)) (futures (observe e s)) =? 0)
      eqn:Hc; simpl negb in Hchosen; cbv iota in Hchosen.
    - apply Z.eqb_eq in Hc.
      destruct (_xn_active_in_call _ _ _) as [[|]| |]; simpl in Hchosen;
        try discriminate.
      inversion Hchosen; subst. now apply count_zero_all_done.
    - destruct (get_next_timeout _ _ _ _ _ _); simpl in Hchosen; try discriminate.
      destruct (wait _ _ _ _ _ _) as [[[[d nd] p1] t1]| |]; simpl in Hchosen;
        try discriminate.
      destruct (raise_timeout_error_conditionally _ _ _); simpl in Hchosen;
        discriminate. }
  split; [exact Hdone|].
  simpl in Hsubmit. unfold step_submit in Hsubmit. rewrite Hseq in Hsubmit.
  inversion Hsubmit; subst; clear Hsubmit. split; [reflexivity|]. simpl.
  intros k h Hin Hpend. apply dict_set_In in Hin as [[-> ->] | Hin]; [auto|].
  exfalso. apply Hdone in Hin. apply (@pool_le_app (pool s') [mkFuture (fst xn) Pending]) in Hin.
  congruence.
Qed.

(** X11 on the sequential scenario: [s] is submitted when [a] is done. *)
Lemma sequential_node_submitted_alone_witness :
  fst Scenarios.seq_at_chosen = AtChosen Scenarios.seq_xn /\
  all_done (pool (snd Scenarios.seq_at_submit)) (futures (snd Scenarios.seq_at_submit)) /\
  forall k h, In (k, h) (futures (snd Scenarios.seq_at_post_wait)) ->
    fut_done (pool (snd Scenarios.seq_at_post_wait)) h = false -> k = "s" /\ h = 1%nat.
Proof.
  destruct (@sequential_node_submitted_alone (fst Scenarios.seq_init) 2 strict
              (Scenarios.idle 3) (Scenarios.idle 4) Scenarios.seq_xn
              (snd Scenarios.seq_at_chosen) (snd Scenarios.seq_at_submit)
              (fst Scenarios.seq_at_post_wait) (snd Scenarios.seq_at_post_wait))
    as (Hd & _ & Honly).
  - vm_compute. reflexivity.
  - reflexivity.
  - vm_compute. reflexivity.
  - split; [reflexivity|]. split; [exact Hd | exact Honly].
Defined.

(** ** A working graph without roots *)

Lemma apply_tick_empty t st : apply_tick t ([], st) = ([], st).
Proof.
  unfold apply_tick. induction t as [|[h o] t IH]; simpl; [reflexivity|].
  destruct h; simpl; exact IH.
Qed.

(** X12.  When the working graph left by step 0.2 is not empty and has no
    root (every node has a predecessor, so the graph has a cycle), the first
    iteration waits on the empty set [running]; [wait] returns at once with
    nothing done, and [execute] fails with [TawaziTimeoutError] for no future
    and a timeout of [None], before any node is submitted. *)
Theorem rootless_graph_times_out st node_dict max_concurrency behavior g m xns_dict s0
    e envs :
  execute_init st node_dict max_concurrency g m = Ok (xns_dict, s0) ->
  nodes (graph s0) <> [] -> root_nodes (graph s0) = [] ->
  execute st node_dict max_concurrency behavior g m (e :: envs)
  = Raise (TawaziTimeoutError [] None).
Proof.
  intros Hinit Hne Hroots.
  destruct (execute_init_effect _ _ _ _ _ Hinit)
    as (st' & pre & _ & _ & _ & Hf0 & Hp0 & Hr0 & _ & Hrun0 & Hmc).
  unfold execute. rewrite Hinit. simpl.
  unfold step_loop_head.
  destruct (Nat.eqb (graph_len (graph s0)) 0) eqn:Hlen.
  { apply Nat.eqb_eq, length_zero_iff_nil in Hlen. contradiction. }
  cbv zeta.
  assert (Hobs : observe e s0 = s0).
  { unfold observe. rewrite Hp0, apply_tick_empty, <- Hp0. now destruct s0. }
  rewrite Hobs, Hf0, Hp0, Hr0, Hrun0, Hroots. simpl.
  rewrite orb_true_r. reflexivity.
Qed.

(** X12 on a two-node cycle. *)
Lemma rootless_graph_times_out_witness :
  execute Scenarios.chain_store Scenarios.chain_dict 1 permissive Scenarios.cycle_graph None
    [Scenarios.idle 0] = Raise (TawaziTimeoutError [] None).
Proof.
  apply (@rootless_graph_times_out Scenarios.chain_store Scenarios.chain_dict 1 permissive
           Scenarios.cycle_graph None
           (fst (Scenarios.init_of
                   (execute_init Scenarios.chain_store Scenarios.chain_dict 1
                      Scenarios.cycle_graph None)))
           (snd (Scenarios.init_of
                   (execute_init Scenarios.chain_store Scenarios.chain_dict 1
                      Scenarios.cycle_graph None)))).
  - reflexivity.
  - discriminate.
  - reflexivity.
Defined.

(** ** The wait at saturation *)

(** X13.  The wait of step 6 does not always block at saturation.  The set
    [running] is only pruned by [wait], so it can hold a future that finished
    earlier; when it does, and the number of futures that are not done equals
    [max_concurrency], the wait returns at once with that future: the step
    goes on to the reap step without any running future having finished, and
    a further node can be submitted beyond [max_concurrency]. *)
Theorem saturated_wait_returns_on_finished_future xns_dict max_concurrency e s h nt :
  nodes (graph s) <> [] ->
  get_num_running_threads (pool (observe e s)) (futures s) = max_concurrency ->
  In h (running s) -> fut_done (pool (observe e s)) h = true ->
  get_next_timeout (futures_launch_time s) (pool (observe e s)) (store (observe e s))
    xns_dict (futures s) (monotonic e) = Ok nt ->
  exists s',
    step_loop_head xns_dict max_concurrency e s = Ok (Continue AtReap s') /\
    pool s' = pool (observe e s) /\ futures s' = futures s /\
    get_num_running_threads (pool s') (futures s') = max_concurrency.
Proof.
  intros Hne Hcount Hh Hd Hnt. unfold step_loop_head.
  destruct (Nat.eqb (graph_len (graph s)) 0) eqn:Hlen.
  { apply Nat.eqb_eq, length_zero_iff_nil in Hlen. contradiction. }
  cbv zeta. destruct (observe_fields e s) as (_ & Hf & _ & Hr & Hl & _).
  rewrite Hf, Hr, Hl, Hcount, Z.eqb_refl, Hnt. simpl.
  destruct (@wait_first_immediate (pool (observe e s)) (store (observe e s))
              (running s) nt (during_wait e) h Hh Hd) as (d0 & dl & nd & Hw).
  rewrite Hw. simpl. eexists. split; [reflexivity|]. simpl. auto.
Qed.

(** X13 with two workers: [a] has finished unnoticed, [b] and [c] are
    running; the loop head does not block, and [d] is submitted as a third
    running future. *)
Lemma saturated_wait_returns_on_finished_future_witness :
  reaches (fst Scenarios.busy_init) 2 strict
    (AtLoopHead, snd Scenarios.busy_init) Scenarios.busy_at_head /\
  (exists s',
     step_loop_head (fst Scenarios.busy_init) 2 (Scenarios.idle 3)
       (snd Scenarios.busy_at_head) = Ok (Continue AtReap s') /\
     get_num_running_threads (pool s') (futures s') = 2) /\
  reaches (fst Scenarios.busy_init) 2 strict
    (AtLoopHead, snd Scenarios.busy_init) Scenarios.busy_after /\
  get_num_running_threads (pool (snd Scenarios.busy_after))
    (futures (snd Scenarios.busy_after)) = 3.
Proof.
  split; [|split; [|split]].
  - apply run_loop_reaches with (envs := Scenarios.busy_envs);
      [unfold Scenarios.busy_envs; all_env_ok | vm_compute; reflexivity].
  - destruct (@saturated_wait_returns_on_finished_future (fst Scenarios.busy_init) 2
                (Scenarios.idle 3) (snd Scenarios.busy_at_head) 0%nat None)
      as (s' & Hstep & _ & _ & Hc).
    + discriminate.
    + reflexivity.
    + now left.
    + reflexivity.
    + reflexivity.
    + exists s'. split; assumption.
  - apply run_loop_reaches
      with (envs := Scenarios.busy_envs
                    ++ [Scenarios.idle 3; Scenarios.idle 3; Scenarios.idle 3;
                        Scenarios.idle 3]);
      [unfold Scenarios.busy_envs; simpl app; all_env_ok | vm_compute; reflexivity].
  - reflexivity.
Defined.


(** ** Without pruning every node runs *)

Lemma all_active_sim st st' : store_sim st st' -> all_active st -> all_active st'.
Proof.
  intros Hsim Ha r x' Hx'. destruct (proj2 Hsim r x' Hx') as (x & Hx & Hsame).
  apply (f_equal active) in Hsame. simpl in Hsame. rewrite <- Hsame. exact (Ha r x Hx).
Qed.

Lemma handle_exception_same behavior g pool fut id_ g' :
  behavior <> all_children ->
  handle_exception behavior g pool fut id_ = Ok g' -> g' = g.
Proof.
  intros Hb. unfold handle_exception.
  destruct behavior; step_cases; try congruence; intros H; inversion H; reflexivity.
Qed.

Lemma reap_no_prune behavior pool items : forall g g',
  behavior <> all_children -> reap behavior pool items g = Ok g' ->
  forall k, In k (nodes g) ->
    In k (nodes g') \/ exists h, In (k, h) items /\ fut_done pool h = true.
Proof.
  induction items as [|[id_ fut] items IH]; intros g g' Hb Hreap k Hk; simpl in Hreap.
  - inversion Hreap; subst. now left.
  - destruct (fut_done pool fut && graph_contains g id_) eqn:Hc.
    + apply andb_true_iff in Hc as [Hd _].
      destruct (handle_exception behavior g pool fut id_) as [g1| |] eqn:Hh;
        simpl in Hreap; try discriminate.
      apply (@handle_exception_same _ _ _ _ _ _ Hb) in Hh. subst g1.
      destruct (string_dec k id_) as [-> | Hne].
      * right. exists fut. split; [now left | exact Hd].
      * destruct (IH _ _ Hb Hreap k) as [H | (h & Hin & Hdh)].
        -- apply remove_nodes_nodes. split; [exact Hk|]. intros [H | []]. congruence.
        -- now left.
        -- right. exists h. split; [now right | exact Hdh].
    + destruct (IH _ _ Hb Hreap k Hk) as [H | (h & Hin & Hdh)]; [now left|].
      right. exists h. split; [now right | exact Hdh].
Qed.

Lemma ran_step xns_dict max_concurrency behavior g0 g1 e pc s pc' s' :
  behavior <> all_children ->
  Inv xns_dict g0 pc s -> snapshot pc s -> all_active (store s) -> ran g1 s ->
  step xns_dict max_concurrency behavior e pc s = Ok (Continue pc' s') ->
  ran g1 s'.
Proof.
  intros Hb Hinv Hsnap Hact Hran Hstep.
  assert (Hq : quiet s s' -> ran g1 s').
  { intros (Hg & Hf & Hp & _) k Hk. rewrite Hg, Hf.
    destruct (Hran k Hk) as [H | (h & Hin & Hd)]; [now left | right].
    exists h. split; [exact Hin | now apply Hp]. }
  destruct pc as [| |xn|xn|xn]; simpl in Hstep.
  - apply step_loop_head_effect in Hstep as [_ Hqu]. exact (Hq Hqu).
  - apply step_reap_effect in Hstep as (Hreap & Hf & Hp & _).
    pose proof (quiet_observe e s) as (_ & _ & Hle & _).
    intros k Hk. rewrite Hf, Hp.
    destruct (Hran k Hk) as [H | (h & Hin & Hd)].
    + destruct (@reap_no_prune _ _ _ _ _ Hb Hreap k H) as [H' | (h & Hin & Hd)];
        [now left | right].
      exists h. auto.
    + right. exists h. split; [exact Hin | now apply Hle].
  - apply step_chosen_effect in Hstep
      as [[_ Hqu] | [(_ & Hfalse & _) | [_ ->]]].
    + exact (Hq Hqu).
    + exfalso. simpl in Hsnap. unfold _xn_active_in_call in Hfalse.
      rewrite (Hact _ _ Hsnap) in Hfalse. discriminate.
    + exact (Hq (quiet_observe e s)).
  - pose proof (inv_choice Hinv) as Hc. simpl in Hc.
    apply ready_spec in Hc as [_ Hfresh].
    apply step_submit_effect in Hstep as (_ & Hg & Hf & Hp & _).
    rewrite (@dict_set_fresh Handle _ _ (length (pool s)) Hfresh) in Hf.
    intros k Hk. rewrite Hg, Hf, Hp.
    destruct (Hran k Hk) as [H | (h & Hin & Hd)]; [now left | right].
    exists h. split; [apply in_or_app; now left | now apply pool_le_app].
  - apply step_post_wait_effect in Hstep as [_ Hqu]. exact (Hq Hqu).
Qed.

Lemma ran_reaches xns_dict max_concurrency behavior s0 g1 : forall c,
  behavior <> all_children ->
  reaches xns_dict max_concurrency behavior (AtLoopHead, s0) c ->
  Inv xns_dict (graph s0) AtLoopHead s0 -> all_active (store s0) -> ran g1 s0 ->
  ran g1 (snd c).
Proof.
  intros c Hb Hr Hinv Hact Hran.
  induction Hr as [|c' c'' Hr IH (e & Henv & Hstep)]; [exact Hran|].
  eapply ran_step; [exact Hb | | | | exact IH | exact Hstep].
  - exact (reaches_inv (g0 := graph s0) Hr Hinv).
  - exact (snapshot_reaches Hr).
  - eapply all_active_sim; [exact (reaches_store_sim Hr) | exact Hact].
Qed.

(** X14.  Without pruning every node runs.  When every node is
    unconditionally active and the behavior is not [all_children], a node
    leaves the working graph only in the reap step, with its future done: so
    when [execute] returns, every node that step 0.2 left in the working
    graph has been submitted and its future is done. *)
Theorem return_means_all_nodes_ran st node_dict max_concurrency behavior g m envs
    xns_dict s0 s :
  wf_graph g ->
  execute_init st node_dict max_concurrency g m = Ok (xns_dict, s0) ->
  ids_consistent xns_dict (store s0) ->
  all_active (store s0) ->
  behavior <> all_children ->
  Forall env_ok envs ->
  run_loop xns_dict max_concurrency behavior envs AtLoopHead s0 = Ok (Return s) ->
  forall k, In k (nodes (graph s0)) ->
    exists h, In (k, h) (futures s) /\ fut_done (pool s) h = true.
Proof.
  intros Hwf Hinit Hids Hact Hb Hok Hrun k Hk.
  destruct (execute_init_effect _ _ _ _ _ Hinit)
    as (st' & pre & _ & _ & Hg0 & Hf0 & Hp0 & _).
  assert (Hwf0 : wf_graph (graph s0)).
  { eapply subgraph_wf. rewrite Hg0. apply fold_remove_node_subgraph, Hwf. }
  pose proof (@inv_initial xns_dict s0 Hwf0 Hf0 Hids) as Hinv0.
  destruct (@run_loop_return _ _ _ _ _ _ _ Hok Hrun) as [Hreach Hn].
  assert (Hran : ran (graph s0) s).
  { apply (@ran_reaches xns_dict max_concurrency behavior s0 (graph s0) (AtLoopHead, s)
             Hb Hreach Hinv0 Hact).
    intros k' Hk'. now left. }
  destruct (Hran k Hk) as [H | H]; [|exact H].
  rewrite Hn in H. destruct H.
Qed.

(** A decidable test for [all_active]. *)
Lemma all_active_check st :
  forallb (fun x => match active x with ActiveBool true => true | _ => false end) st = true ->
  all_active st.
Proof.
  intros H r x Hx. apply nth_error_In in Hx.
  apply (proj1 (forallb_forall _ _) H) in Hx.
  destruct (active x) as [[|]|]; [reflexivity | discriminate | discriminate].
Qed.

(** X14 on the sequential scenario under [strict]: [a], [s] and [b] have
    all run when the invocation returns. *)
Lemma return_means_all_nodes_ran_witness :
  exists s,
    run_loop (fst Scenarios.seq_init) 2 strict Scenarios.seq_envs_return AtLoopHead
      (snd Scenarios.seq_init) = Ok (Return s) /\
    forall k, In k ["a"; "s"; "b"] ->
      exists h, In (k, h) (futures s) /\ fut_done (pool s) h = true.
Proof.
  assert (Hrun : exists s,
            run_loop (fst Scenarios.seq_init) 2 strict Scenarios.seq_envs_return AtLoopHead
              (snd Scenarios.seq_init) = Ok (Return s)).
  { eexists. vm_compute. reflexivity. }
  destruct Hrun as (s & Hrun). exists s. split; [exact Hrun|].
  apply (@return_means_all_nodes_ran Scenarios.seq_store Scenarios.seq_dict 2 strict
           Scenarios.seq_graph None Scenarios.seq_envs_return
           (fst Scenarios.seq_init) (snd Scenarios.seq_init) s).
  - apply wf_graph_check; reflexivity.
  - reflexivity.
  - apply ids_consistent_check; reflexivity.
  - apply all_active_check; reflexivity.
  - discriminate.
  - unfold Scenarios.seq_envs_return, Scenarios.seq_envs_overlap,
      Scenarios.seq_envs_submitted. simpl app. all_env_ok.
  - exact Hrun.
Defined.


(** ** The node objects of the caller *)

(** X15.  [execute] leaves the caller's node objects reusable.  With the
    state table built by [copy_non_setup_xns], every future runs either the
    shared object of a setup node or a copy made in step 0.1; so in every
    state that the invocation reaches, each object that existed before the
    call and is not a setup node is exactly as it was, its [result]
    included. *)
Theorem non_setup_objects_untouched st node_dict max_concurrency behavior g
    xns_dict s0 pc s :
  valid_dict st node_dict -> NoDup (dict_keys node_dict) ->
  wf_graph g ->
  execute_init st node_dict max_concurrency g None = Ok (xns_dict, s0) ->
  ids_consistent xns_dict (store s0) ->
  reaches xns_dict max_concurrency behavior (AtLoopHead, s0) (pc, s) ->
  forall r x, deref st r = Some x -> setup x = false -> deref (store s) r = Some x.
Proof.
  intros Hval Hnd Hwf Hinit Hids Hreach r x Hx Hsetup.
  destruct (execute_init_effect _ _ _ _ _ Hinit)
    as (st' & pre & Hcopy & _ & Hg0 & Hf0 & Hp0 & _ & Hst0 & _).
  assert (Hwf0 : wf_graph (graph s0)).
  { eapply subgraph_wf. rewrite Hg0. apply fold_remove_node_subgraph, Hwf. }
  pose proof (@inv_initial xns_dict s0 Hwf0 Hf0 Hids) as Hinv0.
  pose proof (@ps_initial xns_dict s0 Hf0 Hp0 Hids) as Hps0.
  destruct (reaches_ps (g0 := graph s0) (st0 := store s0) Hreach Hinv0 Hps0 I)
    as [Hps _]. simpl in Hps.
  destruct (@copy_non_setup_xns_loop_spec node_dict st [] Hval Hnd)
    as (st2 & d2 & Hloop & (ext & Hext) & Hkeys & _ & Hspec); [intros k _ []|].
  simpl in Hcopy. unfold copy_non_setup_xns in Hcopy. rewrite Hloop in Hcopy.
  injection Hcopy as Est Ed. subst d2. simpl in Hkeys.
  rewrite (@ps_untouched _ _ _ _ _ Hps r).
  - rewrite Hst0, <- Est, Hext. now apply deref_app_old.
  - intros h f Hf Heq. destruct (ps_node Hps h Hf) as (k2 & _ & Hd2).
    assert (Hk2 : In k2 (dict_keys node_dict)).
    { rewrite <- Hkeys. eapply in_dict_keys, dict_get_In; exact Hd2. }
    apply in_dict_keys_inv in Hk2 as (r0 & Hin0).
    destruct (Hval k2 r0 Hin0) as (x0 & Hx0).
    destruct (Hspec k2 r0 x0 Hin0 Hx0) as (r' & Hr' & _ & Hshared & Hfresh).
    rewrite Hd2 in Hr'. inversion Hr'; subst r'. rewrite Heq in *.
    destruct (setup x0) eqn:Hs0.
    + rewrite (Hshared eq_refl) in Hx. rewrite Hx0 in Hx. inversion Hx; subst. congruence.
    + specialize (Hfresh eq_refl).
      assert (r < length st)%nat by (apply nth_error_Some; unfold deref in Hx; congruence).
      lia.
Qed.

(** X15 on a table with the setup node [cfg] and the ordinary node [work],
    both run to completion: the caller's object of [work] still has no
    result, the copy has it, and the shared object of [cfg] has its own. *)
Lemma non_setup_objects_untouched_witness :
  reaches (fst Scenarios.setup_init) 1 strict
    (AtLoopHead, snd Scenarios.setup_init) Scenarios.setup_done /\
  deref (store (snd Scenarios.setup_done)) 1%nat = Some (Scenarios.plain "work" 0) /\
  option_map result (deref (store (snd Scenarios.setup_done)) 2%nat) = Some (PyVal true 7) /\
  option_map result (deref (store (snd Scenarios.setup_done)) 0%nat) = Some (PyVal true 8).
Proof.
  assert (Hreach : reaches (fst Scenarios.setup_init) 1 strict
            (AtLoopHead, snd Scenarios.setup_init)
            (fst Scenarios.setup_done, snd Scenarios.setup_done)).
  { apply run_loop_reaches with (envs := Scenarios.setup_envs);
      [all_env_ok | vm_compute; reflexivity]. }
  split; [exact Hreach|]. split; [|split; reflexivity].
  apply (@non_setup_objects_untouched Scenarios.setup_store Scenarios.setup_dict 1 strict
           Scenarios.setup_graph (fst Scenarios.setup_init) (snd Scenarios.setup_init)
           (fst Scenarios.setup_done) (snd Scenarios.setup_done)).
  - intros k r [H | [H | []]]; inversion H; subst; eexists; reflexivity.
  - repeat constructor; simpl; intuition discriminate.
  - apply wf_graph_check; reflexivity.
  - reflexivity.
  - apply ids_consistent_check; reflexivity.
  - exact Hreach.
  - reflexivity.
  - reflexivity.
Defined.


(** ** A run to the normal return, under every behavior *)

Lemma complete_no_failure pool st h o pool' st' :
  (exists v, o = Returned v) ->
  complete (pool, st) (h, o) = (pool', st') -> no_failure pool -> no_failure pool'.
Proof.
  intros (v & ->) Hc Hno. simpl in Hc.
  destruct (nth_error pool h) as [f|] eqn:Hf; [|inversion Hc; subst; exact Hno].
  destruct (fut_state f) eqn:Hs; inversion Hc; subst; clear Hc; [|exact Hno].
  intros h' f' x Hf' Hs'.
  destruct (@pool_finish_inv _ _ _ _ _ Hf') as (f0 & Hf0 & _ & Hother & Hsame).
  destruct (Nat.eq_dec h' h) as [Heq | Hne].
  - rewrite (Hsame Heq) in Hs'. discriminate.
  - rewrite (Hother Hne) in Hs'. exact (Hno h' f0 x Hf0 Hs').
Qed.

Lemma apply_tick_no_failure t : forall pool st pool' st',
  values_only t -> apply_tick t (pool, st) = (pool', st') ->
  no_failure pool -> no_failure pool'.
Proof.
  unfold apply_tick. induction t as [|[h o] t IH]; intros pool st pool' st' Hv Ht Hno.
  - inversion Ht; subst. exact Hno.
  - change (fold_left complete ((h, o) :: t) (pool, st))
      with (fold_left complete t (complete (pool, st) (h, o))) in Ht.
    destruct (complete (pool, st) (h, o)) as [p1 s1] eqn:Hc.
    eapply IH; [|exact Ht|].
    + intros h' o' Hin. apply (Hv h' o'). now right.
    + eapply complete_no_failure; [|exact Hc | exact Hno]. apply (Hv h o). now left.
Qed.

Lemma observe_no_failure e s :
  values_only (arrived e) -> no_failure (pool s) -> no_failure (pool (observe e s)).
Proof.
  intros Hv Hno. destruct (observe_fields e s) as (_ & _ & _ & _ & _ & _ & H).
  symmetry in H. eapply apply_tick_no_failure; eassumption.
Qed.

Lemma wait_no_failure pool st fs rw nt during done_ not_done pool' st' :
  values_only during ->
  wait pool st fs rw nt during = Ok (done_, not_done, pool', st') ->
  no_failure pool -> no_failure pool'.
Proof.
  intros Hv Hw Hno. unfold wait in Hw.
  destruct (match rw with FIRST_COMPLETED => _ | ALL_COMPLETED => _ end).
  - inversion Hw; subst. exact Hno.
  - destruct (apply_tick during (pool, st)) as [p1 s1] eqn:Ht.
    pose proof (@apply_tick_no_failure _ _ _ _ _ Hv Ht Hno) as Hno1.
    destruct (match rw with FIRST_COMPLETED => _ | ALL_COMPLETED => _ end);
      [inversion Hw; subst; exact Hno1|].
    destruct nt; [inversion Hw; subst; exact Hno1 | discriminate].
Qed.

Lemma step_no_failure xns_dict max_concurrency behavior e pc s pc' s' :
  values_only (arrived e) -> values_only (during_wait e) -> no_failure (pool s) ->
  step xns_dict max_concurrency behavior e pc s = Ok (Continue pc' s') ->
  no_failure (pool s').
Proof.
  intros Ha Hd Hno.
  pose proof (@observe_no_failure e s Ha Hno) as Hobs.
  destruct pc as [| |xn|xn|xn]; simpl.
  - unfold step_loop_head. destruct (Nat.eqb _ 0); [discriminate|]. cbv zeta.
    destruct (_ || _).
    + destruct (get_next_timeout _ _ _ _ _ _); simpl; try discriminate.
      destruct (wait _ _ _ _ _ _) as [[[[d nd] p1] t1]| |] eqn:Hw; simpl; try discriminate.
      destruct (raise_timeout_error_conditionally _ _ _); simpl; try discriminate.
      intros H; inversion H; subst; simpl. eapply wait_no_failure; eassumption.
    + intros H; inversion H; subst. exact Hobs.
  - intros H. apply step_reap_effect in H as (_ & _ & Hp & _). now rewrite Hp.
  - unfold step_chosen. cbv zeta. destruct (_ && _).
    + destruct (get_next_timeout _ _ _ _ _ _); simpl; try discriminate.
      destruct (wait _ _ _ _ _ _) as [[[[d nd] p1] t1]| |] eqn:Hw; simpl; try discriminate.
      destruct (raise_timeout_error_conditionally _ _ _); simpl; try discriminate.
      intros H; inversion H; subst; simpl. eapply wait_no_failure; eassumption.
    + destruct (_xn_active_in_call _ _ _) as [[|]| |]; simpl; try discriminate;
        intros H; inversion H; subst; simpl; exact Hobs.
  - intros H. apply step_submit_effect in H as (_ & _ & _ & Hp & _). rewrite Hp.
    intros h f x Hf Hs. apply nth_error_snoc in Hf as [Hf | [_ ->]];
      [exact (Hno h f x Hf Hs) | discriminate].
  - unfold step_post_wait. cbv zeta.
    destruct (get_next_timeout _ _ _ _ _ _); simpl; try discriminate.
    destruct (wait _ _ _ _ _ _) as [[[[d nd] p1] t1]| |] eqn:Hw; simpl; try discriminate.
    destruct (raise_timeout_error_conditionally _ _ _); simpl; try discriminate.
    intros H; inversion H; subst; simpl. eapply wait_no_failure; eassumption.
Qed.

Lemma finish_all_values s :
  values_only (arrived (finish_all s)) /\ values_only (during_wait (finish_all s)).
Proof.
  split; intros h o Hin; simpl in Hin; [|destruct Hin].
  apply in_map_iff in Hin as (h' & Heq & _). inversion Heq; subst. eauto.
Qed.

Lemma step_no_failure_eq xns_dict max_concurrency behavior behavior' e pc s :
  no_failure (pool (observe e s)) ->
  step xns_dict max_concurrency behavior e pc s
  = step xns_dict max_concurrency behavior' e pc s.
Proof.
  intros Hno. destruct pc as [| |xn|xn|xn]; try reflexivity.
  simpl. unfold step_reap. cbv zeta.
  now rewrite (@reap_no_failure behavior behavior'
                 (pool (observe e s)) (futures (observe e s)) (graph (observe e s)) Hno).
Qed.

Lemma prompt_run_returns_any xns_dict max_concurrency behavior g0 :
  0 < max_concurrency -> acyclic g0 ->
  forall n pc s, (work_left pc s <= n)%nat ->
    Inv xns_dict g0 pc s -> LInv xns_dict pc s -> RInv s ->
    covers xns_dict (store s) (graph s) -> no_failure (pool s) ->
    exists envs s_f, Forall env_ok envs /\
      run_loop xns_dict max_concurrency behavior envs pc s = Ok (Return s_f).
Proof.
  intros Hmc Hacyc. induction n as [|n IH]; intros pc s Hn Hinv Hl Hrinv Hcov Hno;
    destruct (finish_all_values s) as [Hva Hvd];
    pose proof (@step_no_failure_eq xns_dict max_concurrency behavior all_children
                  (finish_all s) pc s (@observe_no_failure (finish_all s) s Hva Hno)) as Heq;
    destruct (prompt_progress Hmc Hacyc Hinv Hl Hrinv Hcov)
      as [Hret | (pc' & s' & Hstep & Hdec)];
    rewrite <- Heq in *;
    try (exists [finish_all s], s; split;
           [constructor; [apply finish_all_ok | constructor]
           | simpl run_loop; rewrite Hret; reflexivity]).
  - destruct Hdec as [Hlt | [-> Hnil]]; [lia|].
    exists [finish_all s; finish_all s'], s'. split.
    + constructor; [apply finish_all_ok|]. constructor; [apply finish_all_ok | constructor].
    + simpl run_loop. rewrite Hstep. simpl. unfold step_loop_head, graph_len.
      now rewrite Hnil.
  - destruct Hdec as [Hlt | [-> Hnil]].
    + pose proof (finish_all_ok s) as Henv.
      destruct (IH pc' s') as (envs & s_f & Hok & Hrun).
      * lia.
      * eapply step_inv; eassumption.
      * eapply linv_step; eassumption.
      * eapply step_rinv; eassumption.
      * eapply covers_evolves; [| |exact Hcov].
        -- eapply step_store_sim; exact Hstep.
        -- eapply step_mono; eassumption.
      * eapply step_no_failure; eassumption.
      * exists (finish_all s :: envs), s_f. split; [now constructor|].
        simpl run_loop. rewrite Hstep. exact Hrun.
    + exists [finish_all s; finish_all s'], s'. split.
      * constructor; [apply finish_all_ok|]. constructor; [apply finish_all_ok | constructor].
      * simpl run_loop. rewrite Hstep. simpl. unfold step_loop_head, graph_len.
        now rewrite Hnil.
Qed.

(** X16.  [execute] can return under every behavior.  For an acyclic graph
    without repeated ids, a state table that has every node of the graph and
    in which every [active] reference names a node, and a positive
    [max_concurrency], there are inputs of the environment (the workers
    return values before the coordinator looks at them) for which the
    invocation returns the state table normally, whatever the behavior. *)
Theorem execute_can_return st node_dict max_concurrency behavior g m xns_dict s0 :
  wf_graph g -> acyclic g -> NoDup (nodes g) ->
  execute_init st node_dict max_concurrency g m = Ok (xns_dict, s0) ->
  ids_consistent xns_dict (store s0) ->
  actives_valid xns_dict (store s0) ->
  exists envs s, Forall env_ok envs /\
    execute st node_dict max_concurrency behavior g m envs = Ok (xns_dict, Return s).
Proof.
  intros Hwf Hacyc Hnd Hinit Hids Hact.
  destruct (execute_init_effect _ _ _ _ _ Hinit)
    as (st' & pre & _ & _ & Hg0 & Hf0 & Hp0 & Hr0 & _ & Hrun0 & Hmc).
  assert (Hsub : subgraph (graph s0) g)
    by (rewrite Hg0; apply fold_remove_node_subgraph, Hwf).
  pose proof (subgraph_wf Hsub) as Hwf0.
  pose proof (acyclic_subgraph Hsub Hacyc) as Hacyc0.
  assert (Hnd0 : NoDup (nodes (graph s0)))
    by (rewrite Hg0; apply fold_remove_node_nodup, Hnd).
  destruct (@prompt_run_returns_any xns_dict max_concurrency behavior (graph s0) Hmc Hacyc0
              (work_left AtLoopHead s0) AtLoopHead s0 (le_n _))
    as (envs & s & Hok & Hrun).
  - exact (@inv_initial xns_dict s0 Hwf0 Hf0 Hids).
  - exact (@linv_initial xns_dict s0 Hwf0 Hacyc0 Hnd0 Hf0 Hrun0 Hact).
  - exact (rinv_initial _ Hf0 Hr0).
  - exact (@execute_init_covers _ _ _ _ _ _ _ Hwf Hinit).
  - rewrite Hp0. intros h f x Hf. destruct h; discriminate.
  - exists envs, s. split; [exact Hok|].
    unfold execute. rewrite Hinit. simpl. rewrite Hrun. reflexivity.
Qed.

(** X16 on the conditional gate, under a behavior that [handle_exception]
    does not know. *)
Lemma execute_can_return_witness :
  exists envs s, Forall env_ok envs /\
    execute Scenarios.gate_store Scenarios.gate_dict 1 (unknown_strategy "retry")
      Scenarios.gate_graph None envs = Ok (fst Scenarios.gate_init, Return s).
Proof.
  apply (@execute_can_return Scenarios.gate_store Scenarios.gate_dict 1
           (unknown_strategy "retry") Scenarios.gate_graph None
           (fst Scenarios.gate_init) (snd Scenarios.gate_init)).
  - apply wf_graph_check; reflexivity.
  - exists (fun k => if String.eqb k "g" then 0%nat
                     else if String.eqb k "x" then 1%nat else 2%nat).
    intros p m [H | [H | []]]; inversion H; simpl; lia.
  - repeat constructor; simpl; intuition discriminate.
  - reflexivity.
  - apply ids_consistent_check; reflexivity.
  - apply actives_valid_check; reflexivity.
Defined.


(** ** Where the loop can block *)







(** ** [get_next_timeout] and missing keys *)

Lemma get_next_timeout_loop_known_prefix flt p st xns_dict pre : forall rest acc,
  (forall k h, In (k, h) pre -> fut_done p h = false ->
     (exists launch_time, dict_get flt k = Some launch_time) /\
     (exists x, xn_item st xns_dict k = Ok x)) ->
  exists acc',
    get_next_timeout_loop flt p st xns_dict (pre ++ rest) acc
    = get_next_timeout_loop flt p st xns_dict rest acc'.
Proof.
  induction pre as [|[k h] pre IH]; intros rest acc Hk; simpl; [eauto|].
  assert (Hk' : forall k0 h0, In (k0, h0) pre -> fut_done p h0 = false ->
            (exists launch_time, dict_get flt k0 = Some launch_time) /\
            (exists x, xn_item st xns_dict k0 = Ok x))
    by (intros k0 h0 Hin; apply (Hk k0 h0); now right).
  destruct (fut_done p h) eqn:Hd; simpl; [apply IH; exact Hk'|].
  destruct (Hk k h (or_introl eq_refl) Hd) as [(lt & Hl) (x & Hx)].
  unfold dict_item. rewrite Hl. simpl. rewrite Hx. simpl.
  destruct (timeout x); apply IH; exact Hk'.
Qed.

(** X18.  [get_next_timeout] only looks up the futures that are not done.  A
    done future may be missing from [futures_launch_time]; the first future
    of the table that is not done and has no launch time makes the call fail
    with [KeyError] for its id. *)
Theorem get_next_timeout_missing_launch_time flt pool st xns_dict pre k h post now :
  (forall k' h', In (k', h') pre -> fut_done pool h' = false ->
     (exists launch_time, dict_get flt k' = Some launch_time) /\
     (exists x, xn_item st xns_dict k' = Ok x)) ->
  fut_done pool h = false -> dict_get flt k = None ->
  get_next_timeout flt pool st xns_dict (pre ++ (k, h) :: post) now = Raise (KeyError k).
Proof.
  intros Hpre Hd Hk. unfold get_next_timeout.
  destruct (@get_next_timeout_loop_known_prefix flt pool st xns_dict pre
              ((k, h) :: post) Infinity Hpre) as (acc' & ->).
  simpl. rewrite Hd. simpl. unfold dict_item. rewrite Hk. reflexivity.
Qed.

(** X18 on a table of two futures: the first is done and unknown to
    [futures_launch_time], the second is pending and unknown too. *)
Lemma get_next_timeout_missing_launch_time_witness :
  get_next_timeout [] [mkFuture 0%nat (Finished (Returned NoVal)); mkFuture 1%nat Pending]
    Scenarios.chain_store Scenarios.chain_dict [("a", 0%nat); ("b", 1%nat)] 3
  = Raise (KeyError "b").
Proof.
  apply (@get_next_timeout_missing_launch_time []
           [mkFuture 0%nat (Finished (Returned NoVal)); mkFuture 1%nat Pending]
           Scenarios.chain_store Scenarios.chain_dict [("a", 0%nat)] "b" 1%nat [] 3).
  - intros k' h' [H | []]. inversion H; subst. discriminate.
  - reflexivity.
  - reflexivity.
Defined.


(** ** Timeout errors need a timeout *)

Lemma no_timeouts_sim st st' : store_sim st st' -> no_timeouts st -> no_timeouts st'.
Proof.
  intros Hsim Hn r x' Hx'. destruct (proj2 Hsim r x' Hx') as (x & Hx & Hsame).
  apply (f_equal timeout) in Hsame. simpl in Hsame. rewrite <- Hsame. exact (Hn r x Hx).
Qed.

Lemma get_next_timeout_no_timeouts flt p st xns_dict items now nt :
  no_timeouts st -> get_next_timeout flt p st xns_dict items now = Ok nt -> nt = None.
Proof.
  intros Hn. unfold get_next_timeout.
  assert (H : forall acc r, get_next_timeout_loop flt p st xns_dict items acc = Ok r ->
                            r = acc).
  { induction items as [|[k h] items IH]; intros acc r; simpl; [congruence|].
    destruct (negb (fut_done p h)); [|apply IH].
    unfold dict_item, xn_item, dict_item.
    destruct (dict_get flt k); simpl; [|discriminate].
    destruct (dict_get xns_dict k) as [r0|]; simpl; [|discriminate].
    destruct (deref st r0) as [x|] eqn:Hx; simpl; [|discriminate].
    rewrite (Hn r0 x Hx). apply IH. }
  destruct (get_next_timeout_loop flt p st xns_dict items Infinity) as [r| |] eqn:Hl;
    simpl; try discriminate.
  rewrite (H _ _ Hl). congruence.
Qed.

Lemma wait_nothing_done pool st fs rw nt during not_done pool' st' h :
  wait pool st fs rw nt during = Ok ([], not_done, pool', st') -> In h fs ->
  exists t, nt = Some t.
Proof.
  intros Hw Hin. apply (proj2 (to_set_In fs h)) in Hin.
  assert (Hlen : forall p1, filter (fut_done p1) (to_set fs) = [] ->
            Nat.eqb (length (filter (fut_done p1) (to_set fs))) (length (to_set fs)) = false).
  { intros p1 ->. simpl. destruct (to_set fs); [destruct Hin | reflexivity]. }
  revert Hw. unfold wait.
  destruct (match rw with FIRST_COMPLETED => _ | ALL_COMPLETED => _ end) eqn:Him.
  - intros Hw. exfalso. inversion Hw as [[Hd Hnd Hp Hs]]. pose proof (Hlen pool Hd) as Hl.
    destruct rw; [rewrite Hl, Hd in Him; simpl in Him; discriminate | congruence].
  - clear Him. destruct (apply_tick during (pool, st)) as [p1 s1].
    destruct (match rw with FIRST_COMPLETED => _ | ALL_COMPLETED => _ end) eqn:Hsat.
    + intros Hw. exfalso. inversion Hw as [[Hd Hnd Hp Hs]]. pose proof (Hlen p1 Hd) as Hl.
      destruct rw; [rewrite Hd in Hsat; simpl in Hsat; discriminate | congruence].
    + destruct nt; [eauto | discriminate].
Qed.

Lemma count_nonzero_pending pool futs :
  get_num_running_threads pool futs <> 0 ->
  exists k h, In (k, h) futs /\ fut_done pool h = false.
Proof.
  unfold get_num_running_threads. induction futs as [|[k h] futs IH]; simpl; [lia|].
  destruct (fut_done pool h) eqn:Hd; simpl.
  - intros H. destruct (IH H) as (k' & h' & Hin & Hd'). exists k', h'. auto.
  - intros _. exists k, h. auto.
Qed.

(** A timeout error comes from a wait that came back with nothing done. *)
Lemma step_timeout_error_inv xns_dict max_concurrency behavior e pc s r nt :
  step xns_dict max_concurrency behavior e pc s = Raise (TawaziTimeoutError r nt) ->
  get_next_timeout (futures_launch_time s) (pool (observe e s)) (store (observe e s))
    xns_dict (futures s) (monotonic e) = Ok nt /\
  exists fs rw p' st',
    wait (pool (observe e s)) (store (observe e s)) fs rw nt (during_wait e)
      = Ok ([], r, p', st') /\
    ((pc = AtLoopHead /\ fs = running s /\ nodes (graph s) <> [] /\
      (get_num_running_threads (pool (observe e s)) (futures s) = max_concurrency \/
       runnable_xns_ids s = [])) \/
     (exists xn, pc = AtChosen xn /\ fs = running s /\
        get_num_running_threads (pool (observe e s)) (futures s) <> 0) \/
     (exists xn, pc = AtPostWait xn /\ fs = dict_values (futures s))).
Proof.
  intros Hstep. destruct (observe_fields e s) as (Hg & Hf & _ & Hr & Hl & Hrun & _).
  destruct (step_raise_cases _ _ _ _ _ _ Hstep) as [(key & Hk) | [[Hpc _] | [-> Hreap]]];
    [discriminate | |].
  2:{ apply reap_raise in Hreap as (x & [[_ H] | (name & _ & H)]); discriminate. }
  destruct pc as [| |xn|xn|xn]; simpl in Hstep; [|congruence| | |].
  - unfold step_loop_head in Hstep. cbv zeta in Hstep.
    destruct (Nat.eqb (graph_len (graph s)) 0) eqn:Hlen; [discriminate|].
    rewrite Hf, Hr, Hl, Hrun in Hstep.
    destruct (_ || _) eqn:Hc; [|discriminate].
    destruct (get_next_timeout _ _ _ _ _ _) as [nt0| |] eqn:Hnt; simpl in Hstep;
      try discriminate;
      [|exfalso; inversion Hstep; subst;
        apply get_next_timeout_raise in Hnt as (key & Hk); discriminate].
    destruct (wait _ _ _ _ _ _) as [[[[d nd] p1] t1]| |] eqn:Hw; simpl in Hstep;
      try discriminate; [|exfalso; exact (wait_no_raise _ _ _ _ _ _ Hw)].
    destruct d; simpl in Hstep; [|discriminate]. inversion Hstep; subst.
    split; [reflexivity|]. exists (running s), FIRST_COMPLETED, p1, t1.
    split; [exact Hw|]. left. split; [reflexivity|]. split; [reflexivity|]. split.
    + intros Hnil. unfold graph_len in Hlen. rewrite Hnil in Hlen. discriminate.
    + apply orb_true_iff in Hc as [Hc | Hc]; [left; now apply Z.eqb_eq|right].
      apply Z.eqb_eq in Hc. apply length_zero_iff_nil. lia.
  - unfold step_chosen in Hstep. cbv zeta in Hstep. rewrite Hf, Hr, Hl in Hstep.
    destruct (_ && _) eqn:Hc.
    + destruct (get_next_timeout _ _ _ _ _ _) as [nt0| |] eqn:Hnt; simpl in Hstep;
        try discriminate;
        [|exfalso; inversion Hstep; subst;
          apply get_next_timeout_raise in Hnt as (key & Hk); discriminate].
      destruct (wait _ _ _ _ _ _) as [[[[d nd] p1] t1]| |] eqn:Hw; simpl in Hstep;
        try discriminate; [|exfalso; exact (wait_no_raise _ _ _ _ _ _ Hw)].
      destruct d; simpl in Hstep; [|discriminate]. inversion Hstep; subst.
      split; [reflexivity|]. exists (running s), FIRST_COMPLETED, p1, t1.
      split; [exact Hw|]. right; left. exists xn. split; [reflexivity|].
      split; [reflexivity|].
      apply andb_true_iff in Hc as [_ Hc]. apply negb_true_iff, Z.eqb_neq in Hc. exact Hc.
    + destruct (_xn_active_in_call _ _ _) as [[|]| |] eqn:Ha; simpl in Hstep;
        try discriminate.
      inversion Hstep; subst. apply _xn_active_in_call_raise in Ha as (key & Hk).
      discriminate.
  - unfold step_submit in Hstep. destruct (is_sequential _); discriminate.
  - unfold step_post_wait in Hstep. cbv zeta in Hstep. rewrite Hf, Hl in Hstep.
    destruct (get_next_timeout _ _ _ _ _ _) as [nt0| |] eqn:Hnt; simpl in Hstep;
      try discriminate;
      [|exfalso; inversion Hstep; subst;
        apply get_next_timeout_raise in Hnt as (key & Hk); discriminate].
    destruct (wait _ _ _ _ _ _) as [[[[d nd] p1] t1]| |] eqn:Hw; simpl in Hstep;
      try discriminate; [|exfalso; exact (wait_no_raise _ _ _ _ _ _ Hw)].
    destruct d; simpl in Hstep; [|discriminate]. inversion Hstep; subst.
    split; [reflexivity|]. exists (dict_values (futures s)), ALL_COMPLETED, p1, t1.
    split; [exact Hw|]. right; right. exists xn. auto.
Qed.

(** X19.  Timeout errors need a timeout.  On an acyclic graph, when no node
    of the state table has a [timeout], no iteration of the loop raises
    [TawaziTimeoutError]: every wait of the loop is on at least one future,
    and without a timeout it only comes back with a finished one. *)
Theorem no_timeout_error_without_timeouts st node_dict max_concurrency behavior g m
    xns_dict s0 pc s e r nt :
  wf_graph g -> acyclic g -> NoDup (nodes g) ->
  execute_init st node_dict max_concurrency g m = Ok (xns_dict, s0) ->
  ids_consistent xns_dict (store s0) ->
  actives_valid xns_dict (store s0) ->
  no_timeouts (store s0) ->
  reaches xns_dict max_concurrency behavior (AtLoopHead, s0) (pc, s) ->
  step xns_dict max_concurrency behavior e pc s <> Raise (TawaziTimeoutError r nt).
Proof.
  intros Hwf Hacyc Hnd Hinit Hids Hact Hnt Hreach Hstep.
  destruct (execute_init_effect _ _ _ _ _ Hinit)
    as (st' & pre & _ & _ & Hg0 & Hf0 & Hp0 & Hr0 & _ & Hrun0 & Hmc).
  assert (Hsub : subgraph (graph s0) g)
    by (rewrite Hg0; apply fold_remove_node_subgraph, Hwf).
  pose proof (subgraph_wf Hsub) as Hwf0.
  pose proof (acyclic_subgraph Hsub Hacyc) as Hacyc0.
  assert (Hnd0 : NoDup (nodes (graph s0)))
    by (rewrite Hg0; apply fold_remove_node_nodup, Hnd).
  pose proof (@inv_initial xns_dict s0 Hwf0 Hf0 Hids) as Hinv0.
  pose proof (linv_reaches (g0 := graph s0) Hreach Hacyc0 Hinv0
                (@linv_initial xns_dict s0 Hwf0 Hacyc0 Hnd0 Hf0 Hrun0 Hact)) as Hl.
  simpl in Hl.
  pose proof (reaches_rinv (g0 := graph s0) Hreach Hinv0 (rinv_initial _ Hf0 Hr0))
    as Hrinv. simpl in Hrinv.
  assert (Hnts : no_timeouts (store (observe e s))).
  { eapply no_timeouts_sim; [|exact Hnt]. eapply store_sim_trans.
    - exact (reaches_store_sim Hreach).
    - apply (quiet_observe e s). }
  destruct (@step_timeout_error_inv _ _ _ _ _ _ _ _ Hstep)
    as (Hgnt & fs & rw & p' & st2 & Hw & Hcase).
  apply (@get_next_timeout_no_timeouts _ _ _ _ _ _ _ Hnts) in Hgnt. subst nt.
  assert (Hpend : get_num_running_threads (pool (observe e s)) (futures s) <> 0 ->
            exists h, In h (running s)).
  { intros Hc. destruct (@count_nonzero_pending _ _ Hc) as (k & h & Hin & Hd).
    exists h. apply (rinv_pending Hrinv k h Hin).
    destruct (fut_done (pool s) h) eqn:Hd0; [|reflexivity].
    apply (proj1 (observe_evolves e s)) in Hd0. congruence. }
  assert (Hex : exists h, In h fs).
  { destruct Hcase as [(-> & -> & Hne & [Hc | Hnil]) | [(xn & -> & -> & Hc)
                     | (xn & -> & ->)]].
    - apply Hpend. lia.
    - destruct (linv_pc Hl Hnil Hne) as (k & h & Hin & Hd).
      exists h. exact (rinv_pending Hrinv k h Hin Hd).
    - apply Hpend. exact Hc.
    - destruct (linv_pc Hl) as [_ Hk]. apply in_dict_keys_inv in Hk as (h & Hin).
      exists h. eapply in_dict_values; exact Hin. }
  destruct Hex as (h & Hin).
  destruct (@wait_nothing_done _ _ _ _ _ _ _ _ _ _ Hw Hin) as (t & Ht). discriminate.
Qed.

(** A decidable test for [no_timeouts]. *)
Lemma no_timeouts_check st :
  forallb (fun x => match timeout x with None => true | Some _ => false end) st = true ->
  no_timeouts st.
Proof.
  intros H r x Hx. apply nth_error_In in Hx.
  apply (proj1 (forallb_forall _ _) H) in Hx.
  destruct (timeout x); [discriminate | reflexivity].
Qed.

(** X19 on the chain: [a] is running without a timeout; the loop head
    waits, and does not fail with a timeout error. *)
Lemma no_timeout_error_without_timeouts_witness :
  reaches (fst Scenarios.chain_init) 1 strict
    (AtLoopHead, snd Scenarios.chain_init) Scenarios.chain_at_head /\
  step (fst Scenarios.chain_init) 1 strict (Scenarios.idle 1)
    (fst Scenarios.chain_at_head) (snd Scenarios.chain_at_head)
  <> Raise (TawaziTimeoutError [0%nat] None).
Proof.
  assert (Hreach : reaches (fst Scenarios.chain_init) 1 strict
            (AtLoopHead, snd Scenarios.chain_init)
            (fst Scenarios.chain_at_head, snd Scenarios.chain_at_head)).
  { apply run_loop_reaches with (envs := firstn 4 Scenarios.chain_envs);
      [simpl firstn; all_env_ok | vm_compute; reflexivity]. }
  split; [exact Hreach|].
  apply (@no_timeout_error_without_timeouts Scenarios.chain_store Scenarios.chain_dict 1
           strict Scenarios.chain_graph None (fst Scenarios.chain_init)
           (snd Scenarios.chain_init) (fst Scenarios.chain_at_head)
           (snd Scenarios.chain_at_head) (Scenarios.idle 1) [0%nat] None).
  - apply wf_graph_check; reflexivity.
  - exists (fun k => if String.eqb k "a" then 0%nat else 1%nat).
    intros p m [H | []]; inversion H; simpl; lia.
  - repeat constructor; simpl; intuition discriminate.
  - reflexivity.
  - apply ids_consistent_check; reflexivity.
  - apply actives_valid_check; reflexivity.
  - apply no_timeouts_check. reflexivity.
  - exact Hreach.
Defined.


(** ** Entries of the tables are kept *)

Lemma step_keeps_entries xns_dict max_concurrency behavior g0 e pc s pc' s' :
  Inv xns_dict g0 pc s ->
  step xns_dict max_concurrency behavior e pc s = Ok (Continue pc' s') ->
  forall k h, In (k, h) (futures s) ->
    In (k, h) (futures s') /\
    dict_get (futures_launch_time s') k = dict_get (futures_launch_time s) k.
Proof.
  intros Hinv Hstep k h Hin.
  pose proof (step_launch_time _ _ _ _ _ _ Hstep) as Hlt.
  destruct (futures_change_only_at_submit _ _ _ _ _ _ Hstep) as [Hf | (xn & -> & Hf)].
  - rewrite Hf. split; [exact Hin|].
    destruct pc as [| |xn|xn|xn]; try (now rewrite Hlt).
    exfalso. pose proof (inv_choice Hinv) as Hc. simpl in Hc.
    apply ready_spec in Hc as [_ Hfresh].
    simpl in Hstep. apply step_submit_effect in Hstep as (_ & _ & Hf' & _).
    rewrite (@dict_set_fresh Handle _ _ (length (pool s)) Hfresh) in Hf'.
    rewrite Hf in Hf'. apply (f_equal (@length _)) in Hf'.
    rewrite length_app in Hf'. simpl in Hf'. lia.
  - pose proof (inv_choice Hinv) as Hc. simpl in Hc.
    apply ready_spec in Hc as [_ Hfresh].
    rewrite (@dict_set_fresh Handle _ _ (length (pool s)) Hfresh) in Hf.
    split; [rewrite Hf; apply in_or_app; now left|].
    rewrite Hlt. apply dict_get_set_other. intros ->. apply Hfresh.
    eapply in_dict_keys; exact Hin.
Qed.

(** X20.  A submitted node keeps its future and its launch time: once
    [futures[id]] and [futures_launch_time[id]] are written at the
    submission, no later iteration changes or removes them, so the deadline
    [launch_time + timeout] of a running node never moves. *)
Theorem submitted_entries_are_kept st node_dict max_concurrency behavior g m
    xns_dict s0 pc s pc' s' :
  wf_graph g ->
  execute_init st node_dict max_concurrency g m = Ok (xns_dict, s0) ->
  ids_consistent xns_dict (store s0) ->
  reaches xns_dict max_concurrency behavior (AtLoopHead, s0) (pc, s) ->
  reaches xns_dict max_concurrency behavior (pc, s) (pc', s') ->
  forall k h, In (k, h) (futures s) ->
    In (k, h) (futures s') /\
    dict_get (futures_launch_time s') k = dict_get (futures_launch_time s) k.
Proof.
  intros Hwf Hinit Hids Hreach Hreach'.
  destruct (execute_init_effect _ _ _ _ _ Hinit)
    as (st' & pre & _ & _ & Hg0 & Hf0 & _).
  assert (Hwf0 : wf_graph (graph s0)).
  { eapply subgraph_wf. rewrite Hg0. apply fold_remove_node_subgraph, Hwf. }
  pose proof (@inv_initial xns_dict s0 Hwf0 Hf0 Hids) as Hinv0.
  pose proof (reaches_inv (g0 := graph s0) Hreach Hinv0) as Hinv. simpl in Hinv.
  remember (pc', s') as c' eqn:Hc'. revert pc' s' Hc'.
  induction Hreach' as [|c1 c2 Hr IH (e & Henv & Hstep)]; intros pc' s' Hc' k h Hin.
  - inversion Hc'; subst. auto.
  - subst c2. destruct c1 as [pc1 s1]. simpl in Hstep.
    destruct (IH pc1 s1 eq_refl k h Hin) as [Hin1 Hlt1].
    pose proof (reaches_inv (g0 := graph s0) Hr Hinv) as Hinv1. simpl in Hinv1.
    destruct (@step_keeps_entries _ _ _ _ _ _ _ _ _ Hinv1 Hstep k h Hin1) as [Hin2 Hlt2].
    split; [exact Hin2 | congruence].
Qed.

(** X20 on the chain: [a] is submitted at 0; when [b] is about to be
    submitted, at 2, the entries of [a] are the same. *)
Lemma submitted_entries_are_kept_witness :
  In ("a", 0%nat) (futures (snd Scenarios.chain_at_head)) /\
  In ("a", 0%nat) (futures (snd Scenarios.chain_at_submit)) /\
  dict_get (futures_launch_time (snd Scenarios.chain_at_submit)) "a" = Some 0.
Proof.
  assert (Hreach : reaches (fst Scenarios.chain_init) 1 strict
            (AtLoopHead, snd Scenarios.chain_init)
            (fst Scenarios.chain_at_head, snd Scenarios.chain_at_head)).
  { apply run_loop_reaches with (envs := firstn 4 Scenarios.chain_envs);
      [simpl firstn; all_env_ok | vm_compute; reflexivity]. }
  assert (Hreach' : reaches (fst Scenarios.chain_init) 1 strict
            (fst Scenarios.chain_at_head, snd Scenarios.chain_at_head)
            (fst Scenarios.chain_at_submit, snd Scenarios.chain_at_submit)).
  { apply run_loop_reaches with (envs := skipn 4 Scenarios.chain_envs);
      [simpl skipn; all_env_ok | vm_compute; reflexivity]. }
  destruct (@submitted_entries_are_kept Scenarios.chain_store Scenarios.chain_dict 1
              strict Scenarios.chain_graph None (fst Scenarios.chain_init)
              (snd Scenarios.chain_init) (fst Scenarios.chain_at_head)
              (snd Scenarios.chain_at_head) (fst Scenarios.chain_at_submit)
              (snd Scenarios.chain_at_submit)
              (wf_graph_check Scenarios.chain_graph eq_refl) eq_refl
              (@ids_consistent_check (fst Scenarios.chain_init)
                 (store (snd Scenarios.chain_init)) eq_refl)
              Hreach Hreach' "a" 0%nat (or_introl eq_refl)) as [Hin Hlt].
  split; [now left|]. split; [exact Hin|]. rewrite Hlt. reflexivity.
Defined.

(** ** The pick among ties *)

Lemma last_item_cons x l : l <> [] -> last_item (x :: l) = last_item l.
Proof. destruct l; [congruence | reflexivity]. Qed.

Lemma insert_by_key_nonempty key a s : insert_by_key key a s <> [].
Proof. destruct s as [|y s]; simpl; [discriminate|]. destruct (_ <=? _); discriminate. Qed.

Lemma last_item_insert key a : forall s x',
  ascending key s -> last_item s = Ok x' ->
  last_item (insert_by_key key a s) = Ok (if key a <=? key x' then x' else a).
Proof.
  induction s as [|y s IH]; intros x' Hasc Hlast; [discriminate|].
  destruct (last_item_ascending key (y :: s) Hasc Hlast) as [_ Hmax].
  simpl insert_by_key. destruct (key a <=? key y) eqn:Hay.
  - rewrite last_item_cons by discriminate. rewrite Hlast.
    apply Z.leb_le in Hay. specialize (Hmax y (or_introl eq_refl)).
    replace (key a <=? key x') with true by (symmetry; apply Z.leb_le; lia).
    reflexivity.
  - destruct s as [|z s].
    + simpl in Hlast. inversion Hlast; subst. simpl. now rewrite Hay.
    + rewrite last_item_cons by apply insert_by_key_nonempty.
      apply IH; [exact (proj2 Hasc) | exact Hlast].
Qed.

Lemma last_sorted_spec key : forall l x,
  last_item (sort_by_key key l) = Ok x ->
  exists l1 l2, l = l1 ++ x :: l2 /\
    (forall y, In y l1 -> key y <= key x) /\
    (forall y, In y l2 -> key y < key x).
Proof.
  induction l as [|a l IH]; intros x Hlast; [discriminate|].
  simpl in Hlast. destruct l as [|b l].
  - simpl in Hlast. inversion Hlast; subst. exists [], []. simpl.
    split; [reflexivity|]. split; intros y [].
  - destruct (@last_item_nonempty (sort_by_key key (b :: l))) as (x' & Hx').
    { intros Hnil. assert (Hb : In b (sort_by_key key (b :: l)))
        by (apply sort_by_key_In; now left).
      rewrite Hnil in Hb. destruct Hb. }
    rewrite (last_item_insert key a _ (sort_by_key_ascending key (b :: l)) Hx') in Hlast.
    destruct (IH x' Hx') as (l1 & l2 & Heq & H1 & H2).
    destruct (key a <=? key x') eqn:Hax; inversion Hlast; subst x.
    + apply Z.leb_le in Hax. exists (a :: l1), l2. rewrite Heq. simpl.
      split; [reflexivity|]. split; [|exact H2].
      intros y [<- | Hy]; [exact Hax | exact (H1 y Hy)].
    + apply Z.leb_gt in Hax. exists [], (b :: l). split; [reflexivity|].
      split; [intros y []|]. intros y Hy. rewrite Heq in Hy.
      apply in_app_or in Hy as [Hy | [<- | Hy]].
      * specialize (H1 y Hy). lia.
      * exact Hax.
      * specialize (H2 y Hy). lia.
Qed.

Lemma filter_split (A : Type) (f : A -> bool) : forall l m1 x m2,
  filter f l = m1 ++ x :: m2 ->
  exists l1 l2, l = l1 ++ x :: l2 /\ filter f l1 = m1 /\ filter f l2 = m2.
Proof.
  induction l as [|a l IH]; intros m1 x m2 H; simpl in H.
  - destruct m1; discriminate.
  - destruct (f a) eqn:Hfa.
    + destruct m1 as [|b m1]; simpl in H; inversion H; subst.
      * exists [], l. auto.
      * destruct (IH _ _ _ H2) as (l1 & l2 & -> & H1' & H2').
        exists (b :: l1), l2. simpl. rewrite Hfa, H1'. auto.
    + destruct (IH _ _ _ H) as (l1 & l2 & -> & H1' & H2').
      exists (a :: l1), l2. simpl. rewrite Hfa. auto.
Qed.

(** X21.  The pick among ties.  [list.sort] is stable and [[-1]] takes the
    last element, so the node chosen in step 4.1 is, in the iteration order
    of the list of runnable nodes, the last one among those of highest
    priority and, within them, of highest compound priority: every node
    after it with the same priority has a strictly smaller compound
    priority. *)
Theorem choose_xn_last_among_best l x :
  choose_xn l = Ok x ->
  exists l1 l2, l = l1 ++ x :: l2 /\
    (forall y, In y l -> xn_prio y <= xn_prio x) /\
    (forall y, In y l1 -> xn_prio y = xn_prio x -> xn_cprio y <= xn_cprio x) /\
    (forall y, In y l2 -> xn_prio y = xn_prio x -> xn_cprio y < xn_cprio x).
Proof.
  intros Hc. destruct (choose_xn_spec _ Hc) as (_ & Hmax & _).
  unfold choose_xn, get_highest_priority_nodes in Hc.
  destruct (map xn_prio l) as [|p ps] eqn:Hmap; simpl in Hc; [discriminate|].
  set (f := fun node : XnRef => xn_prio node =? py_max p ps) in *.
  destruct (@last_sorted_spec xn_cprio _ _ Hc) as (m1 & m2 & Hm & H1 & H2).
  destruct (@filter_split _ f l m1 x m2 Hm) as (l1 & l2 & Hl & Hf1 & Hf2).
  assert (Hfx : f x = true).
  { assert (Hin : In x (filter f l)) by (rewrite Hm; apply in_or_app; right; now left).
    now apply filter_In in Hin. }
  assert (Hfy : forall y, xn_prio y = xn_prio x -> f y = true).
  { intros y Hy. unfold f in *. now rewrite Hy. }
  exists l1, l2. split; [exact Hl|]. split; [exact Hmax|]. split.
  - intros y Hy Hp. apply H1. rewrite <- Hf1. apply filter_In. auto.
  - intros y Hy Hp. apply H2. rewrite <- Hf2. apply filter_In. auto.
Qed.

(** X21 on three runnable nodes of one priority, two of them with the
    highest compound priority: the later one is picked. *)
Lemma choose_xn_last_among_best_witness :
  choose_xn [(0%nat, Scenarios.node "x" 1 5 false None (ActiveBool true));
             (1%nat, Scenarios.node "y" 1 5 false None (ActiveBool true));
             (2%nat, Scenarios.node "z" 1 2 false None (ActiveBool true))]
  = Ok (1%nat, Scenarios.node "y" 1 5 false None (ActiveBool true)) /\
  exists l1 l2,
    [(0%nat, Scenarios.node "x" 1 5 false None (ActiveBool true));
     (1%nat, Scenarios.node "y" 1 5 false None (ActiveBool true));
     (2%nat, Scenarios.node "z" 1 2 false None (ActiveBool true))]
    = l1 ++ (1%nat, Scenarios.node "y" 1 5 false None (ActiveBool true)) :: l2 /\
    forall y, In y l2 -> xn_prio y = 1 -> xn_cprio y < 5.
Proof.
  split; [reflexivity|].
  destruct (@choose_xn_last_among_best
              [(0%nat, Scenarios.node "x" 1 5 false None (ActiveBool true));
               (1%nat, Scenarios.node "y" 1 5 false None (ActiveBool true));
               (2%nat, Scenarios.node "z" 1 2 false None (ActiveBool true))]
              (1%nat, Scenarios.node "y" 1 5 false None (ActiveBool true)) eq_refl)
    as (l1 & l2 & Hl & _ & _ & H2).
  exists l1, l2. split; [exact Hl | exact H2].
Defined.
